(** * Serial-range expansion and bulk intake (BreganMainsFlowSCApp)

    A shallow embedding of [parseSerial], [expandRange] and of the two
    memoised intake computations [serialsProcessingResult] and
    [scannedSerialsProcessingResult] of the stock application, followed
    by the properties of the specification, each settled on the embedding.

    JavaScript strings are sequences of UTF-16 code units, so a string is
    a [list N] here; JavaScript numbers are IEEE-754 doubles, of which the
    program only ever builds non-negative integers, [Infinity] and [NaN]
    (see [number]).  The [for] loop of [expandRange] carries fuel, one
    unit per test: [None] is "still running".  It ends normally, or by
    the RangeError of [results.push] on an array that cannot grow; how
    far an array grows is the parameter [capacity] of the engine, capped
    by the language at 2^32 - 1 elements.

    The later sections embed the code around the intake: the two submit
    handlers [handleAddItem] and [handleAddScannedItem] with the form
    state of the submit button, the paged [fetchStock] of the stock hook,
    the dashboard's [groupedStock] and [stockSummary], the sorted lists
    [existingBarcodesForItemType] and [uniqueItemNames], and the movement
    log that [addStockItem], [updateStockItemAssignment] and
    [deleteStockItem] write and [reportSummary] counts.  Calls of the
    backend are parameters of the model. *)

From Stdlib Require Import ZArith NArith List Lia Bool Ascii String.
From stdpp Require Import gmap sorting.
Import ListNotations.

Local Open Scope Z_scope.

(** ** Strings *)

(** A string literal of the source, as code units (ASCII text only). *)
Definition lit (s : string) : list N :=
  List.map N_of_ascii (list_ascii_of_string s).

(** [s.length], of a string or of an array. *)
Definition strlen {A : Type} (s : list A) : nat := List.length s.

(** [s[i]]: the one-unit string at index [i]; [undefined] out of range,
    which every use below passes to [parseInt], where it reads as the text
    "undefined" and gives [NaN] like the empty string does. *)
Definition charAt (s : list N) (i : nat) : list N :=
  match s !! i with
  | Some c => [c]
  | None => []
  end.

(** [s.substring(a, b)]: both indices are clamped to the length and
    swapped when [a > b]. *)
Definition substring (s : list N) (a b : nat) : list N :=
  let a' := Nat.min a (strlen s) in
  let b' := Nat.min b (strlen s) in
  let lo := Nat.min a' b' in
  let hi := Nat.max a' b' in
  firstn (hi - lo) (skipn lo s).

(** [s.substring(a)] *)
Definition substringFrom (s : list N) (a : nat) : list N :=
  substring s a (strlen s).

(** [s.padStart(n, '0')] with a one-unit filler. *)
Definition padStart (n : nat) (fill : N) (s : list N) : list N :=
  repeat fill (n - strlen s) ++ s.

(** ECMAScript [WhiteSpace] and [LineTerminator] code units, the ones
    [String.prototype.trim] strips. *)
Definition isWhiteSpace (c : N) : bool :=
  (existsb (N.eqb c)
     [9; 10; 11; 12; 13; 32; 160; 5760; 8232; 8233; 8239; 8287; 12288; 65279]%N
   || ((8192 <=? c) && (c <=? 8202))%N)%bool.

Fixpoint trimStart (s : list N) : list N :=
  match s with
  | c :: s' => if isWhiteSpace c then trimStart s' else s
  | [] => []
  end.

Definition trimEnd (s : list N) : list N := rev (trimStart (rev s)).

(** [s.trim()] *)
Definition trim (s : list N) : list N := trimEnd (trimStart s).

(** [s.split(sep)] for a one-unit separator: never an empty array. *)
Fixpoint split (sep : N) (s : list N) : list (list N) :=
  match s with
  | [] => [[]]
  | c :: s' =>
      if (c =? sep)%N then [] :: split sep s'
      else match split sep s' with
           | l :: ls => (c :: l) :: ls
           | [] => [[c]]
           end
  end.

(** ** Numbers *)

(** The values of the number type that the program can build: a finite
    non-negative integer-valued double, [Infinity], [NaN]. *)
Inductive number : Type :=
  | Fin (z : Z)
  | Infinity
  | NaN.

(** Round a non-negative integer to the nearest double, ties to the even
    significand (53 bits); magnitudes that round up to 2^1024 overflow. *)
Definition roundF64 (z : Z) : number :=
  if z <? 2 ^ 53 then Fin z
  else
    let e := Z.log2 z - 52 in
    let q := Z.shiftr z e in
    let r := z - Z.shiftl q e in
    let half := Z.shiftl 1 (e - 1) in
    let q' := if r <? half then q
              else if half <? r then q + 1
              else if Z.even q then q else q + 1 in
    let v := Z.shiftl q' e in
    if v <? 2 ^ 1024 then Fin v else Infinity.

(** The value of a decimal digit code unit. *)
Definition digitValue (c : N) : option Z :=
  if ((48 <=? c) && (c <=? 57))%N then Some (Z.of_N c - 48) else None.

(** The longest prefix of decimal digits, read in base 10 from the
    accumulator [acc]; [n] counts the digits read. *)
Fixpoint readDigits (s : list N) (acc : Z) (n : nat) : Z * nat :=
  match s with
  | c :: s' =>
      match digitValue c with
      | Some d => readDigits s' (10 * acc + d) (S n)
      | None => (acc, n)
      end
  | [] => (acc, n)
  end.

(** [parseInt(s, 10)] for the strings the program passes to it: a single
    code unit, or a run of digits.  Neither starts with white space that
    is followed by a digit nor with a sign followed by a digit, so the
    stripping of white space and of the sign changes nothing: the result
    is the rounded value of the leading digits, [NaN] when there is none. *)
Definition parseInt10 (s : list N) : number :=
  match readDigits s 0 O with
  | (_, O) => NaN
  | (v, S _) => roundF64 v
  end.

Definition isNaN (x : number) : bool :=
  match x with NaN => true | _ => false end.

(** [x > y] and [x <= y]: false as soon as one side is [NaN]. *)
Definition num_gt (x y : number) : bool :=
  match x, y with
  | Fin a, Fin b => b <? a
  | Infinity, Fin _ => true
  | _, _ => false
  end.

Definition num_le (x y : number) : bool :=
  match x, y with
  | Fin a, Fin b => a <=? b
  | Fin _, Infinity => true
  | Infinity, Infinity => true
  | _, _ => false
  end.

(** [i++]: the double nearest to [i + 1]. *)
Definition num_succ (x : number) : number :=
  match x with
  | Fin a => roundF64 (a + 1)
  | other => other
  end.

(** [Math.max] on two lengths. *)
Definition Math_max (a b : nat) : nat := Nat.max a b.

(** ** parseSerial *)

Record parts : Type := mkParts {
  prefix : list N;
  numStr : list N;
  suffix : list N
}.

(** [!isNaN(parseInt(serial[i], 10))] *)
Definition digitAt (serial : list N) (i : nat) : bool :=
  negb (isNaN (parseInt10 (charAt serial i))).

(** The first loop, entered with [i = n - 1]: the index of the last digit
    among the first [n] code units, [None] for the sentinel [-1]. *)
Fixpoint findLastDigit (serial : list N) (n : nat) : option nat :=
  match n with
  | O => None
  | S i => if digitAt serial i then Some i else findLastDigit serial i
  end.

(** The [while] loop: [firstDigitIndex] walks left while it is positive
    and the unit before it is a digit. *)
Fixpoint findFirstDigit (serial : list N) (firstDigitIndex : nat) : nat :=
  match firstDigitIndex with
  | O => O
  | S j => if digitAt serial j then findFirstDigit serial j
           else firstDigitIndex
  end.

Definition parseSerial (serial : list N) : option parts :=
  match findLastDigit serial (strlen serial) with
  | None => None
  | Some lastDigitIndex =>
      let firstDigitIndex := findFirstDigit serial lastDigitIndex in
      Some {| prefix := substring serial 0 firstDigitIndex;
              numStr := substring serial firstDigitIndex (lastDigitIndex + 1);
              suffix := substringFrom serial (lastDigitIndex + 1) |}
  end.

(** ** Number to string *)

(** The decimal digits of [z >= 0], most significant first; [fuel] bounds
    the number of digits. *)
Fixpoint digitsAux (fuel : nat) (z : Z) (acc : list N) : list N :=
  match fuel with
  | O => acc
  | S fuel' =>
      let acc' := Z.to_N (48 + z mod 10) :: acc in
      if z <? 10 then acc' else digitsAux fuel' (z / 10) acc'
  end.

Definition decimal (z : Z) : list N :=
  digitsAux (S (Z.to_nat (Z.log2 z))) z [].

Definition number_eqb (x y : number) : bool :=
  match x, y with
  | Fin a, Fin b => a =? b
  | Infinity, Infinity => true
  | _, _ => false
  end.

(** Number::toString looks for the fewest significant digits that read
    back as the double [x].  At scale [10^p] the two multiples of [10^p]
    around [x] are tried; when both read back as [x] the nearer one is
    taken, the even one on a tie. *)
Definition candidate (x : Z) (p : nat) : option Z :=
  let scale := 10 ^ Z.of_nat p in
  let lo := (x / scale) * scale in
  let hi := lo + scale in
  match number_eqb (roundF64 lo) (Fin x), number_eqb (roundF64 hi) (Fin x) with
  | true, true =>
      if x - lo <? hi - x then Some lo
      else if hi - x <? x - lo then Some hi
      else if Z.even (x / scale) then Some lo else Some hi
  | true, false => Some lo
  | false, true => Some hi
  | false, false => None
  end.

(** From the coarsest scale down to [10^0], where [x] itself is found. *)
Fixpoint shortestFrom (x : Z) (p : nat) : Z :=
  match candidate x p with
  | Some v => v
  | None =>
      match p with
      | O => x
      | S p' => shortestFrom x p'
      end
  end.

(** The integer with the fewest significant digits that rounds to [x]. *)
Definition shortestValue (x : Z) : Z :=
  shortestFrom x (strlen (decimal x) - 1).

Fixpoint dropZeros (s : list N) : list N :=
  match s with
  | c :: s' => if (c =? 48)%N then dropZeros s' else s
  | [] => []
  end.

(** Exponent notation from the digits [ds] of a value of at least 10^21:
    the significant digits, a point after the first when there are more,
    then [e+] and the exponent. *)
Definition exponential (ds : list N) : list N :=
  let e := decimal (Z.of_nat (strlen ds) - 1) in
  match rev (dropZeros (rev ds)) with
  | [] => []
  | [d] => d :: lit "e+" ++ e
  | d :: more => d :: lit "." ++ more ++ lit "e+" ++ e
  end.

(** [String(x)] (Number::toString, radix 10) on the values of [number]:
    the digits of the shortest value, in full below 10^21 and in exponent
    notation from there on. *)
Definition numberToString (x : number) : list N :=
  match x with
  | NaN => lit "NaN"
  | Infinity => lit "Infinity"
  | Fin z =>
      let v := shortestValue z in
      if v <? 10 ^ 21 then decimal v else exponential (decimal v)
  end.

(** ** expandRange *)

(** [{ result: string[] }] or [{ error: string }]. *)
Inductive expansion : Type :=
  | Result (result : list (list N))
  | Error (error : list N).

(** How a call ends, when it ends: normally, with the value it returns,
    or by the exception of [results.push] on an array that cannot grow,
    "RangeError: Invalid array length" (an engine that runs out of memory
    before that aborts; either way the call returns no value).  Nothing
    in the code catches the exception. *)
Inductive completion (A : Type) : Type :=
  | Normal (value : A)
  | RangeError.
Arguments Normal {A} value.
Arguments RangeError {A}.

(** The largest length an array can have by the language: [2^32 - 1]. *)
Definition MAX_ARRAY_LENGTH : Z := 2 ^ 32 - 1.

(** The number of elements that [push] lets an array reach.  An engine
    stops where it cannot allocate the elements any more, at [capacity]
    elements, which depends on the engine and on its memory; the language
    stops it at [MAX_ARRAY_LENGTH] at the latest. *)
Definition arrayLimit (capacity : Z) : Z :=
  Z.max 0 (Z.min capacity MAX_ARRAY_LENGTH).

(** [results.push(x)] *)
Definition push {A : Type} (capacity : Z) (results : list A) (x : A)
    : completion (list A) :=
  if Z.of_nat (strlen results) <? arrayLimit capacity
  then Normal (results ++ [x])
  else RangeError.

Definition MSG_INVALID_FORMAT : list N :=
  lit "Invalid format. Serials must contain a number part for range expansion.".
Definition MSG_TEXT_MISMATCH : list N :=
  lit "The text parts (prefix/suffix) of the serial numbers do not match.".
Definition MSG_START_GREATER : list N :=
  lit "The start number cannot be greater than the end number.".

(** [a !== b] on strings: some code unit differs. *)
Definition str_neq (a b : list N) : bool :=
  negb (bool_decide (a = b)).

(** The [for] loop, one unit of fuel per evaluation of its test
    [i <= endNum]: [None] is "still running".  The loop ends normally
    when the test fails, and by the RangeError of [results.push] when the
    array cannot take one more serial. *)
Fixpoint forLoop (capacity : Z) (fuel : nat) (i endNum : number)
    (padLength : nat) (startPrefix startSuffix : list N)
    (results : list (list N)) : option (completion (list (list N))) :=
  match fuel with
  | O => None
  | S fuel' =>
      if num_le i endNum then
        let paddedNum := padStart padLength 48%N (numberToString i) in
        match push capacity results (startPrefix ++ paddedNum ++ startSuffix) with
        | Normal results' =>
            forLoop capacity fuel' (num_succ i) endNum padLength
                    startPrefix startSuffix results'
        | RangeError => Some RangeError
        end
      else Some (Normal results)
  end.

Definition expandRange (capacity : Z) (fuel : nat) (start end_ : list N)
    : option (completion expansion) :=
  match parseSerial start, parseSerial end_ with
  | Some startParts, Some endParts =>
      if (str_neq (prefix startParts) (prefix endParts)
          || str_neq (suffix startParts) (suffix endParts))%bool
      then Some (Normal (Error MSG_TEXT_MISMATCH))
      else
        let startNum := parseInt10 (numStr startParts) in
        let endNum := parseInt10 (numStr endParts) in
        if num_gt startNum endNum then Some (Normal (Error MSG_START_GREATER))
        else
          let padLength :=
            Math_max (strlen (numStr startParts)) (strlen (numStr endParts)) in
          match forLoop capacity fuel startNum endNum padLength
                        (prefix startParts) (suffix startParts) [] with
          | Some (Normal results) => Some (Normal (Result results))
          | Some RangeError => Some RangeError
          | None => None
          end
  | _, _ => Some (Normal (Error MSG_INVALID_FORMAT))
  end.

(** ** Bulk intake *)

(** The value of the two memoised computations: [{ serials, error }],
    [error] being a message or [null]. *)
Record processing : Type := mkProcessing {
  serials : list (list N);
  error : option (list N)
}.

(** The fields of the [newItem] form state that the computation reads. *)
Record newItemState : Type := mkNewItem {
  barcodes : list N;
  firstSerial : list N;
  lastSerial : list N
}.

(** An entry of [itemTypes] and the fields of [newScannedItemDetails], as
    far as the scan computation reads them. *)
Record itemType : Type := mkItemType {
  it_name : list N;
  it_category : list N
}.

Record scannedItemState : Type := mkScanned {
  sc_name : list N;
  sc_firstSerial : list N;
  sc_lastSerial : list N
}.

(** A string in a condition: the empty string is the only falsy one. *)
Definition truthy (s : list N) : bool :=
  match s with
  | [] => false
  | _ :: _ => true
  end.

Definition rangeTooLarge (n : nat) : list N :=
  lit "Range is too large. A maximum of 1000 items can be added at once, but this range contains "
  ++ numberToString (Fin (Z.of_nat n)) ++ lit ".".

Definition listTooLong (n : nat) : list N :=
  lit "List is too long. A maximum of 1000 items can be added at once, but you have provided "
  ++ numberToString (Fin (Z.of_nat n)) ++ lit ".".

Definition MSG_DUPLICATES : list N :=
  lit "The list contains duplicate serial numbers. Please ensure each is unique.".

(** The range branch, shared word for word by the two computations: both
    serials trimmed, nothing to do while one is empty, then the expansion
    and, on its result, the cap.  Every error message of [expandRange] is
    a non-empty literal, so [if (expansion.error)] is the case
    distinction on the expansion.  An exception of [expandRange] passes
    through: the computation has no [try]. *)
Definition processRange (capacity : Z) (fuel : nat) (first last : list N)
    : option (completion processing) :=
  let start := trim first in
  let end_ := trim last in
  if (negb (truthy start) || negb (truthy end_))%bool
  then Some (Normal {| serials := []; error := None |})
  else
    match expandRange capacity fuel start end_ with
    | None => None
    | Some RangeError => Some RangeError
    | Some (Normal (Error e)) => Some (Normal {| serials := []; error := Some e |})
    | Some (Normal (Result expanded)) =>
        if (1000 <? strlen expanded)%nat
        then Some (Normal {| serials := [];
                             error := Some (rangeTooLarge (strlen expanded)) |})
        else Some (Normal {| serials := expanded; error := None |})
    end.

(** The list branch: lines trimmed, empty ones dropped, the cap, then the
    size of the [Set] of the lines against their number. *)
Definition processList (text : list N) : processing :=
  if negb (truthy (trim text)) then {| serials := []; error := None |}
  else
    let lines := List.filter truthy (List.map trim (split 10%N text)) in
    if (1000 <? strlen lines)%nat
    then {| serials := []; error := Some (listTooLong (strlen lines)) |}
    else
      let uniqueLines : gset (list N) := list_to_set lines in
      if negb (size uniqueLines =? strlen lines)%nat
      then {| serials := []; error := Some MSG_DUPLICATES |}
      else {| serials := lines; error := None |}.

Definition serialsProcessingResult (capacity : Z) (fuel : nat)
    (addMode : list N) (newItem : newItemState)
    : option (completion processing) :=
  if bool_decide (addMode = lit "range")
  then processRange capacity fuel (firstSerial newItem) (lastSerial newItem)
  else Some (Normal (processList (barcodes newItem))).

Definition StockCategory_METERS : list N := lit "Meters".

(** [itemTypes.find(it => it.name === name)] *)
Definition findItemType (itemTypes : list itemType) (name : list N)
    : option itemType :=
  List.find (fun it => bool_decide (it_name it = name)) itemTypes.

Definition scannedSerialsProcessingResult (capacity : Z) (fuel : nat)
    (itemTypes : list itemType) (details : scannedItemState)
    : option (completion processing) :=
  match findItemType itemTypes (sc_name details) with
  | Some selectedItemType =>
      if str_neq (it_category selectedItemType) StockCategory_METERS
      then Some (Normal {| serials := []; error := None |})
      else processRange capacity fuel
             (sc_firstSerial details) (sc_lastSerial details)
  | None => Some (Normal {| serials := []; error := None |})
  end.

(** * Properties *)

(** ** Digits and the parser *)

(** A decimal digit code unit, ['0'] to ['9']. *)
Definition isDecimalDigit (c : N) : bool := ((48 <=? c) && (c <=? 57))%N.

(** A string with no decimal digit. *)
Definition noDigit (s : list N) : Prop :=
  Forall (fun c => isDecimalDigit c = false) s.

(** A string made of decimal digits only. *)
Definition allDigits (s : list N) : Prop :=
  Forall (fun c => isDecimalDigit c = true) s.

(** A string that does not end with a decimal digit. *)
Definition noDigitAtEnd (s : list N) : Prop :=
  match last s with
  | Some c => isDecimalDigit c = false
  | None => True
  end.

Lemma digitValue_digit c :
  digitValue c = if isDecimalDigit c then Some (Z.of_N c - 48) else None.
Proof. reflexivity. Qed.

Lemma digitValue_range c d : digitValue c = Some d -> 0 <= d <= 9.
Proof.
  unfold digitValue. case_eq ((48 <=? c) && (c <=? 57))%N; [|discriminate].
  intros H [= <-]. apply andb_true_iff in H as [H1 H2].
  apply N.leb_le in H1, H2. lia.
Qed.

Lemma roundF64_small z : z < 2 ^ 53 -> roundF64 z = Fin z.
Proof. intros H. unfold roundF64. apply Z.ltb_lt in H. now rewrite H. Qed.

Lemma parseInt10_unit c :
  isNaN (parseInt10 [c]) = negb (isDecimalDigit c).
Proof.
  unfold parseInt10. cbn [readDigits]. rewrite digitValue_digit.
  destruct (isDecimalDigit c) eqn:E; [|reflexivity].
  rewrite roundF64_small; [reflexivity|].
  pose proof (digitValue_range c (Z.of_N c - 48)) as R.
  rewrite digitValue_digit, E in R. specialize (R eq_refl).
  change (2 ^ 53) with 9007199254740992. lia.
Qed.

Lemma digitAt_lookup serial i :
  digitAt serial i =
  match serial !! i with
  | Some c => isDecimalDigit c
  | None => false
  end.
Proof.
  unfold digitAt, charAt. destruct (serial !! i) as [c|]; [|reflexivity].
  rewrite parseInt10_unit. apply negb_involutive.
Qed.

Lemma findLastDigit_Some serial n i :
  findLastDigit serial n = Some i ->
  (i < n)%nat /\ digitAt serial i = true /\
  forall j, (i < j < n)%nat -> digitAt serial j = false.
Proof.
  induction n as [|n IH]; cbn [findLastDigit]; [discriminate|].
  destruct (digitAt serial n) eqn:E.
  - intros [= <-]. repeat split; [lia|assumption|]. intros j Hj. lia.
  - intros H. destruct (IH H) as (Hi & Hd & Hafter).
    repeat split; [lia|assumption|]. intros j Hj.
    destruct (decide (j = n)) as [->|]; [assumption|]. apply Hafter. lia.
Qed.

Lemma findLastDigit_None serial n :
  findLastDigit serial n = None ->
  forall j, (j < n)%nat -> digitAt serial j = false.
Proof.
  induction n as [|n IH]; cbn [findLastDigit]; [intros _ j Hj; lia|].
  destruct (digitAt serial n) eqn:E; [discriminate|].
  intros H j Hj. destruct (decide (j = n)) as [->|]; [assumption|].
  apply IH; [assumption|lia].
Qed.

Lemma findFirstDigit_spec serial k :
  let f := findFirstDigit serial k in
  (f <= k)%nat /\
  (forall j, (f <= j < k)%nat -> digitAt serial j = true) /\
  (forall j, S j = f -> digitAt serial j = false).
Proof.
  induction k as [|k IH]; cbn [findFirstDigit].
  - repeat split; [lia| |]; intros j Hj; lia.
  - destruct (digitAt serial k) eqn:E.
    + destruct IH as (Hle & Hrun & Hbefore). repeat split; [lia| |assumption].
      intros j Hj. destruct (decide (j = k)) as [->|]; [assumption|].
      apply Hrun. lia.
    + repeat split; [lia| |]; intros j Hj; [lia|].
      injection Hj as ->. assumption.
Qed.

Lemma substring_take_drop (s : list N) a b :
  (a <= b <= strlen s)%nat -> substring s a b = take (b - a) (drop a s).
Proof.
  intros H. unfold substring.
  replace (Nat.min a (strlen s)) with a by lia.
  replace (Nat.min b (strlen s)) with b by lia.
  replace (Nat.min a b) with a by lia.
  replace (Nat.max a b) with b by lia. reflexivity.
Qed.

Lemma substringFrom_drop (s : list N) a :
  (a <= strlen s)%nat -> substringFrom s a = drop a s.
Proof.
  intros H. unfold substringFrom. rewrite substring_take_drop by lia.
  apply take_ge. rewrite length_drop. unfold strlen. lia.
Qed.

(** What [parseSerial] returns, by indices: the run is [first..last]. *)
Lemma parseSerial_indices serial p :
  parseSerial serial = Some p ->
  exists first last,
    (first <= last < strlen serial)%nat /\
    prefix p = take first serial /\
    numStr p = take (S last - first) (drop first serial) /\
    suffix p = drop (S last) serial /\
    (forall j, (first <= j <= last)%nat -> digitAt serial j = true) /\
    (forall j, S j = first -> digitAt serial j = false) /\
    (forall j, (last < j < strlen serial)%nat -> digitAt serial j = false).
Proof.
  unfold parseSerial.
  destruct (findLastDigit serial (strlen serial)) as [l|] eqn:EL; [|discriminate].
  intros [= <-]. cbn [prefix numStr suffix].
  destruct (findLastDigit_Some _ _ _ EL) as (Hl & Hd & Hafter).
  destruct (findFirstDigit_spec serial l) as (Hle & Hrun & Hbefore).
  exists (findFirstDigit serial l), l.
  rewrite !substring_take_drop by lia.
  rewrite substringFrom_drop by lia.
  replace (l + 1)%nat with (S l) by lia. rewrite Nat.sub_0_r.
  repeat split; try assumption; try lia.
  intros j Hj. destruct (decide (j = l)) as [->|]; [assumption|].
  apply Hrun. lia.
Qed.

Lemma existsb_digit_lookup serial :
  existsb isDecimalDigit serial = true ->
  exists i, (i < strlen serial)%nat /\ digitAt serial i = true.
Proof.
  intros H. apply existsb_exists in H as (c & Hin & Hc).
  apply list_elem_of_In, list_elem_of_lookup in Hin as (i & Hi).
  exists i. split; [eapply lookup_lt_Some; eassumption|].
  rewrite digitAt_lookup, Hi. assumption.
Qed.

Lemma parseSerial_None serial :
  parseSerial serial = None <-> existsb isDecimalDigit serial = false.
Proof.
  unfold parseSerial.
  destruct (findLastDigit serial (strlen serial)) as [l|] eqn:EL.
  - split; [discriminate|]. intros H.
    destruct (findLastDigit_Some _ _ _ EL) as (Hl & Hd & _).
    rewrite digitAt_lookup in Hd.
    destruct (serial !! l) as [c|] eqn:Ec; [|discriminate].
    assert (existsb isDecimalDigit serial = true) as Ht; [|congruence].
    apply existsb_exists. exists c. split; [|assumption].
    apply list_elem_of_In, list_elem_of_lookup. eauto.
  - split; [|reflexivity]. intros _.
    destruct (existsb isDecimalDigit serial) eqn:E; [|reflexivity].
    destruct (existsb_digit_lookup _ E) as (i & Hi & Hd).
    rewrite (findLastDigit_None _ _ EL i Hi) in Hd. discriminate.
Qed.

Lemma digitAt_app_l (a b : list N) j :
  (j < strlen a)%nat -> digitAt (a ++ b) j = digitAt a j.
Proof. intros H. rewrite !digitAt_lookup, lookup_app_l; [reflexivity|exact H]. Qed.

Lemma digitAt_app_r (a b : list N) j :
  digitAt (a ++ b) (strlen a + j) = digitAt b j.
Proof.
  rewrite !digitAt_lookup, lookup_app_r by (unfold strlen; lia).
  unfold strlen. replace (length a + j - length a)%nat with j by lia.
  reflexivity.
Qed.

Lemma digitAt_allDigits d j :
  allDigits d -> (j < strlen d)%nat -> digitAt d j = true.
Proof.
  intros Hd Hj. rewrite digitAt_lookup.
  destruct (lookup_lt_is_Some_2 d j Hj) as [c Hc]. rewrite Hc.
  exact (proj1 (Forall_lookup _ _) Hd j c Hc).
Qed.

Lemma digitAt_noDigit s j : noDigit s -> digitAt s j = false.
Proof.
  intros Hs. rewrite digitAt_lookup.
  destruct (s !! j) as [c|] eqn:Hc; [|reflexivity].
  exact (proj1 (Forall_lookup _ _) Hs j c Hc).
Qed.

Lemma digitAt_noDigitAtEnd p j :
  noDigitAtEnd p -> strlen p = S j -> digitAt p j = false.
Proof.
  unfold noDigitAtEnd, strlen. intros Hp Hlen. rewrite digitAt_lookup.
  rewrite last_lookup, Hlen in Hp. cbn [pred] in Hp.
  destruct (p !! j); [assumption|reflexivity].
Qed.

(** Soundness of the parser: the three parts rebuild the serial, the run
    is a non-empty run of digits, and it is the last maximal one. *)
Lemma parseSerial_sound serial p :
  parseSerial serial = Some p ->
  prefix p ++ numStr p ++ suffix p = serial /\
  numStr p <> [] /\ allDigits (numStr p) /\
  noDigitAtEnd (prefix p) /\ noDigit (suffix p).
Proof.
  intros H.
  destruct (parseSerial_indices _ _ H)
    as (f & l & Hfl & -> & -> & -> & Hrun & Hbefore & Hafter).
  unfold strlen in *. repeat split.
  - replace (drop (S l) serial) with (drop (S l - f) (drop f serial)).
    + now rewrite take_drop, take_drop.
    + rewrite drop_drop. f_equal. lia.
  - intros E. apply (f_equal length) in E.
    rewrite length_take, length_drop in E. cbn in E. lia.
  - apply Forall_lookup. intros i c Hi.
    apply lookup_take_Some in Hi as [Hi Hlt]. rewrite lookup_drop in Hi.
    specialize (Hrun (f + i)%nat ltac:(lia)).
    rewrite digitAt_lookup, Hi in Hrun. exact Hrun.
  - unfold noDigitAtEnd. rewrite last_lookup, length_take.
    replace (Nat.min f (length serial)) with f by lia.
    destruct f as [|j]; [reflexivity|]. cbn [pred].
    rewrite lookup_take_lt by lia.
    specialize (Hbefore j eq_refl). rewrite digitAt_lookup in Hbefore.
    destruct (serial !! j); [assumption|exact I].
  - apply Forall_lookup. intros i c Hi. rewrite lookup_drop in Hi.
    pose proof (lookup_lt_Some _ _ _ Hi) as Hlt.
    specialize (Hafter (S l + i)%nat ltac:(lia)).
    rewrite digitAt_lookup, Hi in Hafter. exact Hafter.
Qed.

(** The parser finds the parts of any string built as text, a run of
    digits, text: the decomposition is unique. *)
Lemma parseSerial_app p d s :
  d <> [] -> allDigits d -> noDigitAtEnd p -> noDigit s ->
  parseSerial (p ++ d ++ s) = Some {| prefix := p; numStr := d; suffix := s |}.
Proof.
  intros Hne Hd Hp Hs.
  assert (0 < strlen d)%nat as Hlen by (destruct d; [congruence|cbn; lia]).
  assert (forall j, (j < strlen d)%nat -> digitAt (p ++ d ++ s) (strlen p + j) = true)
    as Din.
  { intros j Hj. rewrite digitAt_app_r, digitAt_app_l by exact Hj.
    now apply digitAt_allDigits. }
  assert (forall j, digitAt (p ++ d ++ s) (strlen p + strlen d + j) = false)
    as Dafter.
  { intros j. rewrite <- Nat.add_assoc, digitAt_app_r, digitAt_app_r.
    now apply digitAt_noDigit. }
  assert (forall j, strlen p = S j -> digitAt (p ++ d ++ s) j = false) as Dbefore.
  { intros j Hj. rewrite digitAt_app_l by lia. now apply digitAt_noDigitAtEnd. }
  destruct (parseSerial (p ++ d ++ s)) as [q|] eqn:E.
  - destruct (parseSerial_indices _ _ E)
      as (f & l & Hfl & Hpre & Hnum & Hsuf & Hrun & Hbefore & Hafter).
    assert (strlen (p ++ d ++ s) = strlen p + strlen d + strlen s)%nat as Hall.
    { unfold strlen. rewrite !length_app. lia. }
    assert (S l = strlen p + strlen d)%nat as Hl.
    { destruct (Nat.lt_trichotomy (S l) (strlen p + strlen d)) as [Hlt|[Heq|Hgt]];
        [|exact Heq|].
      - specialize (Hafter (strlen p + (strlen d - 1))%nat ltac:(lia)).
        rewrite Din in Hafter by lia. discriminate.
      - specialize (Hrun l ltac:(lia)).
        replace l with (strlen p + strlen d + (l - strlen p - strlen d))%nat
          in Hrun by lia.
        rewrite Dafter in Hrun. discriminate. }
    assert (f = strlen p) as Hf.
    { destruct (Nat.lt_trichotomy f (strlen p)) as [Hlt|[Heq|Hgt]];
        [|exact Heq|].
      - destruct (strlen p) as [|j] eqn:Ep; [lia|].
        specialize (Hrun j ltac:(lia)). rewrite Dbefore in Hrun by reflexivity.
        discriminate.
      - destruct f as [|j]; [lia|]. specialize (Hbefore j eq_refl).
        replace j with (strlen p + (j - strlen p))%nat in Hbefore by lia.
        rewrite Din in Hbefore by lia. discriminate. }
    subst f. destruct q as [qp qd qs]. cbn [prefix numStr suffix] in *.
    f_equal. f_equal.
    + rewrite Hpre. apply take_app_length.
    + rewrite Hnum, drop_app_length.
      replace (S l - strlen p)%nat with (strlen d) by lia.
      apply take_app_length.
    + rewrite Hsuf, Hl. unfold strlen. rewrite app_assoc.
      rewrite <- length_app. apply drop_app_length.
  - apply parseSerial_None in E.
    assert (existsb isDecimalDigit (p ++ d ++ s) = true) as Ht; [|congruence].
    destruct d as [|c d']; [congruence|].
    apply existsb_exists. exists c. split.
    + apply in_or_app. right. left. reflexivity.
    + apply Forall_inv in Hd. exact Hd.
Qed.

(** ** Decimal text and its value *)

(** The value of a run of digits read as a base-10 natural number. *)
Definition digitsValue (s : list N) : Z :=
  fold_left (fun acc c => 10 * acc + (Z.of_N c - 48)) s 0.

Lemma readDigits_allDigits d acc n :
  allDigits d ->
  readDigits d acc n =
  (fold_left (fun a c => 10 * a + (Z.of_N c - 48)) d acc, (n + strlen d)%nat).
Proof.
  intros Hd. revert acc n.
  induction Hd as [|c d Hc Hd IH]; intros acc n; cbn [readDigits fold_left].
  - f_equal. unfold strlen. cbn [length]. lia.
  - rewrite digitValue_digit, Hc, IH. f_equal. unfold strlen. cbn [length]. lia.
Qed.

Lemma parseInt10_digits d :
  d <> [] -> allDigits d -> parseInt10 d = roundF64 (digitsValue d).
Proof.
  intros Hne Hd. unfold parseInt10. rewrite readDigits_allDigits by exact Hd.
  destruct d as [|c d']; [congruence|]. reflexivity.
Qed.

Lemma fold_digits_nonneg d acc :
  allDigits d -> 0 <= acc ->
  0 <= fold_left (fun a c => 10 * a + (Z.of_N c - 48)) d acc.
Proof.
  intros Hd. revert acc.
  induction Hd as [|c d Hc Hd IH]; intros acc Hacc; cbn [fold_left]; [exact Hacc|].
  apply IH. unfold isDecimalDigit in Hc. apply andb_true_iff in Hc as [H1 H2].
  apply N.leb_le in H1, H2. lia.
Qed.

Lemma digitsValue_nonneg d : allDigits d -> 0 <= digitsValue d.
Proof. intros Hd. apply fold_digits_nonneg; [exact Hd|lia]. Qed.

Lemma digitsValue_snoc d c :
  digitsValue (d ++ [c]) = 10 * digitsValue d + (Z.of_N c - 48).
Proof. unfold digitsValue. now rewrite fold_left_app. Qed.

(** Leading zeros do not change the value. *)
Lemma digitsValue_zeros k d : digitsValue (repeat 48%N k ++ d) = digitsValue d.
Proof.
  unfold digitsValue. rewrite fold_left_app. f_equal.
  induction k as [|k IH]; [reflexivity|]. cbn [repeat fold_left].
  change (10 * 0 + (Z.of_N 48 - 48)) with 0. exact IH.
Qed.

Lemma digitsAux_acc fuel z acc :
  digitsAux fuel z acc = digitsAux fuel z [] ++ acc.
Proof.
  revert z acc. induction fuel as [|fuel IH]; intros z acc; [reflexivity|].
  cbn [digitsAux]. destruct (z <? 10); [reflexivity|].
  rewrite IH, (IH _ [_]), <- app_assoc. reflexivity.
Qed.

Lemma digit_of_mod z :
  0 <= z -> isDecimalDigit (Z.to_N (48 + z mod 10)) = true /\
            Z.of_N (Z.to_N (48 + z mod 10)) - 48 = z mod 10.
Proof.
  intros Hz. pose proof (Z.mod_pos_bound z 10 ltac:(lia)) as Hm.
  unfold isDecimalDigit. split.
  - apply andb_true_iff. split; apply N.leb_le; lia.
  - lia.
Qed.

Lemma digitsAux_spec fuel z :
  0 <= z < 2 ^ Z.of_nat fuel -> (0 < fuel)%nat ->
  allDigits (digitsAux fuel z []) /\ digitsAux fuel z [] <> [] /\
  digitsValue (digitsAux fuel z []) = z.
Proof.
  revert z. induction fuel as [|fuel IH]; intros z Hz Hfuel; [lia|].
  cbn [digitsAux]. destruct (digit_of_mod z ltac:(lia)) as [Hdig Hval].
  destruct (z <? 10) eqn:E.
  - apply Z.ltb_lt in E. repeat split; [repeat constructor; exact Hdig|discriminate|].
    unfold digitsValue. cbn [fold_left]. rewrite Hval.
    rewrite Z.mod_small by lia. lia.
  - apply Z.ltb_ge in E. rewrite digitsAux_acc.
    rewrite Nat2Z.inj_succ, Z.pow_succ_r in Hz by lia.
    assert (1 <= z / 10) as Hq1 by (apply Z.div_le_lower_bound; lia).
    assert (z / 10 < 2 ^ Z.of_nat fuel) as Hq2
      by (apply Z.div_lt_upper_bound; lia).
    assert (0 < fuel)%nat as Hf.
    { destruct fuel; [|lia]. change (2 ^ Z.of_nat 0) with 1 in Hq2. lia. }
    destruct (IH (z / 10) ltac:(lia) Hf) as (Hall & Hne & Hv).
    repeat split.
    + apply Forall_app. split; [exact Hall|]. repeat constructor. exact Hdig.
    + intros Habs. apply app_eq_nil in Habs as [_ Habs]. discriminate.
    + rewrite digitsValue_snoc, Hv, Hval. pose proof (Z.div_mod z 10). lia.
Qed.

(** The decimal text of a natural number is a non-empty run of digits
    that reads back as the number. *)
Lemma decimal_spec z :
  0 <= z ->
  allDigits (decimal z) /\ decimal z <> [] /\ digitsValue (decimal z) = z.
Proof.
  intros Hz. unfold decimal. apply digitsAux_spec; [|lia].
  split; [exact Hz|]. rewrite Nat2Z.inj_succ, Z2Nat.id by apply Z.log2_nonneg.
  destruct (Z.eq_dec z 0) as [->|Hne]; [cbn; lia|].
  apply Z.log2_spec. lia.
Qed.

Lemma padStart_length n c (s : list N) :
  strlen (padStart n c s) = Nat.max n (strlen s).
Proof. unfold padStart, strlen. rewrite length_app, repeat_length. lia. Qed.

Lemma padStart_unchanged n c (s : list N) :
  (n <= strlen s)%nat -> padStart n c s = s.
Proof.
  intros H. unfold padStart. replace (n - strlen s)%nat with O by lia.
  reflexivity.
Qed.

Lemma padStart_digits n d :
  allDigits d -> d <> [] ->
  allDigits (padStart n 48%N d) /\ padStart n 48%N d <> [] /\
  digitsValue (padStart n 48%N d) = digitsValue d.
Proof.
  intros Hd Hne. unfold padStart. repeat split.
  - apply Forall_app. split; [|exact Hd].
    apply Forall_forall. intros c Hc. apply list_elem_of_In, repeat_spec in Hc.
    subst c. reflexivity.
  - intros Habs. apply app_eq_nil in Habs as [_ Habs]. congruence.
  - apply digitsValue_zeros.
Qed.

(** ** Doubles above 2^53 *)

(** The shape of [roundF64] above 2^53: significand [q], exponent [e]
    and remainder [r]. *)
Definition roundUp (q r half : Z) : Z :=
  if r <? half then q
  else if half <? r then q + 1
  else if Z.even q then q else q + 1.

Lemma roundF64_big z :
  2 ^ 53 <= z ->
  exists e q r,
    1 <= e /\ z = q * 2 ^ e + r /\ 0 <= r < 2 ^ e /\
    2 ^ 52 <= q < 2 ^ 53 /\
    roundF64 z =
      if roundUp q r (2 ^ (e - 1)) * 2 ^ e <? 2 ^ 1024
      then Fin (roundUp q r (2 ^ (e - 1)) * 2 ^ e) else Infinity.
Proof.
  intros Hz.
  assert (0 < z) as Hpos by (change (2 ^ 53) with 9007199254740992 in Hz; lia).
  assert (53 <= Z.log2 z) as Hlog.
  { change 53 with (Z.log2 (2 ^ 53)). now apply Z.log2_le_mono. }
  destruct (Z.log2_spec z Hpos) as [Hlo Hhi].
  set (e := Z.log2 z - 52) in *.
  assert (1 <= e) as He by (unfold e; lia).
  assert (0 < 2 ^ e) as Hp by (apply Z.pow_pos_nonneg; lia).
  exists e, (z / 2 ^ e), (z mod 2 ^ e).
  assert (Z.log2 z = 52 + e) as Hl by (unfold e; lia).
  rewrite Hl in Hlo. replace (Z.succ (Z.log2 z)) with (53 + e) in Hhi by lia.
  rewrite Z.pow_add_r in Hlo, Hhi by lia.
  split; [exact He|]. split; [rewrite Z.mul_comm; apply Z.div_mod; lia|].
  split; [apply Z.mod_pos_bound; exact Hp|].
  split.
  { split; [apply Z.div_le_lower_bound; lia|apply Z.div_lt_upper_bound; lia]. }
  unfold roundF64. fold e.
  destruct (z <? 2 ^ 53) eqn:E; [apply Z.ltb_lt in E; lia|].
  rewrite Z.shiftr_div_pow2, !Z.shiftl_mul_pow2 by lia.
  rewrite Z.mul_1_l.
  replace (z - z / 2 ^ e * 2 ^ e) with (z mod 2 ^ e)
    by (pose proof (Z.div_mod z (2 ^ e) ltac:(lia)); lia).
  reflexivity.
Qed.

Lemma roundUp_cases q r h : roundUp q r h = q \/ roundUp q r h = q + 1.
Proof.
  unfold roundUp. destruct (r <? h); [now left|].
  destruct (h <? r); [now right|]. destruct (Z.even q); [now left|now right].
Qed.

(** A double of at least 2^53: a 53-bit significand times a power of two. *)
Definition dbl (v : Z) : Prop :=
  exists m e, 1 <= e /\ 2 ^ 52 <= m < 2 ^ 53 /\ v = m * 2 ^ e /\ v < 2 ^ 1024.

Lemma pow2_split e : 1 <= e -> 2 ^ e = 2 * 2 ^ (e - 1) /\ 1 <= 2 ^ (e - 1).
Proof.
  intros He. split.
  - rewrite <- Z.pow_succ_r by lia. f_equal. lia.
  - pose proof (Z.pow_pos_nonneg 2 (e - 1) ltac:(lia) ltac:(lia)). lia.
Qed.

Lemma pow2_split4 e : 2 <= e -> 2 ^ e = 4 * 2 ^ (e - 2) /\ 1 <= 2 ^ (e - 2).
Proof.
  intros He. split.
  - change 4 with (2 ^ 2). rewrite <- Z.pow_add_r by lia. f_equal. lia.
  - pose proof (Z.pow_pos_nonneg 2 (e - 2) ltac:(lia) ltac:(lia)). lia.
Qed.

Lemma dbl_ge v : dbl v -> 2 ^ 53 <= v.
Proof.
  intros (m & e & He & Hm & -> & _). destruct (pow2_split e He) as [-> H1].
  change (2 ^ 53) with (2 ^ 52 * 2). nia.
Qed.

Lemma dbl_even v : dbl v -> v mod 2 = 0.
Proof.
  intros (m & e & He & Hm & -> & _). destruct (pow2_split e He) as [-> H1].
  replace (m * (2 * 2 ^ (e - 1))) with (m * 2 ^ (e - 1) * 2) by lia.
  apply Z.mod_mul. lia.
Qed.

Lemma roundF64_dbl z v : 2 ^ 53 <= z -> roundF64 z = Fin v -> dbl v.
Proof.
  intros Hz Hv.
  destruct (roundF64_big z Hz) as (e & q & r & He & _ & _ & Hq & Hr).
  rewrite Hr in Hv. clear Hr.
  destruct (roundUp q r (2 ^ (e - 1)) * 2 ^ e <? 2 ^ 1024) eqn:E; [|discriminate].
  apply Z.ltb_lt in E. injection Hv as <-.
  destruct (roundUp_cases q r (2 ^ (e - 1))) as [Hup|Hup]; rewrite Hup in *.
  - exists q, e. repeat split; try lia.
  - destruct (Z.eq_dec (q + 1) (2 ^ 53)) as [Heq|Hne].
    + exists (2 ^ 52), (e + 1). rewrite Heq in *.
      repeat split; try lia.
      rewrite Z.pow_add_r by lia. change (2 ^ 53) with (2 ^ 52 * 2 ^ 1). lia.
    + exists (q + 1), e. repeat split; try lia.
Qed.


Lemma pow2_54_lt_1024 : 2 ^ 54 < 2 ^ 1024.
Proof. apply Z.pow_lt_mono_r; lia. Qed.

(** [i++] on a double of at least 2^53 leaves it where it is, except on
    the odd significands below 2^54, where it moves two up. *)
Lemma succ_dbl v :
  dbl v ->
  roundF64 (v + 1) = Fin v \/
  (v mod 4 = 2 /\ v < 2 ^ 54 /\ roundF64 (v + 1) = Fin (v + 2)).
Proof.
  intros Hd. pose proof (dbl_ge v Hd) as Hge.
  destruct Hd as (m & e & He & Hm & Hv & Hfin).
  destruct (roundF64_big (v + 1) ltac:(lia))
    as (e' & q & r & He' & Hdiv & Hr & Hq & Hround).
  destruct (pow2_split e He) as [Hp Hp1].
  apply Z.ltb_lt in Hfin.
  assert (e' = e) as ->.
  { clear Hround Hfin.
    destruct (Z.lt_trichotomy e' e) as [Hlt|[Heq|Hgt]]; [|exact Heq|].
    - pose proof (Z.pow_le_mono_r 2 (e' + 1) e ltac:(lia) ltac:(lia)) as Hmono.
      rewrite Z.pow_add_r in Hmono by lia. change (2 ^ 1) with 2 in Hmono.
      pose proof (Z.pow_pos_nonneg 2 e' ltac:(lia) ltac:(lia)).
      change (2 ^ 53) with (2 ^ 52 * 2) in *. set (M := 2 ^ 52) in *.
      assert (0 < M) by (subst M; lia). clearbody M. nia.
    - pose proof (Z.pow_le_mono_r 2 (e + 1) e' ltac:(lia) ltac:(lia)) as Hmono.
      rewrite Z.pow_add_r in Hmono by lia. change (2 ^ 1) with 2 in Hmono.
      change (2 ^ 53) with (2 ^ 52 * 2) in *. set (M := 2 ^ 52) in *.
      assert (0 < M) by (subst M; lia). clearbody M. nia. }
  assert (q = m /\ r = 1) as [-> ->].
  { clear Hround Hfin Hm Hq Hge. set (P := 2 ^ e) in *. clearbody P.
    assert (q = m) by nia. subst q. lia. }
  rewrite Hround. clear Hround. unfold roundUp.
  destruct (Z.eq_dec e 1) as [->|Hne].
  - change (2 ^ (1 - 1)) with 1. change (2 ^ 1) with 2 in *.
    change (1 <? 1) with false. cbv iota.
    destruct (Z.even m) eqn:Ev.
    + left. subst v. rewrite Hfin. reflexivity.
    + right. assert (Z.odd m = true) as Ho by (rewrite <- Z.negb_even, Ev; reflexivity).
      apply Z.odd_spec in Ho as [k Hk].
      assert (v + 2 <= 2 ^ 54) as Hlt54 by (change (2 ^ 54) with (2 ^ 53 * 2); lia).
      split; [|split].
      * subst v m. replace ((2 * k + 1) * 2) with (2 + k * 4) by lia.
        rewrite Z.mod_add by lia. reflexivity.
      * lia.
      * replace ((m + 1) * 2) with (v + 2) by lia.
        assert ((v + 2 <? 2 ^ 1024) = true) as ->; [|reflexivity].
        apply Z.ltb_lt. pose proof pow2_54_lt_1024. lia.
  - left. destruct (pow2_split (e - 1) ltac:(lia)) as [Hh Hh1].
    assert ((1 <? 2 ^ (e - 1)) = true) as -> by (apply Z.ltb_lt; lia).
    subst v. rewrite Hfin. reflexivity.
Qed.

(** A double that only its own value rounds to. *)
Definition exactOnly (x : Z) : Prop :=
  forall v, roundF64 v = Fin x -> v = x.

Lemma exactOnly_small x : x < 2 ^ 53 -> exactOnly x.
Proof.
  intros Hx v Hv. destruct (Z.lt_ge_cases v (2 ^ 53)) as [Hlt|Hge].
  - rewrite roundF64_small in Hv by exact Hlt. congruence.
  - apply roundF64_dbl, dbl_ge in Hv; [lia|exact Hge].
Qed.

Lemma exactOnly_odd_significand x :
  2 ^ 53 <= x -> x mod 4 = 2 -> exactOnly x.
Proof.
  intros Hx Hmod v Hv. destruct (Z.lt_ge_cases v (2 ^ 53)) as [Hlt|Hge].
  - rewrite roundF64_small in Hv by exact Hlt. congruence.
  - destruct (roundF64_big v Hge) as (e & q & r & He & Hdiv & Hr & Hq & Hround).
    rewrite Hround in Hv. clear Hround.
    destruct (roundUp q r (2 ^ (e - 1)) * 2 ^ e <? 2 ^ 1024); [|discriminate].
    injection Hv as Hv.
    destruct (Z.eq_dec e 1) as [->|Hne].
    + change (2 ^ (1 - 1)) with 1 in Hv. change (2 ^ 1) with 2 in *.
      unfold roundUp in Hv.
      assert (r = 0 \/ r = 1) as [-> | ->] by lia.
      * change (0 <? 1) with true in Hv. cbv iota in Hv. lia.
      * change (1 <? 1) with false in Hv. cbv iota in Hv.
        destruct (Z.even q) eqn:Ev.
        -- apply Z.even_spec in Ev as [k ->]. subst x.
           replace (2 * k * 2) with (0 + k * 4) in Hmod by lia.
           rewrite Z.mod_add in Hmod by lia. discriminate.
        -- assert (Z.odd q = true) as Ho
             by (rewrite <- Z.negb_even, Ev; reflexivity).
           apply Z.odd_spec in Ho as [k ->]. subst x.
           replace ((2 * k + 1 + 1) * 2) with (0 + (k + 1) * 4) in Hmod by lia.
           rewrite Z.mod_add in Hmod by lia. discriminate.
    + destruct (pow2_split4 e ltac:(lia)) as [Hp _]. rewrite Hp in Hv. subst x.
      replace (roundUp q r (2 ^ (e - 1)) * (4 * 2 ^ (e - 2)))
        with (0 + roundUp q r (2 ^ (e - 1)) * 2 ^ (e - 2) * 4) in Hmod by lia.
      rewrite Z.mod_add in Hmod by lia. discriminate.
Qed.

Lemma number_eqb_Fin x y : number_eqb x (Fin y) = true -> x = Fin y.
Proof.
  destruct x as [a| |]; cbn; try discriminate.
  intros H. apply Z.eqb_eq in H. now subst.
Qed.

Lemma candidate_rounds x p v : candidate x p = Some v -> roundF64 v = Fin x.
Proof.
  unfold candidate.
  destruct (number_eqb (roundF64 (x / 10 ^ Z.of_nat p * 10 ^ Z.of_nat p)) (Fin x))
    eqn:Elo;
  destruct (number_eqb
              (roundF64 (x / 10 ^ Z.of_nat p * 10 ^ Z.of_nat p + 10 ^ Z.of_nat p))
              (Fin x)) eqn:Ehi;
  try discriminate;
  repeat match goal with
         | |- context [if ?b then _ else _] => destruct b
         end;
  intros [= <-]; now apply number_eqb_Fin.
Qed.

Lemma shortestFrom_exact x p : exactOnly x -> shortestFrom x p = x.
Proof.
  intros Hx. induction p as [|p IH]; cbn [shortestFrom];
    destruct (candidate x _) as [v|] eqn:E;
    try (apply Hx; eapply candidate_rounds; exact E); [reflexivity|exact IH].
Qed.

(** [String(x)] is the plain decimal text on the doubles that only their
    own value rounds to, below 10^21. *)
Lemma numberToString_exact x :
  exactOnly x -> x < 10 ^ 21 -> numberToString (Fin x) = decimal x.
Proof.
  intros Hx Hlt. unfold numberToString, shortestValue.
  rewrite shortestFrom_exact by exact Hx.
  apply Z.ltb_lt in Hlt. now rewrite Hlt.
Qed.

Lemma numberToString_small x :
  x < 2 ^ 53 -> numberToString (Fin x) = decimal x.
Proof.
  intros Hx. apply numberToString_exact; [now apply exactOnly_small|].
  change (2 ^ 53) with 9007199254740992 in Hx.
  change (10 ^ 21) with 1000000000000000000000. lia.
Qed.

(** ** The loop of expandRange *)

(** The serial pushed for the loop variable [i]. *)
Definition element (padLength : nat) (pre suf : list N) (i : number) : list N :=
  pre ++ padStart padLength 48%N (numberToString i) ++ suf.

(** The serials for [n] successive values from [a]. *)
Definition elements (padLength : nat) (pre suf : list N) (a : Z) (n : nat)
    : list (list N) :=
  List.map (fun k => element padLength pre suf (Fin (a + Z.of_nat k))) (seq 0 n).

Lemma elements_succ pl pre suf a n :
  elements pl pre suf a (S n) =
  element pl pre suf (Fin a) :: elements pl pre suf (a + 1) n.
Proof.
  unfold elements. cbn [seq List.map]. rewrite Z.add_0_r. f_equal.
  rewrite <- seq_shift, List.map_map. apply List.map_ext. intros k.
  do 2 f_equal. lia.
Qed.

Lemma roundF64_not_NaN z : roundF64 z <> NaN.
Proof.
  unfold roundF64. destruct (z <? 2 ^ 53); [discriminate|].
  match goal with |- context [if ?b then _ else _] => destruct b end;
    discriminate.
Qed.

Lemma arrayLimit_nonneg capacity : 0 <= arrayLimit capacity.
Proof. unfold arrayLimit, MAX_ARRAY_LENGTH. lia. Qed.

Lemma arrayLimit_max capacity : arrayLimit capacity <= 2 ^ 32 - 1.
Proof. unfold arrayLimit, MAX_ARRAY_LENGTH. lia. Qed.

Lemma strlen_snoc {A} (l : list A) x :
  Z.of_nat (strlen (l ++ [x])) = Z.of_nat (strlen l) + 1.
Proof. unfold strlen. rewrite length_app. cbn [length]. lia. Qed.

(** A loop whose test never fails pushes until the array is full and ends
    by the RangeError, after one test per element the array could still
    take and one more. *)
Lemma forLoop_endless (P : number -> Prop) capacity endNum pl pre suf :
  (forall i, P i -> num_le i endNum = true /\ P (num_succ i)) ->
  forall fuel i acc, P i ->
  Z.of_nat (strlen acc) <= arrayLimit capacity ->
  forLoop capacity fuel i endNum pl pre suf acc =
  if arrayLimit capacity - Z.of_nat (strlen acc) <? Z.of_nat fuel
  then Some RangeError else None.
Proof.
  intros HP. induction fuel as [|fuel IH]; intros i acc Hi Hacc; cbn [forLoop].
  - destruct (_ <? _) eqn:E; [apply Z.ltb_lt in E; lia|reflexivity].
  - destruct (HP i Hi) as [-> Hs]. unfold push.
    destruct (Z.of_nat (strlen acc) <? arrayLimit capacity) eqn:E.
    + apply Z.ltb_lt in E. rewrite IH; [|exact Hs|rewrite strlen_snoc; lia].
      rewrite strlen_snoc.
      destruct (_ <? Z.of_nat fuel) eqn:E1; destruct (_ <? Z.of_nat (S fuel)) eqn:E2;
        try reflexivity;
        [apply Z.ltb_lt in E1; apply Z.ltb_ge in E2
        |apply Z.ltb_ge in E1; apply Z.ltb_lt in E2]; lia.
    + apply Z.ltb_ge in E.
      destruct (_ <? Z.of_nat (S fuel)) eqn:E2; [reflexivity|].
      apply Z.ltb_ge in E2. lia.
Qed.

(** Such a loop never ends normally, whatever it starts with. *)
Lemma forLoop_endless_no_value (P : number -> Prop) capacity endNum pl pre suf :
  (forall i, P i -> num_le i endNum = true /\ P (num_succ i)) ->
  forall fuel i acc r, P i ->
  forLoop capacity fuel i endNum pl pre suf acc <> Some (Normal r).
Proof.
  intros HP. induction fuel as [|fuel IH]; intros i acc r Hi; cbn [forLoop];
    [discriminate|].
  destruct (HP i Hi) as [-> Hs].
  destruct (push capacity acc _); [apply IH; exact Hs|discriminate].
Qed.

(** A loop variable that [i++] leaves in place, below the end. *)
Lemma forLoop_stuck capacity fuel i endNum pl pre suf acc :
  num_succ i = i -> num_le i endNum = true ->
  Z.of_nat (strlen acc) <= arrayLimit capacity ->
  forLoop capacity fuel i endNum pl pre suf acc =
  if arrayLimit capacity - Z.of_nat (strlen acc) <? Z.of_nat fuel
  then Some RangeError else None.
Proof.
  intros Hs Hle. apply (forLoop_endless (fun j => j = i)); [|reflexivity].
  intros j ->. now rewrite Hs.
Qed.

Lemma forLoop_stuck_no_value capacity fuel i endNum pl pre suf acc r :
  num_succ i = i -> num_le i endNum = true ->
  forLoop capacity fuel i endNum pl pre suf acc <> Some (Normal r).
Proof.
  intros Hs Hle. apply (forLoop_endless_no_value (fun j => j = i)); [|reflexivity].
  intros j ->. now rewrite Hs.
Qed.

(** Every test passes when the end is [Infinity]. *)
Lemma forLoop_Infinity_invariant i :
  i <> NaN -> num_le i Infinity = true /\ num_succ i <> NaN.
Proof.
  intros Hi. destruct i as [a| |]; [| |congruence]; cbn [num_le num_succ];
    (split; [reflexivity|]); [apply roundF64_not_NaN|discriminate].
Qed.

Lemma forLoop_Infinity capacity fuel i pl pre suf acc :
  i <> NaN -> Z.of_nat (strlen acc) <= arrayLimit capacity ->
  forLoop capacity fuel i Infinity pl pre suf acc =
  if arrayLimit capacity - Z.of_nat (strlen acc) <? Z.of_nat fuel
  then Some RangeError else None.
Proof.
  apply (forLoop_endless (fun j => j <> NaN)). exact forLoop_Infinity_invariant.
Qed.

Lemma forLoop_Infinity_no_value capacity fuel i pl pre suf acc r :
  i <> NaN -> forLoop capacity fuel i Infinity pl pre suf acc <> Some (Normal r).
Proof.
  apply (forLoop_endless_no_value (fun j => j <> NaN)).
  exact forLoop_Infinity_invariant.
Qed.

Lemma succ_2_53 : roundF64 (2 ^ 53 + 1) = Fin (2 ^ 53).
Proof. vm_compute. reflexivity. Qed.

Lemma round_2_53 : roundF64 (2 ^ 53) = Fin (2 ^ 53).
Proof. vm_compute. reflexivity. Qed.

Lemma roundF64_le z : z <= 2 ^ 53 -> roundF64 z = Fin z.
Proof.
  intros H. destruct (Z.eq_dec z (2 ^ 53)) as [->|Hne]; [apply round_2_53|].
  apply roundF64_small. lia.
Qed.

(** Below 2^53 the loop counts exactly.  When the array can take the
    serials of [a] to [b] it returns them once it has fuel for its
    [b - a + 2] tests; when it cannot, the loop ends by the RangeError at
    the first serial that does not fit. *)
Lemma forLoop_counts capacity fuel a b pl pre suf acc :
  b < 2 ^ 53 -> a <= b + 1 ->
  Z.of_nat (strlen acc) <= arrayLimit capacity ->
  forLoop capacity fuel (Fin a) (Fin b) pl pre suf acc =
  if Z.of_nat (strlen acc) + (b - a + 1) <=? arrayLimit capacity
  then if b - a + 1 <? Z.of_nat fuel
       then Some (Normal (acc ++ elements pl pre suf a (Z.to_nat (b - a + 1))))
       else None
  else if arrayLimit capacity - Z.of_nat (strlen acc) <? Z.of_nat fuel
       then Some RangeError
       else None.
Proof.
  intros Hb. revert a acc.
  induction fuel as [|fuel IH]; intros a acc Ha Hacc; cbn [forLoop].
  - destruct (_ <=? _); destruct (_ <? Z.of_nat 0) eqn:E; try reflexivity;
      apply Z.ltb_lt in E; lia.
  - cbn [num_le num_succ]. destruct (a <=? b) eqn:E.
    + apply Z.leb_le in E. rewrite roundF64_le by lia. unfold push.
      destruct (Z.of_nat (strlen acc) <? arrayLimit capacity) eqn:Efit.
      * apply Z.ltb_lt in Efit. rewrite IH by (rewrite ?strlen_snoc; lia).
        rewrite strlen_snoc.
        replace (Z.of_nat (strlen acc) + 1 + (b - (a + 1) + 1))
          with (Z.of_nat (strlen acc) + (b - a + 1)) by lia.
        replace (b - (a + 1) + 1) with (b - a) by lia.
        replace (Z.to_nat (b - a + 1)) with (S (Z.to_nat (b - a))) by lia.
        rewrite elements_succ, <- app_assoc. cbn [app].
        fold (element pl pre suf (Fin a)).
        destruct (_ <=? arrayLimit capacity).
        -- destruct (b - a <? Z.of_nat fuel) eqn:E1;
             destruct (b - a + 1 <? Z.of_nat (S fuel)) eqn:E2; try reflexivity;
             [apply Z.ltb_lt in E1; apply Z.ltb_ge in E2
             |apply Z.ltb_ge in E1; apply Z.ltb_lt in E2]; lia.
        -- destruct (_ <? Z.of_nat fuel) eqn:E1;
             destruct (_ <? Z.of_nat (S fuel)) eqn:E2; try reflexivity;
             [apply Z.ltb_lt in E1; apply Z.ltb_ge in E2
             |apply Z.ltb_ge in E1; apply Z.ltb_lt in E2]; lia.
      * apply Z.ltb_ge in Efit.
        destruct (_ <=? arrayLimit capacity) eqn:E1; [apply Z.leb_le in E1; lia|].
        destruct (_ <? Z.of_nat (S fuel)) eqn:E2; [reflexivity|].
        apply Z.ltb_ge in E2. lia.
    + apply Z.leb_gt in E. replace (b - a + 1) with 0 by lia.
      cbn [Z.to_nat elements]. unfold elements. cbn [seq List.map].
      rewrite app_nil_r, Z.add_0_r.
      destruct (_ <=? arrayLimit capacity) eqn:E1; [|apply Z.leb_gt in E1; lia].
      destruct (0 <? Z.of_nat (S fuel)) eqn:E2; [reflexivity|].
      apply Z.ltb_ge in E2. lia.
Qed.

(** The same for the loop of [expandRange], which starts with no serial. *)
Lemma forLoop_exact capacity fuel a b pl pre suf :
  b < 2 ^ 53 -> a <= b + 1 ->
  forLoop capacity fuel (Fin a) (Fin b) pl pre suf [] =
  if b - a + 1 <=? arrayLimit capacity
  then if b - a + 1 <? Z.of_nat fuel
       then Some (Normal (elements pl pre suf a (Z.to_nat (b - a + 1))))
       else None
  else if arrayLimit capacity <? Z.of_nat fuel
       then Some RangeError
       else None.
Proof.
  intros Hb Ha. rewrite forLoop_counts; [|exact Hb|exact Ha|apply arrayLimit_nonneg].
  cbn [strlen length Z.of_nat app]. rewrite Z.add_0_l, Z.sub_0_r. reflexivity.
Qed.

(** A loop that starts below 2^53 and has to pass it stops counting at
    2^53: its test never fails. *)
Lemma forLoop_across_invariant b i :
  2 ^ 53 <= b ->
  (exists a, i = Fin a /\ a <= 2 ^ 53) ->
  num_le i (Fin b) = true /\ exists a, num_succ i = Fin a /\ a <= 2 ^ 53.
Proof.
  intros Hb (a & -> & Ha). cbn [num_le num_succ]. split; [apply Z.leb_le; lia|].
  destruct (Z.eq_dec a (2 ^ 53)) as [->|Hne].
  - exists (2 ^ 53). split; [apply succ_2_53|lia].
  - exists (a + 1). split; [apply roundF64_le|]; lia.
Qed.

Lemma forLoop_across capacity fuel a b pl pre suf acc :
  a < 2 ^ 53 -> 2 ^ 53 <= b ->
  Z.of_nat (strlen acc) <= arrayLimit capacity ->
  forLoop capacity fuel (Fin a) (Fin b) pl pre suf acc =
  if arrayLimit capacity - Z.of_nat (strlen acc) <? Z.of_nat fuel
  then Some RangeError else None.
Proof.
  intros Ha Hb.
  apply (forLoop_endless (fun i => exists a, i = Fin a /\ a <= 2 ^ 53)).
  - intros i. now apply forLoop_across_invariant.
  - exists a. split; [reflexivity|lia].
Qed.

Lemma forLoop_across_no_value capacity fuel a b pl pre suf acc r :
  a < 2 ^ 53 -> 2 ^ 53 <= b ->
  forLoop capacity fuel (Fin a) (Fin b) pl pre suf acc <> Some (Normal r).
Proof.
  intros Ha Hb.
  apply (forLoop_endless_no_value (fun i => exists a, i = Fin a /\ a <= 2 ^ 53)).
  - intros i. now apply forLoop_across_invariant.
  - exists a. split; [reflexivity|lia].
Qed.

(** From 2^53 on the loop ends normally only for a single value, one that
    no other number rounds to, and with room for it in the array. *)
Lemma forLoop_big capacity fuel a b pl pre suf acc r :
  dbl a -> dbl b -> a <= b ->
  forLoop capacity fuel (Fin a) (Fin b) pl pre suf acc = Some (Normal r) ->
  a = b /\ a mod 4 = 2 /\ a < 2 ^ 54 /\
  r = acc ++ [element pl pre suf (Fin a)] /\
  Z.of_nat (strlen acc) < arrayLimit capacity.
Proof.
  intros Hda Hdb Hab H.
  destruct (succ_dbl a Hda) as [Hs|(Hmod & Hlt & Hs)].
  - exfalso. revert H. apply forLoop_stuck_no_value; [exact Hs|].
    cbn [num_le]. apply Z.leb_le. exact Hab.
  - destruct fuel as [|fuel]; [discriminate|]. cbn [forLoop num_le num_succ] in H.
    assert ((a <=? b) = true) as Hle by (apply Z.leb_le; lia).
    rewrite Hle, Hs in H. fold (element pl pre suf (Fin a)) in H. unfold push in H.
    destruct (Z.of_nat (strlen acc) <? arrayLimit capacity) eqn:Efit;
      [|discriminate].
    apply Z.ltb_lt in Efit.
    destruct (Z.le_gt_cases (a + 2) b) as [Hle2|Hgt2].
    + assert (dbl (a + 2)) as Hd2.
      { apply (roundF64_dbl (a + 1)); [pose proof (dbl_ge a Hda); lia|exact Hs]. }
      destruct (succ_dbl (a + 2) Hd2) as [Hs2|(Hmod2 & _)].
      * exfalso. revert H. apply forLoop_stuck_no_value; [exact Hs2|].
        cbn [num_le]. apply Z.leb_le. exact Hle2.
      * exfalso. replace (a + 2) with (a + 2 mod 4) in Hmod2 at 1 by reflexivity.
        rewrite Z.add_mod, Hmod in Hmod2 by lia. discriminate.
    + destruct fuel as [|fuel]; [discriminate|]. cbn [forLoop num_le] in H.
      assert ((a + 2 <=? b) = false) as Hgt by (apply Z.leb_gt; lia).
      rewrite Hgt in H. injection H as <-.
      pose proof (dbl_even a Hda). pose proof (dbl_even b Hdb).
      repeat split; try assumption.
      assert (b = a \/ b = a + 1) as [->| ->] by lia; [reflexivity|].
      exfalso. rewrite Z.add_mod, H in H0 by lia. discriminate.
Qed.

(** ** What expandRange returns *)

Lemma str_neq_false a b : str_neq a b = false <-> a = b.
Proof.
  unfold str_neq. rewrite negb_false_iff, bool_decide_eq_true. reflexivity.
Qed.

(** The ranges on which the loop counts without rounding: the end below
    2^53, or a single value from 2^53 to 2^54 with an odd significand. *)
Definition exactRange (a b : Z) : Prop :=
  b < 2 ^ 53 \/ (a = b /\ 2 ^ 53 <= a < 2 ^ 54 /\ a mod 4 = 2).

(** The serial for the value [v]: prefix, padded decimal text, suffix. *)
Definition serialAt (padLength : nat) (pre suf : list N) (v : Z) : list N :=
  pre ++ padStart padLength 48%N (decimal v) ++ suf.

Lemma exactRange_toString a b k :
  exactRange a b -> a <= k <= b -> numberToString (Fin k) = decimal k.
Proof.
  intros [Hb|(-> & Hr & Hmod)] Hk.
  - apply numberToString_small. lia.
  - assert (k = b) as -> by lia. apply numberToString_exact.
    + apply exactOnly_odd_significand; [lia|exact Hmod].
    + change (2 ^ 54) with 18014398509481984 in Hr.
      change (10 ^ 21) with 1000000000000000000000. lia.
Qed.

Lemma elements_exact pl pre suf a b :
  exactRange a b ->
  elements pl pre suf a (Z.to_nat (b - a + 1)) =
  List.map (fun k => serialAt pl pre suf (a + Z.of_nat k))
           (seq 0 (Z.to_nat (b - a + 1))).
Proof.
  intros Hx. unfold elements. apply List.map_ext_in. intros k Hk.
  apply in_seq in Hk. unfold element, serialAt.
  rewrite (exactRange_toString a b) by (exact Hx || lia). reflexivity.
Qed.

(** The parts, values and range behind a returned expansion; the array
    had room for all of it. *)
Lemma expandRange_Result_full capacity fuel start end_ r :
  expandRange capacity fuel start end_ = Some (Normal (Result r)) ->
  exists sp ep,
    parseSerial start = Some sp /\ parseSerial end_ = Some ep /\
    prefix sp = prefix ep /\ suffix sp = suffix ep /\
    parseInt10 (numStr sp) = Fin (digitsValue (numStr sp)) /\
    parseInt10 (numStr ep) = Fin (digitsValue (numStr ep)) /\
    digitsValue (numStr sp) <= digitsValue (numStr ep) /\
    exactRange (digitsValue (numStr sp)) (digitsValue (numStr ep)) /\
    r = List.map
          (fun k => serialAt (Nat.max (strlen (numStr sp)) (strlen (numStr ep)))
                             (prefix sp) (suffix sp)
                             (digitsValue (numStr sp) + Z.of_nat k))
          (seq 0 (Z.to_nat (digitsValue (numStr ep) - digitsValue (numStr sp) + 1))) /\
    digitsValue (numStr ep) - digitsValue (numStr sp) + 1 <= arrayLimit capacity.
Proof.
  unfold expandRange.
  destruct (parseSerial start) as [sp|] eqn:Es; [|discriminate].
  destruct (parseSerial end_) as [ep|] eqn:Ee; [|discriminate].
  destruct (str_neq (prefix sp) (prefix ep)) eqn:Ep; [discriminate|].
  destruct (str_neq (suffix sp) (suffix ep)) eqn:Ex; [discriminate|].
  cbn [orb]. apply str_neq_false in Ep, Ex.
  destruct (parseSerial_sound _ _ Es) as (_ & Hne1 & Hd1 & _).
  destruct (parseSerial_sound _ _ Ee) as (_ & Hne2 & Hd2 & _).
  rewrite (parseInt10_digits _ Hne1 Hd1), (parseInt10_digits _ Hne2 Hd2).
  pose proof (digitsValue_nonneg _ Hd1) as Ha0.
  pose proof (digitsValue_nonneg _ Hd2) as Hb0.
  set (a := digitsValue (numStr sp)) in *.
  set (b := digitsValue (numStr ep)) in *.
  unfold Math_max. set (pl := Nat.max _ _).
  destruct (num_gt (roundF64 a) (roundF64 b)) eqn:Egt; [discriminate|].
  destruct (forLoop capacity fuel (roundF64 a) (roundF64 b) pl
                    (prefix sp) (suffix sp) [])
    as [[res|]|] eqn:El; [|discriminate|discriminate].
  intros [= <-]. exists sp, ep.
  assert (roundF64 a = Fin a /\ roundF64 b = Fin b /\ a <= b /\ exactRange a b /\
          res = elements pl (prefix sp) (suffix sp) a (Z.to_nat (b - a + 1)) /\
          b - a + 1 <= arrayLimit capacity)
    as (Ra & Rb & Hab & Hx & Hres & Hfit).
  { destruct (roundF64 b) as [b'| |] eqn:Rb.
    - destruct (roundF64 a) as [a'| |] eqn:Ra; [|discriminate|].
      + cbn [num_gt] in Egt. apply Z.ltb_ge in Egt.
        destruct (Z.lt_ge_cases b (2 ^ 53)) as [Hb|Hb].
        * rewrite roundF64_small in Rb by exact Hb. injection Rb as <-.
          destruct (Z.lt_ge_cases a (2 ^ 53)) as [Ha|Ha].
          -- rewrite roundF64_small in Ra by exact Ha. injection Ra as <-.
             rewrite forLoop_exact in El by lia.
             destruct (b - a + 1 <=? arrayLimit capacity) eqn:Efit;
               [|destruct (_ <? _); discriminate].
             apply Z.leb_le in Efit.
             destruct (b - a + 1 <? Z.of_nat fuel); [|discriminate].
             injection El as <-. repeat split; try lia. now left.
          -- apply roundF64_dbl, dbl_ge in Ra; [lia|exact Ha].
        * pose proof (roundF64_dbl _ _ Hb Rb) as Hdb.
          destruct (Z.lt_ge_cases a (2 ^ 53)) as [Ha|Ha].
          -- rewrite roundF64_small in Ra by exact Ha. injection Ra as <-.
             pose proof (dbl_ge _ Hdb).
             exfalso. revert El. apply forLoop_across_no_value; lia.
          -- pose proof (roundF64_dbl _ _ Ha Ra) as Hda.
             destruct (forLoop_big _ _ _ _ _ _ _ _ _ Hda Hdb Egt El)
               as (<- & Hmod & Hlt & -> & Hroom).
             cbn [strlen length Z.of_nat] in Hroom.
             pose proof (dbl_ge _ Hda) as Hge.
             pose proof (exactOnly_odd_significand a' Hge Hmod) as Hex.
             apply Hex in Ra, Rb. rewrite <- Ra in *. rewrite Rb.
             repeat split; try lia.
             ++ right. repeat split; try lia.
             ++ replace (Z.to_nat (a - a + 1)) with 1%nat by lia.
                unfold elements. cbn [seq List.map app]. rewrite Z.add_0_r.
                reflexivity.
      + exfalso. exact (roundF64_not_NaN _ Ra).
    - exfalso. revert El. apply forLoop_Infinity_no_value, roundF64_not_NaN.
    - exfalso. exact (roundF64_not_NaN _ Rb). }
  rewrite (parseInt10_digits _ Hne1 Hd1), (parseInt10_digits _ Hne2 Hd2).
  fold a b. rewrite Ra, Rb. repeat split; try assumption.
  rewrite Hres. apply elements_exact. exact Hx.
Qed.

Lemma expandRange_Result capacity fuel start end_ r :
  expandRange capacity fuel start end_ = Some (Normal (Result r)) ->
  exists sp ep,
    parseSerial start = Some sp /\ parseSerial end_ = Some ep /\
    prefix sp = prefix ep /\ suffix sp = suffix ep /\
    parseInt10 (numStr sp) = Fin (digitsValue (numStr sp)) /\
    parseInt10 (numStr ep) = Fin (digitsValue (numStr ep)) /\
    digitsValue (numStr sp) <= digitsValue (numStr ep) /\
    exactRange (digitsValue (numStr sp)) (digitsValue (numStr ep)) /\
    r = List.map
          (fun k => serialAt (Nat.max (strlen (numStr sp)) (strlen (numStr ep)))
                             (prefix sp) (suffix sp)
                             (digitsValue (numStr sp) + Z.of_nat k))
          (seq 0 (Z.to_nat (digitsValue (numStr ep) - digitsValue (numStr sp) + 1))).
Proof.
  intros H. destruct (expandRange_Result_full _ _ _ _ _ H)
    as (sp & ep & H1 & H2 & H3 & H4 & H5 & H6 & H7 & H8 & H9 & _).
  exists sp, ep. repeat split; assumption.
Qed.

(** With matching text, ordered values and the end below 2^53 the
    expansion is decided by the room in the array: when the serials fit
    it returns them as soon as it has fuel for its tests, when they do
    not it ends by the RangeError of the first push that fails. *)
Lemma expandRange_below_2_53 capacity fuel start end_ sp ep :
  parseSerial start = Some sp -> parseSerial end_ = Some ep ->
  prefix sp = prefix ep -> suffix sp = suffix ep ->
  digitsValue (numStr sp) <= digitsValue (numStr ep) ->
  digitsValue (numStr ep) < 2 ^ 53 ->
  expandRange capacity fuel start end_ =
  if digitsValue (numStr ep) - digitsValue (numStr sp) + 1 <=? arrayLimit capacity
  then
    if digitsValue (numStr ep) - digitsValue (numStr sp) + 1 <? Z.of_nat fuel
    then Some (Normal (Result
      (List.map
         (fun k => serialAt (Nat.max (strlen (numStr sp)) (strlen (numStr ep)))
                            (prefix sp) (suffix sp)
                            (digitsValue (numStr sp) + Z.of_nat k))
         (seq 0 (Z.to_nat (digitsValue (numStr ep) - digitsValue (numStr sp) + 1))))))
    else None
  else if arrayLimit capacity <? Z.of_nat fuel then Some RangeError else None.
Proof.
  intros Es Ee Hp Hs Hab Hb. unfold expandRange. rewrite Es, Ee.
  apply str_neq_false in Hp, Hs. rewrite Hp, Hs. cbn [orb].
  destruct (parseSerial_sound _ _ Es) as (_ & Hne1 & Hd1 & _).
  destruct (parseSerial_sound _ _ Ee) as (_ & Hne2 & Hd2 & _).
  rewrite (parseInt10_digits _ Hne1 Hd1), (parseInt10_digits _ Hne2 Hd2).
  rewrite !roundF64_small by lia. cbn [num_gt].
  assert ((digitsValue (numStr ep) <? digitsValue (numStr sp)) = false) as ->
    by (apply Z.ltb_ge; exact Hab).
  rewrite forLoop_exact by lia. unfold Math_max.
  rewrite elements_exact by (left; exact Hb).
  destruct (_ <=? _); destruct (_ <? _); reflexivity.
Qed.

Lemma expandRange_returns capacity fuel start end_ sp ep :
  parseSerial start = Some sp -> parseSerial end_ = Some ep ->
  prefix sp = prefix ep -> suffix sp = suffix ep ->
  digitsValue (numStr sp) <= digitsValue (numStr ep) ->
  digitsValue (numStr ep) < 2 ^ 53 ->
  digitsValue (numStr ep) - digitsValue (numStr sp) + 1 <= arrayLimit capacity ->
  digitsValue (numStr ep) - digitsValue (numStr sp) + 1 < Z.of_nat fuel ->
  expandRange capacity fuel start end_ =
  Some (Normal (Result
    (List.map
       (fun k => serialAt (Nat.max (strlen (numStr sp)) (strlen (numStr ep)))
                          (prefix sp) (suffix sp)
                          (digitsValue (numStr sp) + Z.of_nat k))
       (seq 0 (Z.to_nat (digitsValue (numStr ep) - digitsValue (numStr sp) + 1)))))).
Proof.
  intros Es Ee Hp Hs Hab Hb Hfit Hfuel.
  rewrite (expandRange_below_2_53 capacity fuel start end_ sp ep) by assumption.
  apply Z.leb_le in Hfit. apply Z.ltb_lt in Hfuel. now rewrite Hfit, Hfuel.
Qed.

Lemma expandRange_overflows capacity fuel start end_ sp ep :
  parseSerial start = Some sp -> parseSerial end_ = Some ep ->
  prefix sp = prefix ep -> suffix sp = suffix ep ->
  digitsValue (numStr sp) <= digitsValue (numStr ep) ->
  digitsValue (numStr ep) < 2 ^ 53 ->
  arrayLimit capacity < digitsValue (numStr ep) - digitsValue (numStr sp) + 1 ->
  expandRange capacity fuel start end_ =
  if arrayLimit capacity <? Z.of_nat fuel then Some RangeError else None.
Proof.
  intros Es Ee Hp Hs Hab Hb Hbig.
  rewrite (expandRange_below_2_53 capacity fuel start end_ sp ep) by assumption.
  apply Z.leb_gt in Hbig. now rewrite Hbig.
Qed.

(** An expansion on given inputs, by [expandRange_returns] at the parts
    [sp] and [ep] of the two serials. *)
Ltac expansion_of sp ep :=
  lazymatch goal with
  | |- expandRange ?capacity ?fuel ?start ?end_ = _ =>
      rewrite (expandRange_returns capacity fuel start end_ sp ep);
      first [reflexivity | assumption | apply Z.leb_le; reflexivity]
  end.

(** More fuel never changes how the loop has ended. *)
Lemma forLoop_more_fuel capacity fuel fuel' i endNum pl pre suf acc r :
  forLoop capacity fuel i endNum pl pre suf acc = Some r -> (fuel <= fuel')%nat ->
  forLoop capacity fuel' i endNum pl pre suf acc = Some r.
Proof.
  revert fuel' i acc. induction fuel as [|fuel IH]; intros fuel' i acc H Hle;
    [discriminate|].
  destruct fuel' as [|fuel']; [lia|]. cbn [forLoop] in *.
  destruct (num_le i endNum); [|exact H].
  destruct (push capacity acc _); [|exact H]. apply IH; [exact H|lia].
Qed.

(** The value of the numeric run of a serial, when it has one. *)
Definition embeddedValue (s : list N) : option Z :=
  match parseSerial s with
  | Some p => Some (digitsValue (numStr p))
  | None => None
  end.

Lemma parseSerial_serialAt pl pre suf v :
  noDigitAtEnd pre -> noDigit suf -> 0 <= v ->
  parseSerial (serialAt pl pre suf v) =
  Some {| prefix := pre; numStr := padStart pl 48%N (decimal v); suffix := suf |}.
Proof.
  intros Hpre Hsuf Hv. destruct (decimal_spec v Hv) as (Hd & Hne & _).
  destruct (padStart_digits pl _ Hd Hne) as (Hpd & Hpne & _).
  unfold serialAt. now apply parseSerial_app.
Qed.

Lemma embeddedValue_serialAt pl pre suf v :
  noDigitAtEnd pre -> noDigit suf -> 0 <= v ->
  embeddedValue (serialAt pl pre suf v) = Some v.
Proof.
  intros Hpre Hsuf Hv. unfold embeddedValue.
  rewrite parseSerial_serialAt by assumption. cbn [numStr].
  destruct (decimal_spec v Hv) as (Hd & Hne & Hval).
  destruct (padStart_digits pl _ Hd Hne) as (_ & _ & Hpv). congruence.
Qed.

Lemma lookup_map_seq {A} (f : nat -> A) n k :
  (k < n)%nat -> List.map f (seq 0 n) !! k = Some (f k).
Proof.
  intros Hk. change (List.map f (seq 0 n)) with (f <$> seq 0 n).
  rewrite list_lookup_fmap, lookup_seq_lt by exact Hk. reflexivity.
Qed.

Lemma lookup_map_seq_Some {A} (f : nat -> A) n k x :
  List.map f (seq 0 n) !! k = Some x -> (k < n)%nat /\ x = f k.
Proof.
  intros H. assert (k < n)%nat as Hk.
  { apply lookup_lt_Some in H. rewrite length_map, length_seq in H. exact H. }
  rewrite lookup_map_seq in H by exact Hk. split; [exact Hk|congruence].
Qed.

(** ** The errors of expandRange *)

Lemma expandRange_no_number capacity fuel start end_ :
  parseSerial start = None \/ parseSerial end_ = None ->
  expandRange capacity fuel start end_ = Some (Normal (Error MSG_INVALID_FORMAT)).
Proof.
  unfold expandRange. intros [H|H]; rewrite H; [reflexivity|].
  destruct (parseSerial start); reflexivity.
Qed.

Lemma expandRange_text_differs capacity fuel start end_ sp ep :
  parseSerial start = Some sp -> parseSerial end_ = Some ep ->
  prefix sp <> prefix ep \/ suffix sp <> suffix ep ->
  expandRange capacity fuel start end_ = Some (Normal (Error MSG_TEXT_MISMATCH)).
Proof.
  intros Es Ee H. unfold expandRange. rewrite Es, Ee.
  assert ((str_neq (prefix sp) (prefix ep) || str_neq (suffix sp) (suffix ep))%bool
          = true) as ->; [|reflexivity].
  apply orb_true_iff. destruct H as [H|H]; [left|right];
    apply not_false_iff_true; intros Hf; apply str_neq_false in Hf; contradiction.
Qed.

(** Past the two parses and the comparison of the text parts, the
    expansion is decided by the two numbers alone. *)
Lemma expandRange_numbers capacity fuel start end_ sp ep :
  parseSerial start = Some sp -> parseSerial end_ = Some ep ->
  prefix sp = prefix ep -> suffix sp = suffix ep ->
  expandRange capacity fuel start end_ =
  if num_gt (roundF64 (digitsValue (numStr sp))) (roundF64 (digitsValue (numStr ep)))
  then Some (Normal (Error MSG_START_GREATER))
  else
    match forLoop capacity fuel (roundF64 (digitsValue (numStr sp)))
                  (roundF64 (digitsValue (numStr ep)))
                  (Nat.max (strlen (numStr sp)) (strlen (numStr ep)))
                  (prefix sp) (suffix sp) [] with
    | Some (Normal results) => Some (Normal (Result results))
    | Some RangeError => Some RangeError
    | None => None
    end.
Proof.
  intros Es Ee Hp Hs. unfold expandRange. rewrite Es, Ee.
  apply str_neq_false in Hp, Hs. rewrite Hp, Hs. cbn [orb].
  destruct (parseSerial_sound _ _ Es) as (_ & Hne1 & Hd1 & _).
  destruct (parseSerial_sound _ _ Ee) as (_ & Hne2 & Hd2 & _).
  rewrite (parseInt10_digits _ Hne1 Hd1), (parseInt10_digits _ Hne2 Hd2).
  reflexivity.
Qed.

Lemma messages_distinct :
  MSG_INVALID_FORMAT <> MSG_TEXT_MISMATCH /\
  MSG_INVALID_FORMAT <> MSG_START_GREATER /\
  MSG_TEXT_MISMATCH <> MSG_START_GREATER.
Proof. repeat split; intros H; vm_compute in H; discriminate. Qed.

(** * The claims of the specification *)

(** C2: every string with at least one decimal digit parses into
    (prefix, numStr, suffix) whose concatenation is the string; numStr is
    a non-empty run of decimal digits, the rightmost maximal one: no digit
    stands right before it (the prefix does not end with a digit) and none
    occurs after it (the suffix has no digit).  Parsing "A1B23" gives the
    prefix "A1B", the run "23" and the empty suffix. *)
Theorem C2_parseSerial_rightmost_run :
  (forall serial, existsb isDecimalDigit serial = true ->
     exists p, parseSerial serial = Some p /\
       prefix p ++ numStr p ++ suffix p = serial /\
       numStr p <> [] /\ allDigits (numStr p) /\
       noDigitAtEnd (prefix p) /\ noDigit (suffix p)) /\
  parseSerial (lit "A1B23") =
    Some {| prefix := lit "A1B"; numStr := lit "23"; suffix := [] |}.
Proof.
  split; [|reflexivity]. intros serial H.
  destruct (parseSerial serial) as [p|] eqn:E.
  - exists p. split; [reflexivity|]. now apply parseSerial_sound.
  - apply parseSerial_None in E. congruence.
Qed.

Lemma C2_witness :
  exists p, parseSerial (lit "ITEM-01-A99x") = Some p /\
    prefix p ++ numStr p ++ suffix p = lit "ITEM-01-A99x" /\
    numStr p <> [] /\ allDigits (numStr p) /\
    noDigitAtEnd (prefix p) /\ noDigit (suffix p).
Proof.
  apply (proj1 C2_parseSerial_rightmost_run (lit "ITEM-01-A99x")).
  reflexivity.
Defined.

(** C5: when at least one of the two inputs has no decimal digit (the
    empty string included, which the parser takes and answers with no
    parts), the expansion fails with the error that asks for a number
    part; the check comes first: nothing of the other input, of the text
    parts, of the order or of the loop (no fuel is needed) changes it. *)
Theorem C5_missing_number_first :
  (forall capacity fuel start end_,
     existsb isDecimalDigit start = false \/ existsb isDecimalDigit end_ = false ->
     expandRange capacity fuel start end_ = Some (Normal (Error MSG_INVALID_FORMAT))) /\
  parseSerial [] = None /\
  MSG_INVALID_FORMAT =
    lit "Invalid format. Serials must contain a number part for range expansion.".
Proof.
  split; [|split; reflexivity]. intros capacity fuel start end_ H.
  apply expandRange_no_number.
  destruct H as [H|H]; [left|right]; now apply parseSerial_None.
Qed.

Lemma C5_witness :
  expandRange MAX_ARRAY_LENGTH 0 (lit "ABC") (lit "XYZ") =
    Some (Normal (Error MSG_INVALID_FORMAT)) /\
  expandRange MAX_ARRAY_LENGTH 0 [] (lit "X10") = Some (Normal (Error MSG_INVALID_FORMAT)) /\
  expandRange MAX_ARRAY_LENGTH 0 (lit "B-2-Z") (lit "no digit") =
    Some (Normal (Error MSG_INVALID_FORMAT)).
Proof.
  split; [|split].
  - apply (proj1 C5_missing_number_first MAX_ARRAY_LENGTH 0%nat (lit "ABC") (lit "XYZ")).
    left. reflexivity.
  - apply (proj1 C5_missing_number_first MAX_ARRAY_LENGTH 0%nat [] (lit "X10")).
    left. reflexivity.
  - apply (proj1 C5_missing_number_first MAX_ARRAY_LENGTH 0%nat (lit "B-2-Z") (lit "no digit")).
    right. reflexivity.
Defined.

(** C6: when both inputs parse and their prefixes differ or their
    suffixes differ, as sequences of code units (so letter case counts),
    the expansion fails with the error on the text parts; neither number
    is compared and nothing is generated: the answer is there without any
    fuel for the loop and whatever the two runs are.  Expanding "A-1-Z"
    to "B-2-Z" fails on the prefixes "A-" and "B-". *)
Theorem C6_text_parts_must_match :
  (forall capacity fuel start end_ sp ep,
     parseSerial start = Some sp -> parseSerial end_ = Some ep ->
     prefix sp <> prefix ep \/ suffix sp <> suffix ep ->
     expandRange capacity fuel start end_ = Some (Normal (Error MSG_TEXT_MISMATCH))) /\
  (prefix <$> parseSerial (lit "A-1-Z") = Some (lit "A-") /\
   prefix <$> parseSerial (lit "B-2-Z") = Some (lit "B-") /\
   forall capacity,
     expandRange capacity 0 (lit "A-1-Z") (lit "B-2-Z") =
     Some (Normal (Error MSG_TEXT_MISMATCH))) /\
  (forall capacity,
     expandRange capacity 0 (lit "ab1") (lit "AB2") =
     Some (Normal (Error MSG_TEXT_MISMATCH))).
Proof.
  split; [|repeat split; reflexivity].
  intros capacity fuel start end_ sp ep. apply expandRange_text_differs.
Qed.

Lemma C6_witness :
  expandRange MAX_ARRAY_LENGTH 0 (lit "X1-a") (lit "X9-b") =
    Some (Normal (Error MSG_TEXT_MISMATCH)).
Proof.
  apply (proj1 C6_text_parts_must_match MAX_ARRAY_LENGTH 0%nat (lit "X1-a") (lit "X9-b")
           {| prefix := lit "X"; numStr := lit "1"; suffix := lit "-a" |}
           {| prefix := lit "X"; numStr := lit "9"; suffix := lit "-b" |}).
  - reflexivity.
  - reflexivity.
  - right. cbn [suffix]. intros H. vm_compute in H. discriminate.
Defined.

(** C1: whenever the expansion of (start, end) returns a sequence, with
    startNum and endNum the base-10 values of the two numeric runs (which
    parseInt then holds exactly): the sequence has endNum - startNum + 1
    elements, so at least one; its k-th element is the shared prefix, the
    padded decimal text of startNum + k and the shared suffix, for the
    successive values startNum, startNum + 1, ..., endNum; the numeric
    value embedded in the k-th element is startNum + k, so the values are
    strictly ascending.  And the expansion does return this sequence when
    the text parts agree, startNum <= endNum, endNum is below 2^53 and
    the array has room for the endNum - startNum + 1 serials (an array
    holds at most 2^32 - 1 elements, and no more than the engine can
    allocate), given fuel for its endNum - startNum + 2 loop tests. *)
Theorem C1_expandRange_sequence :
  (forall capacity fuel start end_ results,
     expandRange capacity fuel start end_ = Some (Normal (Result results)) ->
     exists sp ep,
       parseSerial start = Some sp /\ parseSerial end_ = Some ep /\
       prefix sp = prefix ep /\ suffix sp = suffix ep /\
       parseInt10 (numStr sp) = Fin (digitsValue (numStr sp)) /\
       parseInt10 (numStr ep) = Fin (digitsValue (numStr ep)) /\
       Z.of_nat (strlen results) =
         digitsValue (numStr ep) - digitsValue (numStr sp) + 1 /\
       results <> [] /\
       (forall k, (k < strlen results)%nat ->
          results !! k =
          Some (prefix sp
                ++ padStart (Nat.max (strlen (numStr sp)) (strlen (numStr ep))) 48%N
                            (decimal (digitsValue (numStr sp) + Z.of_nat k))
                ++ suffix sp)) /\
       (forall k x, results !! k = Some x ->
          embeddedValue x = Some (digitsValue (numStr sp) + Z.of_nat k)) /\
       (forall i j x y, (i < j)%nat ->
          results !! i = Some x -> results !! j = Some y ->
          exists u v, embeddedValue x = Some u /\ embeddedValue y = Some v /\
                      u < v)) /\
  (forall capacity fuel start end_ sp ep,
     parseSerial start = Some sp -> parseSerial end_ = Some ep ->
     prefix sp = prefix ep -> suffix sp = suffix ep ->
     digitsValue (numStr sp) <= digitsValue (numStr ep) ->
     digitsValue (numStr ep) < 2 ^ 53 ->
     digitsValue (numStr ep) - digitsValue (numStr sp) + 1 <= arrayLimit capacity ->
     digitsValue (numStr ep) - digitsValue (numStr sp) + 1 < Z.of_nat fuel ->
     exists results,
       expandRange capacity fuel start end_ = Some (Normal (Result results))).
Proof.
  split.
  - intros capacity fuel start end_ results H.
    destruct (expandRange_Result _ _ _ _ _ H)
      as (sp & ep & Es & Ee & Hp & Hs & Ra & Rb & Hab & Hx & ->).
    destruct (parseSerial_sound _ _ Es) as (_ & _ & Hd & Hpre & Hsuf).
    pose proof (digitsValue_nonneg _ Hd) as Ha0.
    set (a := digitsValue (numStr sp)) in *.
    set (b := digitsValue (numStr ep)) in *.
    set (pl := Nat.max _ _).
    assert (forall k x,
              List.map (fun k => serialAt pl (prefix sp) (suffix sp) (a + Z.of_nat k))
                       (seq 0 (Z.to_nat (b - a + 1))) !! k = Some x ->
              embeddedValue x = Some (a + Z.of_nat k)) as Hemb.
    { intros k x Hk. apply lookup_map_seq_Some in Hk as [_ ->].
      apply embeddedValue_serialAt; [assumption|assumption|lia]. }
    exists sp, ep.
    assert (forall A (l : list A), strlen l = length l) as Hlen by reflexivity.
    rewrite !(Hlen (list N)), !length_map, !length_seq.
    split; [exact Es|]. split; [exact Ee|]. split; [exact Hp|].
    split; [exact Hs|]. split; [exact Ra|]. split; [exact Rb|].
    split; [lia|]. split.
    { replace (Z.to_nat (b - a + 1)) with (S (Z.to_nat (b - a))) by lia.
      discriminate. }
    split.
    { intros k Hk.
      exact (lookup_map_seq
               (fun k => serialAt pl (prefix sp) (suffix sp) (a + Z.of_nat k))
               _ k Hk). }
    split; [exact Hemb|].
    intros i j x y Hij Hi Hj.
    exists (a + Z.of_nat i), (a + Z.of_nat j).
    split; [now apply Hemb|]. split; [now apply Hemb|]. lia.
  - intros capacity fuel start end_ sp ep Es Ee Hp Hs Hab Hb Hfit Hfuel.
    eexists. now apply (expandRange_returns capacity fuel start end_ sp ep).
Qed.

Lemma C1_witness :
  exists sp ep,
    parseSerial (lit "MTR-0098-B") = Some sp /\
    parseSerial (lit "MTR-0101-B") = Some ep /\
    prefix sp = prefix ep /\ suffix sp = suffix ep /\
    parseInt10 (numStr sp) = Fin (digitsValue (numStr sp)) /\
    parseInt10 (numStr ep) = Fin (digitsValue (numStr ep)) /\
    Z.of_nat (strlen (List.map lit ["MTR-0098-B"; "MTR-0099-B"; "MTR-0100-B"; "MTR-0101-B"]%string)) =
      digitsValue (numStr ep) - digitsValue (numStr sp) + 1 /\
    List.map lit ["MTR-0098-B"; "MTR-0099-B"; "MTR-0100-B"; "MTR-0101-B"]%string <> [] /\
    (forall k, (k < strlen (List.map lit ["MTR-0098-B"; "MTR-0099-B"; "MTR-0100-B"; "MTR-0101-B"]%string))%nat ->
       List.map lit ["MTR-0098-B"; "MTR-0099-B"; "MTR-0100-B"; "MTR-0101-B"]%string !! k =
       Some (prefix sp
             ++ padStart (Nat.max (strlen (numStr sp)) (strlen (numStr ep))) 48%N
                         (decimal (digitsValue (numStr sp) + Z.of_nat k))
             ++ suffix sp)) /\
    (forall k x,
       List.map lit ["MTR-0098-B"; "MTR-0099-B"; "MTR-0100-B"; "MTR-0101-B"]%string !! k = Some x ->
       embeddedValue x = Some (digitsValue (numStr sp) + Z.of_nat k)) /\
    (forall i j x y, (i < j)%nat ->
       List.map lit ["MTR-0098-B"; "MTR-0099-B"; "MTR-0100-B"; "MTR-0101-B"]%string !! i = Some x ->
       List.map lit ["MTR-0098-B"; "MTR-0099-B"; "MTR-0100-B"; "MTR-0101-B"]%string !! j = Some y ->
       exists u v, embeddedValue x = Some u /\ embeddedValue y = Some v /\ u < v).
Proof.
  apply (proj1 C1_expandRange_sequence MAX_ARRAY_LENGTH 5%nat
           (lit "MTR-0098-B") (lit "MTR-0101-B")).
  reflexivity.
Defined.

(** C3: in every returned expansion, with padWidth the larger of the
    lengths of the two numeric runs, the k-th element is the prefix, the
    rendered number and the suffix, where the rendered number is the
    decimal text of startNum + k with padWidth - length zeros in front
    (none when the text is already padWidth long): it has at least
    padWidth characters, it is the text itself, not cut, when the text has
    padWidth characters or more, and it always ends with the whole text.
    Expanding "IT-9" to "IT-11" gives "IT-09", "IT-10", "IT-11" and
    expanding "IT-001" to "IT-003" gives "IT-001", "IT-002", "IT-003",
    in an array with room for three serials. *)
Theorem C3_padding :
  (forall capacity fuel start end_ results,
     expandRange capacity fuel start end_ = Some (Normal (Result results)) ->
     exists sp ep,
       parseSerial start = Some sp /\ parseSerial end_ = Some ep /\
       forall k x, results !! k = Some x ->
         let padWidth := Nat.max (strlen (numStr sp)) (strlen (numStr ep)) in
         let text := decimal (digitsValue (numStr sp) + Z.of_nat k) in
         exists rendered,
           x = prefix sp ++ rendered ++ suffix sp /\
           rendered = repeat 48%N (padWidth - strlen text) ++ text /\
           (padWidth <= strlen rendered)%nat /\
           ((padWidth <= strlen text)%nat -> rendered = text)) /\
  (forall capacity, 3 <= arrayLimit capacity ->
     expandRange capacity 4 (lit "IT-9") (lit "IT-11") =
     Some (Normal (Result [lit "IT-09"; lit "IT-10"; lit "IT-11"]))) /\
  (forall capacity, 3 <= arrayLimit capacity ->
     expandRange capacity 4 (lit "IT-001") (lit "IT-003") =
     Some (Normal (Result [lit "IT-001"; lit "IT-002"; lit "IT-003"]))).
Proof.
  split; [|split].
  2: { intros capacity Hroom.
       expansion_of {| prefix := lit "IT-"; numStr := lit "9"; suffix := [] |}
                    {| prefix := lit "IT-"; numStr := lit "11"; suffix := [] |}. }
  2: { intros capacity Hroom.
       expansion_of {| prefix := lit "IT-"; numStr := lit "001"; suffix := [] |}
                    {| prefix := lit "IT-"; numStr := lit "003"; suffix := [] |}. }
  intros capacity fuel start end_ results H.
  destruct (expandRange_Result _ _ _ _ _ H)
    as (sp & ep & Es & Ee & _ & _ & _ & _ & _ & _ & ->).
  exists sp, ep. split; [exact Es|]. split; [exact Ee|].
  intros k x Hk padWidth text. apply lookup_map_seq_Some in Hk as [_ ->].
  exists (padStart padWidth 48%N text). split; [reflexivity|].
  split; [reflexivity|]. split.
  - rewrite padStart_length. lia.
  - apply padStart_unchanged.
Qed.

Lemma C3_witness :
  exists sp ep,
    parseSerial (lit "A98z") = Some sp /\ parseSerial (lit "A0101z") = Some ep /\
    forall k x,
      List.map lit ["A0098z"; "A0099z"; "A0100z"; "A0101z"]%string !! k = Some x ->
      let padWidth := Nat.max (strlen (numStr sp)) (strlen (numStr ep)) in
      let text := decimal (digitsValue (numStr sp) + Z.of_nat k) in
      exists rendered,
        x = prefix sp ++ rendered ++ suffix sp /\
        rendered = repeat 48%N (padWidth - strlen text) ++ text /\
        (padWidth <= strlen rendered)%nat /\
        ((padWidth <= strlen text)%nat -> rendered = text).
Proof.
  apply (proj1 C3_padding MAX_ARRAY_LENGTH 5%nat (lit "A98z") (lit "A0101z")). reflexivity.
Defined.

(** A start that [i++] cannot leave, at or below the end: the expansion
    passes its three checks and returns nothing; its loop pushes until
    the array is full and ends by the RangeError. *)
Lemma expandRange_stuck_at_start capacity start end_ sp ep a b :
  parseSerial start = Some sp -> parseSerial end_ = Some ep ->
  prefix sp = prefix ep -> suffix sp = suffix ep ->
  roundF64 (digitsValue (numStr sp)) = Fin a ->
  roundF64 (digitsValue (numStr ep)) = Fin b ->
  a <= b -> roundF64 (a + 1) = Fin a ->
  forall fuel,
    expandRange capacity fuel start end_ =
    if arrayLimit capacity <? Z.of_nat fuel then Some RangeError else None.
Proof.
  intros Es Ee Hp Hs Ra Rb Hab Hstuck fuel.
  rewrite (expandRange_numbers capacity fuel start end_ sp ep Es Ee Hp Hs), Ra, Rb.
  cbn [num_gt]. assert ((b <? a) = false) as -> by (apply Z.ltb_ge; exact Hab).
  rewrite forLoop_stuck; [|exact Hstuck| |apply arrayLimit_nonneg].
  - cbn [strlen length Z.of_nat]. rewrite Z.sub_0_r. now destruct (_ <? _).
  - cbn [num_le]. apply Z.leb_le. exact Hab.
Qed.

(** A range from below 2^53 to 2^53 or above: the loop variable stops
    advancing at 2^53, every test passes, and the expansion ends by the
    RangeError once the array is full. *)
Lemma expandRange_across_2_53 capacity fuel start end_ sp ep :
  parseSerial start = Some sp -> parseSerial end_ = Some ep ->
  prefix sp = prefix ep -> suffix sp = suffix ep ->
  digitsValue (numStr sp) < 2 ^ 53 -> 2 ^ 53 <= digitsValue (numStr ep) ->
  expandRange capacity fuel start end_ =
  if arrayLimit capacity <? Z.of_nat fuel then Some RangeError else None.
Proof.
  intros Es Ee Hp Hs Ha Hb.
  rewrite (expandRange_numbers capacity fuel start end_ sp ep Es Ee Hp Hs).
  rewrite (roundF64_small _ Ha).
  destruct (roundF64 (digitsValue (numStr ep))) as [b'| |] eqn:Rb.
  - pose proof (dbl_ge _ (roundF64_dbl _ _ Hb Rb)) as Hb'.
    cbn [num_gt]. assert ((b' <? digitsValue (numStr sp)) = false) as ->
      by (apply Z.ltb_ge; lia).
    rewrite forLoop_across by (assumption || apply arrayLimit_nonneg).
    cbn [strlen length Z.of_nat]. rewrite Z.sub_0_r. now destruct (_ <? _).
  - cbn [num_gt]. rewrite forLoop_Infinity by (discriminate || apply arrayLimit_nonneg).
    cbn [strlen length Z.of_nat]. rewrite Z.sub_0_r. now destruct (_ <? _).
  - exfalso. exact (roundF64_not_NaN _ Rb).
Qed.

(** The order of the two numbers is read correctly as soon as one of
    them is below 2^53. *)
Lemma num_gt_one_below_2_53 a b :
  0 <= a -> 0 <= b -> a < 2 ^ 53 \/ b < 2 ^ 53 ->
  num_gt (roundF64 a) (roundF64 b) = (b <? a).
Proof.
  intros Ha0 Hb0 Hone.
  destruct (Z.lt_ge_cases a (2 ^ 53)) as [Ha|Ha];
    destruct (Z.lt_ge_cases b (2 ^ 53)) as [Hb|Hb]; [| | |lia].
  - now rewrite !roundF64_small by assumption.
  - rewrite (roundF64_small a) by assumption.
    destruct (roundF64 b) as [b'| |] eqn:Rb.
    + pose proof (dbl_ge _ (roundF64_dbl _ _ Hb Rb)). cbn [num_gt].
      symmetry. transitivity false; [|symmetry]; apply Z.ltb_ge; lia.
    + cbn [num_gt]. symmetry. apply Z.ltb_ge. lia.
    + exfalso. exact (roundF64_not_NaN _ Rb).
  - rewrite (roundF64_small b) by assumption.
    destruct (roundF64 a) as [a'| |] eqn:Ra.
    + pose proof (dbl_ge _ (roundF64_dbl _ _ Ha Ra)). cbn [num_gt].
      transitivity true; [|symmetry]; apply Z.ltb_lt; lia.
    + cbn [num_gt]. symmetry. apply Z.ltb_lt. lia.
    + exfalso. exact (roundF64_not_NaN _ Ra).
Qed.

(** C7: the claim holds on every pair of inputs that parse, with equal
    prefixes and equal suffixes, of which at least one numeric run has a
    value below 2^53: the expansion fails with the reversed-range error
    exactly when startNum > endNum, the runs compared as base-10 naturals
    (leading zeros do not count), and equal values yield a single-element
    result, given room for one serial in the array and fuel for the two
    loop tests.  Expanding "X5" to "X5" yields "X5"; "X10" to "X5" and
    "X010" to "X9" are reversed.
    With both runs at 2^53 or above the code breaks the claim.  parseInt
    reads 9007199254740993 as 9007199254740992, so the range from it to
    9007199254740992, which is reversed, is not found reversed; and on
    the equal values 9007199254740992 the increment leaves the loop
    variable in place.  Either way the expansion returns neither the
    error nor a result, whatever the fuel: the loop pushes until the
    array is full and ends by the RangeError. *)
Theorem C7_reversed_range :
  (forall capacity fuel start end_ sp ep,
     parseSerial start = Some sp -> parseSerial end_ = Some ep ->
     prefix sp = prefix ep -> suffix sp = suffix ep ->
     digitsValue (numStr sp) < 2 ^ 53 \/ digitsValue (numStr ep) < 2 ^ 53 ->
     (expandRange capacity fuel start end_ = Some (Normal (Error MSG_START_GREATER))
      <-> digitsValue (numStr ep) < digitsValue (numStr sp)) /\
     (digitsValue (numStr sp) = digitsValue (numStr ep) ->
      1 <= arrayLimit capacity -> (2 <= fuel)%nat ->
      expandRange capacity fuel start end_ =
      Some (Normal (Result
        [prefix sp
         ++ padStart (Nat.max (strlen (numStr sp)) (strlen (numStr ep)))
                     48%N (decimal (digitsValue (numStr sp)))
         ++ suffix sp])))) /\
  (forall capacity, 1 <= arrayLimit capacity ->
     expandRange capacity 2 (lit "X5") (lit "X5") =
     Some (Normal (Result [lit "X5"]))) /\
  (forall capacity,
     expandRange capacity 0 (lit "X10") (lit "X5") =
     Some (Normal (Error MSG_START_GREATER))) /\
  (forall capacity,
     expandRange capacity 0 (lit "X010") (lit "X9") =
     Some (Normal (Error MSG_START_GREATER))) /\
  (digitsValue (lit "9007199254740992") < digitsValue (lit "9007199254740993") /\
   forall capacity fuel,
     expandRange capacity fuel (lit "9007199254740993") (lit "9007199254740992") =
     if arrayLimit capacity <? Z.of_nat fuel then Some RangeError else None) /\
  (forall capacity fuel,
     expandRange capacity fuel (lit "9007199254740992") (lit "9007199254740992") =
     if arrayLimit capacity <? Z.of_nat fuel then Some RangeError else None).
Proof.
  split; [|split; [|split; [reflexivity|split; [reflexivity|split]]]].
  2: { intros capacity Hroom.
       expansion_of {| prefix := lit "X"; numStr := lit "5"; suffix := [] |}
                    {| prefix := lit "X"; numStr := lit "5"; suffix := [] |}. }
  - intros capacity fuel start end_ sp ep Es Ee Hp Hs Hone.
    destruct (parseSerial_sound _ _ Es) as (_ & _ & Hd1 & _).
    destruct (parseSerial_sound _ _ Ee) as (_ & _ & Hd2 & _).
    pose proof (digitsValue_nonneg _ Hd1) as Ha0.
    pose proof (digitsValue_nonneg _ Hd2) as Hb0.
    split.
    + rewrite (expandRange_numbers capacity fuel start end_ sp ep Es Ee Hp Hs).
      rewrite num_gt_one_below_2_53 by assumption.
      destruct (digitsValue (numStr ep) <? digitsValue (numStr sp)) eqn:E.
      * apply Z.ltb_lt in E. split; [intros _; exact E|reflexivity].
      * apply Z.ltb_ge in E. split; [|lia].
        destruct (forLoop _ _ _ _ _ _ _ _) as [[|]|]; discriminate.
    + intros Heq Hroom Hfuel.
      rewrite (expandRange_returns capacity fuel start end_ sp ep)
        by (assumption || lia).
      rewrite <- Heq.
      replace (digitsValue (numStr sp) - digitsValue (numStr sp) + 1)
        with 1 by lia.
      change (Z.to_nat 1) with 1%nat. cbn [seq List.map].
      change (Z.of_nat 0) with 0. rewrite Z.add_0_r. reflexivity.
  - split; [reflexivity|]. intros capacity.
    apply (expandRange_stuck_at_start capacity _ _
             {| prefix := []; numStr := lit "9007199254740993"; suffix := [] |}
             {| prefix := []; numStr := lit "9007199254740992"; suffix := [] |}
             (2 ^ 53) (2 ^ 53)); reflexivity.
  - intros capacity.
    apply (expandRange_stuck_at_start capacity _ _
             {| prefix := []; numStr := lit "9007199254740992"; suffix := [] |}
             {| prefix := []; numStr := lit "9007199254740992"; suffix := [] |}
             (2 ^ 53) (2 ^ 53)); reflexivity.
Qed.

Lemma C7_witness :
  (expandRange MAX_ARRAY_LENGTH 2 (lit "SN-0042/a") (lit "SN-42/a") =
     Some (Normal (Result [lit "SN-0042/a"]))) /\
  (expandRange MAX_ARRAY_LENGTH 0 (lit "T9007199254740993") (lit "T7") =
     Some (Normal (Error MSG_START_GREATER))
   <-> 7 < 9007199254740993).
Proof.
  split.
  - exact (proj2 (proj1 C7_reversed_range MAX_ARRAY_LENGTH 2%nat
                    (lit "SN-0042/a") (lit "SN-42/a")
                    {| prefix := lit "SN-"; numStr := lit "0042"; suffix := lit "/a" |}
                    {| prefix := lit "SN-"; numStr := lit "42"; suffix := lit "/a" |}
                    eq_refl eq_refl eq_refl eq_refl (or_introl eq_refl))
                 eq_refl (proj1 (Z.leb_le 1 (arrayLimit MAX_ARRAY_LENGTH)) eq_refl)
                 (le_n 2)).
  - exact (proj1 (proj1 C7_reversed_range MAX_ARRAY_LENGTH 0%nat
                    (lit "T9007199254740993") (lit "T7")
                    {| prefix := lit "T"; numStr := lit "9007199254740993"; suffix := [] |}
                    {| prefix := lit "T"; numStr := lit "7"; suffix := [] |}
                    eq_refl eq_refl eq_refl eq_refl (or_intror eq_refl))).
Defined.

(** C8, as stated, fails: the run 9007199254740993 has no exact double,
    parseInt reads it as 9007199254740992 and nothing rejects it.  From
    it to 9007199254740991 the expansion answers with the reversed-range
    error, not with the missing-number one; from it to itself the
    expansion passes every check and returns nothing: its loop ends by
    the RangeError of a push, once it has run long enough. *)
Lemma C8_counterexample :
  parseInt10 (lit "9007199254740993") = Fin 9007199254740992 /\
  (forall capacity,
     expandRange capacity 0 (lit "9007199254740993") (lit "9007199254740991") =
     Some (Normal (Error MSG_START_GREATER))) /\
  MSG_START_GREATER <> MSG_INVALID_FORMAT /\
  (forall capacity fuel,
     expandRange capacity fuel (lit "9007199254740993") (lit "9007199254740993") =
     if arrayLimit capacity <? Z.of_nat fuel then Some RangeError else None).
Proof.
  split; [reflexivity|]. split; [reflexivity|].
  split; [intros H; vm_compute in H; discriminate|]. intros capacity.
  apply (expandRange_stuck_at_start capacity _ _
           {| prefix := []; numStr := lit "9007199254740993"; suffix := [] |}
           {| prefix := []; numStr := lit "9007199254740993"; suffix := [] |}
           (2 ^ 53) (2 ^ 53)); reflexivity.
Qed.

(** C8, amended: a numeric run is never rejected for its length.  The
    expansion answers with the missing-number error exactly when one of
    the two inputs has no decimal digit; a run of digits, however long, is
    read by parseInt as the double nearest to its base-10 value
    ([Infinity] past the largest double), silently.  Every failure the
    expansion reports is one of its three error values, returned and not
    thrown. *)
Theorem C8_no_overflow_guard :
  (forall capacity fuel start end_,
     expandRange capacity fuel start end_ = Some (Normal (Error MSG_INVALID_FORMAT)) <->
     existsb isDecimalDigit start = false \/ existsb isDecimalDigit end_ = false) /\
  (forall d, d <> [] -> allDigits d -> parseInt10 d = roundF64 (digitsValue d)) /\
  (forall capacity fuel start end_ e,
     expandRange capacity fuel start end_ = Some (Normal (Error e)) ->
     e = MSG_INVALID_FORMAT \/ e = MSG_TEXT_MISMATCH \/ e = MSG_START_GREATER).
Proof.
  destruct messages_distinct as (D1 & D2 & D3).
  split; [|split].
  - intros capacity fuel start end_. rewrite <- !parseSerial_None. split.
    + unfold expandRange.
      destruct (parseSerial start) as [sp|]; [|now left].
      destruct (parseSerial end_) as [ep|]; [|now right].
      destruct (_ || _)%bool; [intros [= H]; congruence|].
      destruct (num_gt _ _); [intros [= H]; congruence|].
      destruct (forLoop _ _ _ _ _ _ _ _) as [[|]|]; discriminate.
    + apply expandRange_no_number.
  - exact parseInt10_digits.
  - intros capacity fuel start end_ e. unfold expandRange.
    destruct (parseSerial start) as [sp|]; [|intros [= <-]; now left].
    destruct (parseSerial end_) as [ep|]; [|intros [= <-]; now left].
    destruct (_ || _)%bool; [intros [= <-]; right; now left|].
    destruct (num_gt _ _); [intros [= <-]; right; now right|].
    destruct (forLoop _ _ _ _ _ _ _ _) as [[|]|]; discriminate.
Qed.

Lemma C8_witness :
  parseInt10 (lit "9007199254740993") = roundF64 9007199254740993.
Proof.
  apply (proj1 (proj2 C8_no_overflow_guard) (lit "9007199254740993")).
  - discriminate.
  - repeat constructor.
Defined.

(** C9, as stated, fails: the expansion of "1" to "1001" builds and
    returns all 1001 serials, more than the cap, wherever the array has
    room for them; nothing in expandRange computes the count beforehand
    or rejects the range. *)
Lemma C9_counterexample :
  exists results,
    (forall capacity, 1001 <= arrayLimit capacity ->
       expandRange capacity 1002 (lit "1") (lit "1001") =
       Some (Normal (Result results))) /\
    strlen results = 1001%nat /\
    1001 <= arrayLimit MAX_ARRAY_LENGTH.
Proof.
  eexists. split; [|split].
  - intros capacity Hroom.
    apply (expandRange_returns capacity 1002 (lit "1") (lit "1001")
             {| prefix := []; numStr := lit "1"; suffix := [] |}
             {| prefix := []; numStr := lit "1001"; suffix := [] |});
      first [reflexivity | assumption | apply Z.leb_le; reflexivity].
  - reflexivity.
  - apply Z.leb_le. reflexivity.
Qed.

(** ** The intake computations *)

Lemma numberToString_le x : x <= 2 ^ 53 -> numberToString (Fin x) = decimal x.
Proof.
  intros H. destruct (Z.eq_dec x (2 ^ 53)) as [->|Hne].
  - vm_compute. reflexivity.
  - apply numberToString_small. lia.
Qed.

Lemma expandRange_Result_length capacity fuel start end_ r :
  expandRange capacity fuel start end_ = Some (Normal (Result r)) ->
  (0 < strlen r)%nat /\ Z.of_nat (strlen r) <= 2 ^ 53.
Proof.
  intros H.
  destruct (expandRange_Result _ _ _ _ _ H)
    as (sp & ep & Es & _ & _ & _ & _ & _ & Hab & Hx & ->).
  destruct (parseSerial_sound _ _ Es) as (_ & _ & Hd & _).
  pose proof (digitsValue_nonneg _ Hd) as Ha0.
  unfold strlen. rewrite length_map, length_seq.
  destruct Hx as [Hb|(Heq & Hr & _)]; [lia|].
  rewrite Heq. replace (digitsValue (numStr ep) - digitsValue (numStr ep) + 1)
    with 1 by lia.
  change (Z.to_nat 1) with 1%nat. change (2 ^ 53) with 9007199254740992. lia.
Qed.

Lemma expandRange_Result_truthy capacity fuel start end_ r :
  expandRange capacity fuel start end_ = Some (Normal (Result r)) ->
  truthy start = true /\ truthy end_ = true.
Proof.
  intros H.
  destruct (expandRange_Result _ _ _ _ _ H) as (sp & ep & Es & Ee & _).
  split; [destruct start|destruct end_]; try reflexivity; discriminate.
Qed.

(** On a returned expansion the range branch only checks the cap. *)
Lemma processRange_on_result capacity fuel first last expanded :
  expandRange capacity fuel (trim first) (trim last) = Some (Normal (Result expanded)) ->
  processRange capacity fuel first last =
  Some (Normal
    (if (1000 <? strlen expanded)%nat
     then {| serials := [];
             error := Some
               (lit "Range is too large. A maximum of 1000 items can be added at once, but this range contains "
                ++ decimal (Z.of_nat (strlen expanded)) ++ lit ".") |}
     else {| serials := expanded; error := None |})).
Proof.
  intros H. unfold processRange.
  destruct (expandRange_Result_truthy _ _ _ _ _ H) as [-> ->]. cbn [negb orb].
  rewrite H. unfold rangeTooLarge.
  destruct (expandRange_Result_length _ _ _ _ _ H) as [_ Hlen].
  rewrite numberToString_le by exact Hlen.
  destruct (1000 <? strlen expanded)%nat; reflexivity.
Qed.

(** When the expansion ends by the RangeError, or is still running, so
    does the range branch. *)
Lemma processRange_no_expansion capacity fuel first last :
  truthy (trim first) = true -> truthy (trim last) = true ->
  expandRange capacity fuel (trim first) (trim last) =
    (if arrayLimit capacity <? Z.of_nat fuel then Some RangeError else None) ->
  processRange capacity fuel first last =
  if arrayLimit capacity <? Z.of_nat fuel then Some RangeError else None.
Proof.
  intros H1 H2 H. unfold processRange. rewrite H1, H2, H. cbn [negb orb].
  now destruct (_ <? _).
Qed.

(** Whatever the range branch returns holds at most 1000 serials. *)
Lemma processRange_capped capacity fuel first last p :
  processRange capacity fuel first last = Some (Normal p) ->
  (strlen (serials p) <= 1000)%nat.
Proof.
  unfold processRange. destruct (_ || _)%bool.
  - intros [= <-]. cbn. lia.
  - destruct (expandRange capacity fuel (trim first) (trim last))
      as [[[expanded|e]|]|]; [| |discriminate|discriminate].
    + destruct (1000 <? strlen expanded)%nat eqn:E; intros [= <-]; cbn [serials].
      * cbn. lia.
      * apply Nat.ltb_ge in E. exact E.
    + intros [= <-]. cbn. lia.
Qed.

Lemma processList_capped text : (strlen (serials (processList text)) <= 1000)%nat.
Proof.
  unfold processList. destruct (negb _); [cbn; lia|].
  destruct (1000 <? _)%nat eqn:E; [cbn; lia|]. apply Nat.ltb_ge in E.
  destruct (negb _); [cbn; lia|exact E].
Qed.

Lemma serialsProcessingResult_range capacity fuel newItem :
  serialsProcessingResult capacity fuel (lit "range") newItem =
  processRange capacity fuel (firstSerial newItem) (lastSerial newItem).
Proof. reflexivity. Qed.

Lemma scannedSerialsProcessingResult_meters capacity fuel itemTypes details t :
  findItemType itemTypes (sc_name details) = Some t ->
  it_category t = StockCategory_METERS ->
  scannedSerialsProcessingResult capacity fuel itemTypes details =
  processRange capacity fuel (sc_firstSerial details) (sc_lastSerial details).
Proof.
  intros Hf Hc. unfold scannedSerialsProcessingResult. rewrite Hf.
  apply str_neq_false in Hc. now rewrite Hc.
Qed.

(** C4: the cap is enforced on every sequence that expandRange returns.
    Whenever the expansion of the two trimmed inputs has returned a
    sequence (so parsing, text parts and order were all in order) of more
    than 1000 serials, the intake computation returns no serial at all and
    the range-too-large error, whose message names the cap 1000 and the
    number of serials of the sequence; with at most 1000 it returns the
    whole sequence and no error.  This is the result of
    serialsProcessingResult in range mode and of
    scannedSerialsProcessingResult for an item type of category Meters.
    For a pair that passes the three checks, with endNum below 2^53 and
    room in the array for the endNum - startNum + 1 serials, the sequence
    is there: above 1000 the error reports exactly that count, up to 1000
    all the serials are returned.  Expanding "1" to "1000" succeeds with
    all 1000 serials, "1" to "1001" fails and reports 1001, on both
    computations, in an array with room for the serials.
    The code breaks the claim on the pairs that pass the three checks
    and whose sequence expandRange cannot build, since the cap is tested
    on the built sequence only.  "1" to "5000000000" asks for more
    serials than an array can hold, and on "1" to "9007199254740993" the
    loop variable stops advancing at 2^53: on both there is no
    range-too-large error, whatever the fuel; the expansion ends by the
    RangeError of a push, and the intake computation with it. *)
Theorem C4_cap_enforcement :
  (forall capacity fuel first last expanded,
     expandRange capacity fuel (trim first) (trim last) =
       Some (Normal (Result expanded)) ->
     ((1000 < strlen expanded)%nat ->
      processRange capacity fuel first last =
      Some (Normal
        {| serials := [];
           error := Some
             (lit "Range is too large. A maximum of 1000 items can be added at once, but this range contains "
              ++ decimal (Z.of_nat (strlen expanded)) ++ lit ".") |})) /\
     ((strlen expanded <= 1000)%nat ->
      processRange capacity fuel first last =
      Some (Normal {| serials := expanded; error := None |}))) /\
  (forall capacity fuel newItem,
     serialsProcessingResult capacity fuel (lit "range") newItem =
     processRange capacity fuel (firstSerial newItem) (lastSerial newItem)) /\
  (forall capacity fuel itemTypes details t,
     findItemType itemTypes (sc_name details) = Some t ->
     it_category t = StockCategory_METERS ->
     scannedSerialsProcessingResult capacity fuel itemTypes details =
     processRange capacity fuel (sc_firstSerial details) (sc_lastSerial details)) /\
  (forall capacity fuel first last sp ep,
     parseSerial (trim first) = Some sp -> parseSerial (trim last) = Some ep ->
     prefix sp = prefix ep -> suffix sp = suffix ep ->
     digitsValue (numStr sp) <= digitsValue (numStr ep) ->
     digitsValue (numStr ep) < 2 ^ 53 ->
     digitsValue (numStr ep) - digitsValue (numStr sp) + 1 <= arrayLimit capacity ->
     digitsValue (numStr ep) - digitsValue (numStr sp) + 1 < Z.of_nat fuel ->
     (1000 < digitsValue (numStr ep) - digitsValue (numStr sp) + 1 ->
      processRange capacity fuel first last =
      Some (Normal
        {| serials := [];
           error := Some
             (lit "Range is too large. A maximum of 1000 items can be added at once, but this range contains "
              ++ decimal (digitsValue (numStr ep) - digitsValue (numStr sp) + 1)
              ++ lit ".") |})) /\
     (digitsValue (numStr ep) - digitsValue (numStr sp) + 1 <= 1000 ->
      exists expanded,
        processRange capacity fuel first last =
        Some (Normal {| serials := expanded; error := None |}) /\
        Z.of_nat (strlen expanded) =
          digitsValue (numStr ep) - digitsValue (numStr sp) + 1)) /\
  (exists expanded,
     (forall capacity, 1000 <= arrayLimit capacity ->
        serialsProcessingResult capacity 1001 (lit "range")
          {| barcodes := []; firstSerial := lit "1"; lastSerial := lit "1000" |} =
        Some (Normal {| serials := expanded; error := None |})) /\
     strlen expanded = 1000%nat /\
     expanded !! 0%nat = Some (lit "0001") /\
     expanded !! 999%nat = Some (lit "1000")) /\
  (forall capacity, 1001 <= arrayLimit capacity ->
     serialsProcessingResult capacity 1002 (lit "range")
       {| barcodes := []; firstSerial := lit "1"; lastSerial := lit "1001" |} =
     Some (Normal
       {| serials := [];
          error := Some (lit "Range is too large. A maximum of 1000 items can be added at once, but this range contains 1001.") |})) /\
  (forall capacity, 1001 <= arrayLimit capacity ->
     scannedSerialsProcessingResult capacity 1002
       [{| it_name := lit "Meter"; it_category := lit "Meters" |}]
       {| sc_name := lit "Meter"; sc_firstSerial := lit "1";
          sc_lastSerial := lit "1001" |} =
     Some (Normal
       {| serials := [];
          error := Some (lit "Range is too large. A maximum of 1000 items can be added at once, but this range contains 1001.") |})) /\
  (forall capacity fuel,
     processRange capacity fuel (lit "1") (lit "5000000000") =
     if arrayLimit capacity <? Z.of_nat fuel then Some RangeError else None) /\
  (forall capacity fuel,
     processRange capacity fuel (lit "1") (lit "9007199254740993") =
     if arrayLimit capacity <? Z.of_nat fuel then Some RangeError else None).
Proof.
  split; [|split; [|split; [|split; [|split; [|split; [|split; [|split]]]]]]].
  - intros capacity fuel first last expanded H.
    rewrite (processRange_on_result _ _ _ _ _ H).
    split; intros Hlen.
    + apply Nat.ltb_lt in Hlen. now rewrite Hlen.
    + apply Nat.ltb_ge in Hlen. now rewrite Hlen.
  - exact serialsProcessingResult_range.
  - exact scannedSerialsProcessingResult_meters.
  - intros capacity fuel first last sp ep Es Ee Hp Hs Hab Hb Hfit Hfuel.
    pose proof (expandRange_returns capacity fuel _ _ sp ep Es Ee Hp Hs Hab Hb
                  Hfit Hfuel) as H.
    rewrite (processRange_on_result _ _ _ _ _ H).
    unfold strlen at 1 2. rewrite !length_map, !length_seq. split; intros Hcount.
    + assert ((1000 <? Z.to_nat (digitsValue (numStr ep) - digitsValue (numStr sp) + 1))%nat
              = true) as -> by (apply Nat.ltb_lt; lia).
      rewrite Z2Nat.id by lia. reflexivity.
    + assert ((1000 <? Z.to_nat (digitsValue (numStr ep) - digitsValue (numStr sp) + 1))%nat
              = false) as -> by (apply Nat.ltb_ge; lia).
      eexists. split; [reflexivity|].
      unfold strlen. rewrite length_map, length_seq. lia.
  - eexists. split.
    + intros capacity Hroom. rewrite serialsProcessingResult_range.
      cbn [firstSerial lastSerial].
      rewrite (processRange_on_result capacity 1001 (lit "1") (lit "1000") _
                 (expandRange_returns capacity 1001 (lit "1") (lit "1000")
                    {| prefix := []; numStr := lit "1"; suffix := [] |}
                    {| prefix := []; numStr := lit "1000"; suffix := [] |}
                    eq_refl eq_refl eq_refl eq_refl
                    (proj1 (Z.leb_le 1 1000) eq_refl) eq_refl Hroom eq_refl)).
      reflexivity.
    + repeat split.
  - intros capacity Hroom. rewrite serialsProcessingResult_range.
    cbn [firstSerial lastSerial].
    rewrite (processRange_on_result capacity 1002 (lit "1") (lit "1001") _
               (expandRange_returns capacity 1002 (lit "1") (lit "1001")
                  {| prefix := []; numStr := lit "1"; suffix := [] |}
                  {| prefix := []; numStr := lit "1001"; suffix := [] |}
                  eq_refl eq_refl eq_refl eq_refl
                  (proj1 (Z.leb_le 1 1001) eq_refl) eq_refl Hroom eq_refl)).
    reflexivity.
  - intros capacity Hroom.
    rewrite (scannedSerialsProcessingResult_meters capacity 1002
               [{| it_name := lit "Meter"; it_category := lit "Meters" |}]
               {| sc_name := lit "Meter"; sc_firstSerial := lit "1";
                  sc_lastSerial := lit "1001" |}
               {| it_name := lit "Meter"; it_category := lit "Meters" |}
               eq_refl eq_refl).
    cbn [sc_firstSerial sc_lastSerial].
    rewrite (processRange_on_result capacity 1002 (lit "1") (lit "1001") _
               (expandRange_returns capacity 1002 (lit "1") (lit "1001")
                  {| prefix := []; numStr := lit "1"; suffix := [] |}
                  {| prefix := []; numStr := lit "1001"; suffix := [] |}
                  eq_refl eq_refl eq_refl eq_refl
                  (proj1 (Z.leb_le 1 1001) eq_refl) eq_refl Hroom eq_refl)).
    reflexivity.
  - intros capacity fuel. apply processRange_no_expansion; [reflexivity..|].
    apply (expandRange_overflows capacity fuel _ _
             {| prefix := []; numStr := lit "1"; suffix := [] |}
             {| prefix := []; numStr := lit "5000000000"; suffix := [] |});
      try reflexivity; [apply Z.leb_le; reflexivity|].
    apply Z.le_lt_trans with (2 ^ 32 - 1); [apply arrayLimit_max|reflexivity].
  - intros capacity fuel. apply processRange_no_expansion; [reflexivity..|].
    apply (expandRange_across_2_53 capacity fuel _ _
             {| prefix := []; numStr := lit "1"; suffix := [] |}
             {| prefix := []; numStr := lit "9007199254740993"; suffix := [] |});
      try reflexivity. apply Z.leb_le. reflexivity.
Qed.

Lemma C4_witness :
  processRange MAX_ARRAY_LENGTH 1502 (lit " A0500 ") (lit "A2000") =
  Some (Normal
    {| serials := [];
       error := Some
         (lit "Range is too large. A maximum of 1000 items can be added at once, but this range contains "
          ++ decimal 1501 ++ lit ".") |}) /\
  scannedSerialsProcessingResult MAX_ARRAY_LENGTH 1502
    [{| it_name := lit "Valve"; it_category := lit "Fittings" |};
     {| it_name := lit "Meter"; it_category := lit "Meters" |}]
    {| sc_name := lit "Meter"; sc_firstSerial := lit " A0500 ";
       sc_lastSerial := lit "A2000" |} =
  processRange MAX_ARRAY_LENGTH 1502 (lit " A0500 ") (lit "A2000").
Proof.
  split.
  - exact (proj1 (proj1 (proj2 (proj2 (proj2 C4_cap_enforcement)))
                    MAX_ARRAY_LENGTH 1502%nat (lit " A0500 ") (lit "A2000")
                    {| prefix := lit "A"; numStr := lit "0500"; suffix := [] |}
                    {| prefix := lit "A"; numStr := lit "2000"; suffix := [] |}
                    eq_refl eq_refl eq_refl eq_refl
                    (proj1 (Z.leb_le 500 2000) eq_refl) eq_refl
                    (proj1 (Z.leb_le 1501 (arrayLimit MAX_ARRAY_LENGTH)) eq_refl)
                    eq_refl)
                 (proj1 (Z.ltb_lt 1000 1501) eq_refl)).
  - exact (proj1 (proj2 (proj2 C4_cap_enforcement))
             MAX_ARRAY_LENGTH 1502%nat
             [{| it_name := lit "Valve"; it_category := lit "Fittings" |};
              {| it_name := lit "Meter"; it_category := lit "Meters" |}]
             {| sc_name := lit "Meter"; sc_firstSerial := lit " A0500 ";
                sc_lastSerial := lit "A2000" |}
             {| it_name := lit "Meter"; it_category := lit "Meters" |}
             eq_refl eq_refl).
Defined.

(** C9, amended: expandRange has no cap.  With matching text parts,
    startNum <= endNum, endNum below 2^53 and room in the array for the
    endNum - startNum + 1 serials it terminates once it has fuel for its
    endNum - startNum + 2 loop tests and returns all of them, also when
    they are more than 1000; the count is never computed beforehand.  The
    cap of 1000 is applied afterwards, by the two intake computations, to
    the length of the returned sequence: what they return never holds
    more than 1000 serials. *)
Theorem C9_cap_after_materialization :
  (forall capacity fuel start end_ sp ep,
     parseSerial start = Some sp -> parseSerial end_ = Some ep ->
     prefix sp = prefix ep -> suffix sp = suffix ep ->
     digitsValue (numStr sp) <= digitsValue (numStr ep) ->
     digitsValue (numStr ep) < 2 ^ 53 ->
     digitsValue (numStr ep) - digitsValue (numStr sp) + 1 <= arrayLimit capacity ->
     digitsValue (numStr ep) - digitsValue (numStr sp) + 1 < Z.of_nat fuel ->
     exists results,
       expandRange capacity fuel start end_ = Some (Normal (Result results)) /\
       Z.of_nat (strlen results) =
         digitsValue (numStr ep) - digitsValue (numStr sp) + 1) /\
  (forall capacity fuel addMode newItem p,
     serialsProcessingResult capacity fuel addMode newItem = Some (Normal p) ->
     (strlen (serials p) <= 1000)%nat) /\
  (forall capacity fuel itemTypes details p,
     scannedSerialsProcessingResult capacity fuel itemTypes details =
       Some (Normal p) ->
     (strlen (serials p) <= 1000)%nat).
Proof.
  split; [|split].
  - intros capacity fuel start end_ sp ep Es Ee Hp Hs Hab Hb Hfit Hfuel.
    eexists. split.
    + now apply (expandRange_returns capacity fuel start end_ sp ep).
    + unfold strlen. rewrite length_map, length_seq. lia.
  - intros capacity fuel addMode newItem p. unfold serialsProcessingResult.
    destruct (bool_decide _).
    + apply processRange_capped.
    + intros [= <-]. apply processList_capped.
  - intros capacity fuel itemTypes details p. unfold scannedSerialsProcessingResult.
    destruct (findItemType _ _) as [t|]; [|intros [= <-]; cbn; lia].
    destruct (str_neq _ _); [intros [= <-]; cbn; lia|].
    apply processRange_capped.
Qed.

Lemma C9_witness :
  exists results,
    expandRange MAX_ARRAY_LENGTH 5000 (lit "B1") (lit "B4000") =
      Some (Normal (Result results)) /\
    Z.of_nat (strlen results) = 4000.
Proof.
  exact (proj1 C9_cap_after_materialization MAX_ARRAY_LENGTH 5000%nat
           (lit "B1") (lit "B4000")
           {| prefix := lit "B"; numStr := lit "1"; suffix := [] |}
           {| prefix := lit "B"; numStr := lit "4000"; suffix := [] |}
           eq_refl eq_refl eq_refl eq_refl
           (proj1 (Z.leb_le 1 4000) eq_refl) eq_refl
           (proj1 (Z.leb_le 4000 (arrayLimit MAX_ARRAY_LENGTH)) eq_refl) eq_refl).
Defined.

(** ** The list branch *)

Lemma size_list_to_set_le (l : list (list N)) :
  (size (list_to_set l : gset (list N)) <= length l)%nat.
Proof.
  induction l as [|x l IH]; [reflexivity|].
  rewrite list_to_set_cons. cbn [length].
  pose proof (size_union_alt ({[x]} : gset (list N)) (list_to_set l)) as Hs.
  rewrite size_singleton in Hs.
  assert (list_to_set l ∖ {[x]} ⊆ (list_to_set l : gset (list N))) as Hsub
    by apply subseteq_difference_l, reflexivity.
  apply subseteq_size in Hsub. lia.
Qed.

(** The [Set] of the lines has as many members as there are lines exactly
    when no line occurs twice. *)
Lemma size_list_to_set_NoDup (l : list (list N)) :
  size (list_to_set l : gset (list N)) = length l <-> NoDup l.
Proof.
  split; [|apply size_list_to_set].
  induction l as [|x l IH]; [constructor|].
  rewrite list_to_set_cons. cbn [length]. intros H.
  pose proof (size_list_to_set_le l) as Hle.
  destruct (decide (x ∈ l)) as [Hin|Hnin].
  - exfalso.
    assert ({[x]} ∪ list_to_set l = (list_to_set l : gset (list N))) as Heq.
    { apply subseteq_union_1_L, singleton_subseteq_l.
      rewrite elem_of_list_to_set. exact Hin. }
    rewrite Heq in H. lia.
  - apply NoDup_cons. split; [exact Hnin|]. apply IH.
    assert ({[x]} ## (list_to_set l : gset (list N))) as Hdisj.
    { apply disjoint_singleton_l. rewrite elem_of_list_to_set. exact Hnin. }
    rewrite (size_union _ _ Hdisj), size_singleton in H. lia.
Qed.

(** C10: in list mode, for every text that is not blank, the lines are
    the pieces between line feeds, each trimmed, the empty ones dropped.
    More than 1000 lines give the list-too-long error with their number
    (in decimal: an array has fewer than 2^32 entries), whether or not
    some repeat; otherwise a line that occurs twice (as trimmed, code
    unit for code unit, so letter case counts) gives the duplicates
    error; otherwise the lines are the serials.  So "A1" and " A1 " are
    duplicates, "a1" and "A1" are not, and 1001 equal lines are reported
    as too long only. *)
Theorem C10_list_mode_order_of_checks :
  (forall text, trim text <> [] ->
     let lines := List.filter truthy (List.map trim (split 10%N text)) in
     ((1000 < strlen lines)%nat ->
      processList text =
      {| serials := []; error := Some (listTooLong (strlen lines)) |}) /\
     ((strlen lines <= 1000)%nat -> ~ NoDup lines ->
      processList text = {| serials := []; error := Some MSG_DUPLICATES |}) /\
     ((strlen lines <= 1000)%nat -> NoDup lines ->
      processList text = {| serials := lines; error := None |})) /\
  (forall n, Z.of_nat n <= 2 ^ 53 ->
     listTooLong n =
     lit "List is too long. A maximum of 1000 items can be added at once, but you have provided "
     ++ decimal (Z.of_nat n) ++ lit ".") /\
  (forall capacity fuel addMode newItem, addMode <> lit "range" ->
     serialsProcessingResult capacity fuel addMode newItem =
     Some (Normal (processList (barcodes newItem)))) /\
  processList (lit "A1" ++ [10%N] ++ lit " A1 ") =
    {| serials := []; error := Some MSG_DUPLICATES |} /\
  processList (lit "a1" ++ [10%N] ++ lit "A1") =
    {| serials := [lit "a1"; lit "A1"]; error := None |} /\
  processList (List.concat (repeat (lit "A1" ++ [10%N]) 1001)) =
    {| serials := [];
       error := Some (lit "List is too long. A maximum of 1000 items can be added at once, but you have provided 1001.") |}.
Proof.
  split; [|split; [|split; [|split; [|split]]]].
  4-6: vm_compute; reflexivity.
  - intros text Hne lines. unfold processList.
    assert (truthy (trim text) = true) as ->
      by (destruct (trim text); [congruence|reflexivity]).
    cbn [negb]. fold lines. split; [|split].
    + intros Hlen. apply Nat.ltb_lt in Hlen. now rewrite Hlen.
    + intros Hlen Hdup. apply Nat.ltb_ge in Hlen. rewrite Hlen.
      assert ((size (list_to_set lines : gset (list N)) =? strlen lines)%nat = false)
        as ->; [|reflexivity].
      apply Nat.eqb_neq. intros Heq. apply Hdup.
      now apply size_list_to_set_NoDup.
    + intros Hlen Hnd. apply Nat.ltb_ge in Hlen. rewrite Hlen.
      assert ((size (list_to_set lines : gset (list N)) =? strlen lines)%nat = true)
        as ->; [|reflexivity].
      apply Nat.eqb_eq. now apply size_list_to_set_NoDup.
  - intros n Hn. unfold listTooLong. now rewrite numberToString_le.
  - intros capacity fuel addMode newItem Hmode. unfold serialsProcessingResult.
    now rewrite bool_decide_eq_false_2.
Qed.


Lemma C10_witness :
  processList (lit "  X7" ++ [10%N; 13%N; 10%N] ++ lit "x7 ") =
  {| serials := [lit "X7"; lit "x7"]; error := None |}.
Proof.
  refine (proj2 (proj2 (proj1 C10_list_mode_order_of_checks
                          (lit "  X7" ++ [10%N; 13%N; 10%N] ++ lit "x7 ") _)) _ _).
  - discriminate.
  - apply Nat.leb_le. reflexivity.
  - change (NoDup [lit "X7"; lit "x7"]).
    apply NoDup_cons_2; [|apply NoDup_singleton].
    intros H. apply list_elem_of_singleton in H. discriminate.
Defined.

(** * Further properties of the code *)

(** ** Decimal text: canonical form *)

Lemma digitsAux_fuel f1 f2 z :
  0 <= z < 2 ^ Z.of_nat f1 -> 0 <= z < 2 ^ Z.of_nat f2 ->
  (0 < f1)%nat -> (0 < f2)%nat ->
  digitsAux f1 z [] = digitsAux f2 z [].
Proof.
  revert f2 z. induction f1 as [|f1 IH]; intros f2 z H1 H2 Hf1 Hf2; [lia|].
  destruct f2 as [|f2]; [lia|]. cbn [digitsAux].
  destruct (z <? 10) eqn:E; [reflexivity|]. apply Z.ltb_ge in E.
  rewrite digitsAux_acc, (digitsAux_acc f2). f_equal.
  rewrite Nat2Z.inj_succ, Z.pow_succ_r in H1, H2 by lia.
  assert (1 <= z / 10) as Hq1 by (apply Z.div_le_lower_bound; lia).
  assert (z / 10 < 2 ^ Z.of_nat f1) as Hq2 by (apply Z.div_lt_upper_bound; lia).
  assert (z / 10 < 2 ^ Z.of_nat f2) as Hq3 by (apply Z.div_lt_upper_bound; lia).
  apply IH; try lia.
  - destruct f1; [|lia]. change (2 ^ Z.of_nat 0) with 1 in Hq2. lia.
  - destruct f2; [|lia]. change (2 ^ Z.of_nat 0) with 1 in Hq3. lia.
Qed.

Lemma decimal_fuel_bound z :
  0 <= z -> 0 <= z < 2 ^ Z.of_nat (S (Z.to_nat (Z.log2 z))).
Proof.
  intros Hz. split; [exact Hz|].
  rewrite Nat2Z.inj_succ, Z2Nat.id by apply Z.log2_nonneg.
  destruct (Z.eq_dec z 0) as [->|Hne]; [cbn; lia|].
  apply Z.log2_spec. lia.
Qed.

(** The decimal text, digit by digit from the right. *)
Lemma decimal_unfold z :
  0 <= z ->
  decimal z =
  if z <? 10 then [Z.to_N (48 + z mod 10)]
  else decimal (z / 10) ++ [Z.to_N (48 + z mod 10)].
Proof.
  intros Hz. unfold decimal at 1. cbn [digitsAux].
  destruct (z <? 10) eqn:E; [reflexivity|]. apply Z.ltb_ge in E.
  rewrite digitsAux_acc. f_equal. unfold decimal.
  assert (1 <= z / 10) as Hq1 by (apply Z.div_le_lower_bound; lia).
  pose proof (decimal_fuel_bound z Hz) as Hb.
  rewrite Nat2Z.inj_succ, Z.pow_succ_r in Hb by lia.
  assert (z / 10 < 2 ^ Z.of_nat (Z.to_nat (Z.log2 z))) as Hq2
    by (apply Z.div_lt_upper_bound; lia).
  apply digitsAux_fuel; try lia.
  - apply decimal_fuel_bound. lia.
  - destruct (Z.to_nat (Z.log2 z)); [|lia].
    change (2 ^ Z.of_nat 0) with 1 in Hq2. lia.
Qed.

Lemma allDigits_snoc_inv d c :
  allDigits (d ++ [c]) -> allDigits d /\ 0 <= Z.of_N c - 48 <= 9.
Proof.
  intros H. apply Forall_app in H as [Hd Hc]. split; [exact Hd|].
  apply Forall_inv in Hc. unfold isDecimalDigit in Hc.
  apply andb_true_iff in Hc as [H1 H2]. apply N.leb_le in H1, H2. lia.
Qed.

(** Two runs of digits of the same length and value are the same run. *)
Lemma digits_unique a b :
  allDigits a -> allDigits b -> strlen a = strlen b ->
  digitsValue a = digitsValue b -> a = b.
Proof.
  revert b. induction a as [|x a IH] using rev_ind; intros b Ha Hb Hlen Hval.
  - destruct b; [reflexivity|discriminate].
  - destruct b as [|y b _] using rev_ind.
    + unfold strlen in Hlen. rewrite length_app in Hlen. cbn in Hlen. lia.
    + rewrite !digitsValue_snoc in Hval.
      apply allDigits_snoc_inv in Ha as [Ha Hx], Hb as [Hb Hy].
      unfold strlen in Hlen. rewrite !length_app in Hlen. cbn in Hlen.
      assert (digitsValue a = digitsValue b /\ x = y) as [Hv ->] by lia.
      f_equal. apply IH; try assumption. unfold strlen. lia.
Qed.

(** The decimal text is the shortest run of digits with its value. *)
Lemma decimal_shortest d :
  allDigits d -> d <> [] -> (strlen (decimal (digitsValue d)) <= strlen d)%nat.
Proof.
  induction d as [|x d IH] using rev_ind; intros Hd Hne; [congruence|].
  apply allDigits_snoc_inv in Hd as [Hd Hx].
  pose proof (digitsValue_nonneg d Hd) as Hv.
  rewrite digitsValue_snoc, decimal_unfold by lia.
  unfold strlen in *. rewrite length_app.
  destruct (10 * digitsValue d + (Z.of_N x - 48) <? 10) eqn:E; [cbn; lia|].
  apply Z.ltb_ge in E. rewrite length_app. cbn [length].
  replace ((10 * digitsValue d + (Z.of_N x - 48)) / 10) with (digitsValue d)
    by (apply (Z.div_unique _ 10 _ (Z.of_N x - 48)); lia).
  assert (d <> []) as Hd0.
  { intros ->. change (digitsValue []) with 0 in E. lia. }
  specialize (IH Hd Hd0). lia.
Qed.

(** Larger numbers do not have shorter decimal texts. *)
Lemma decimal_length_mono v w :
  0 <= v <= w -> (strlen (decimal v) <= strlen (decimal w))%nat.
Proof.
  intros H. remember (Z.to_nat w) as n eqn:En.
  revert v w H En. induction n as [n IH] using lt_wf_ind. intros v w H ->.
  rewrite (decimal_unfold v), (decimal_unfold w) by lia.
  destruct (v <? 10) eqn:Ev; destruct (w <? 10) eqn:Ew;
    unfold strlen; rewrite ?length_app; cbn [length].
  - lia.
  - lia.
  - apply Z.ltb_ge in Ev. apply Z.ltb_lt in Ew. lia.
  - apply Z.ltb_ge in Ev, Ew.
    assert (v / 10 <= w / 10) as Hdiv by (apply Z.div_le_mono; lia).
    assert (0 <= v / 10) by (apply Z.div_pos; lia).
    assert (w / 10 < w) by (apply Z.div_lt; lia).
    specialize (IH (Z.to_nat (w / 10)) ltac:(lia) (v / 10) (w / 10) ltac:(lia) eq_refl).
    unfold strlen in IH. lia.
Qed.

(** Padding the decimal text of a run's value to the run's length gives
    the run back, leading zeros included. *)
Lemma padStart_decimal_run d :
  allDigits d -> d <> [] ->
  padStart (strlen d) 48%N (decimal (digitsValue d)) = d.
Proof.
  intros Hd Hne. pose proof (digitsValue_nonneg d Hd) as Hv.
  destruct (decimal_spec _ Hv) as (Hdd & Hdne & Hdv).
  destruct (padStart_digits (strlen d) _ Hdd Hdne) as (Hp & _ & Hpv).
  apply digits_unique; try assumption.
  - rewrite padStart_length. pose proof (decimal_shortest d Hd Hne). lia.
  - congruence.
Qed.

(** ** The parser, both ways *)

(** X1: the parser returns parts exactly for the one way to cut the serial
    into text that does not end with a digit, a non-empty run of digits,
    and text without any digit. *)
Theorem parseSerial_characterized serial q :
  parseSerial serial = Some q <->
  serial = prefix q ++ numStr q ++ suffix q /\
  numStr q <> [] /\ allDigits (numStr q) /\
  noDigitAtEnd (prefix q) /\ noDigit (suffix q).
Proof.
  split.
  - intros H. destruct (parseSerial_sound _ _ H) as (H1 & H2 & H3 & H4 & H5).
    repeat split; try assumption. now symmetry.
  - intros (-> & Hne & Hd & Hp & Hs). destruct q as [p d s].
    cbn [prefix numStr suffix] in *. now apply parseSerial_app.
Qed.

(** ** Returned expansions *)

(** The shape of a returned expansion, with the facts on the parts. *)
Lemma expandRange_Result_parts capacity fuel start end_ r :
  expandRange capacity fuel start end_ = Some (Normal (Result r)) ->
  exists sp ep,
    parseSerial start = Some sp /\ parseSerial end_ = Some ep /\
    prefix sp = prefix ep /\ suffix sp = suffix ep /\
    0 <= digitsValue (numStr sp) <= digitsValue (numStr ep) /\
    r = List.map
          (fun k => serialAt (Nat.max (strlen (numStr sp)) (strlen (numStr ep)))
                             (prefix sp) (suffix sp)
                             (digitsValue (numStr sp) + Z.of_nat k))
          (seq 0 (Z.to_nat (digitsValue (numStr ep) - digitsValue (numStr sp) + 1))).
Proof.
  intros H.
  destruct (expandRange_Result _ _ _ _ _ H)
    as (sp & ep & Es & Ee & Hp & Hs & _ & _ & Hab & _ & Hr).
  destruct (parseSerial_sound _ _ Es) as (_ & _ & Hd & _).
  pose proof (digitsValue_nonneg _ Hd).
  exists sp, ep. repeat split; try assumption.
Qed.

Lemma expandRange_NoDup capacity fuel start end_ r :
  expandRange capacity fuel start end_ = Some (Normal (Result r)) -> NoDup r.
Proof.
  intros H.
  destruct (expandRange_Result_parts _ _ _ _ _ H)
    as (sp & ep & Es & _ & _ & _ & Hab & ->).
  destruct (parseSerial_sound _ _ Es) as (_ & _ & _ & Hpre & Hsuf).
  apply (NoDup_fmap_2_strong _ (seq 0 _)); [|apply NoDup_seq].
  intros i j _ _ Heq. apply (f_equal embeddedValue) in Heq.
  rewrite !embeddedValue_serialAt in Heq by (assumption || lia).
  injection Heq. lia.
Qed.

(** X2: the serials of a returned expansion are pairwise distinct. *)
Theorem expandRange_serials_distinct capacity fuel start end_ results :
  expandRange capacity fuel start end_ = Some (Normal (Result results)) -> NoDup results.
Proof. apply expandRange_NoDup. Qed.

Lemma expandRange_serials_distinct_witness :
  NoDup [lit "K08"; lit "K09"; lit "K10"; lit "K11"].
Proof.
  exact (expandRange_serials_distinct MAX_ARRAY_LENGTH 5 (lit "K8") (lit "K11")
           [lit "K08"; lit "K09"; lit "K10"; lit "K11"] eq_refl).
Defined.

(** X3: every serial of a returned expansion has the length of the prefix,
    the longer of the two numeric runs and the suffix together; the first
    serial is the start itself when its run is at least as long as the
    end's, and the last serial is the end itself when its run is at least
    as long as the start's. *)
Theorem expandRange_fixed_width_endpoints capacity fuel start end_ results :
  expandRange capacity fuel start end_ = Some (Normal (Result results)) ->
  exists sp ep,
    parseSerial start = Some sp /\ parseSerial end_ = Some ep /\
    (forall x, x ∈ results ->
       strlen x = (strlen (prefix sp)
                   + Nat.max (strlen (numStr sp)) (strlen (numStr ep))
                   + strlen (suffix sp))%nat) /\
    ((strlen (numStr ep) <= strlen (numStr sp))%nat -> head results = Some start) /\
    ((strlen (numStr sp) <= strlen (numStr ep))%nat -> last results = Some end_).
Proof.
  intros H.
  destruct (expandRange_Result_parts _ _ _ _ _ H)
    as (sp & ep & Es & Ee & Hp & Hs & Hab & ->).
  destruct (parseSerial_sound _ _ Es) as (Hcat1 & Hne1 & Hd1 & _).
  destruct (parseSerial_sound _ _ Ee) as (Hcat2 & Hne2 & Hd2 & _).
  set (a := digitsValue (numStr sp)) in *.
  set (b := digitsValue (numStr ep)) in *.
  exists sp, ep. split; [exact Es|]. split; [exact Ee|]. split; [|split].
  - intros x Hx. change (List.map ?f ?l) with (f <$> l) in Hx.
    apply list_elem_of_fmap in Hx as (k & -> & Hk). apply elem_of_seq in Hk.
    unfold serialAt, strlen. rewrite !length_app.
    fold (strlen (padStart (Nat.max (length (numStr sp)) (length (numStr ep))) 48%N
                           (decimal (a + Z.of_nat k)))).
    rewrite padStart_length.
    pose proof (decimal_length_mono (a + Z.of_nat k) b ltac:(lia)) as Hmono.
    pose proof (decimal_shortest _ Hd2 Hne2) as Hshort. fold b in Hshort.
    unfold strlen in *. lia.
  - intros Hlen.
    replace (Z.to_nat (b - a + 1)) with (S (Z.to_nat (b - a))) by lia.
    cbn [seq List.map head]. change (Z.of_nat 0) with 0. rewrite Z.add_0_r.
    f_equal. unfold serialAt.
    replace (Nat.max (strlen (numStr sp)) (strlen (numStr ep)))
      with (strlen (numStr sp)) by lia.
    unfold a. rewrite padStart_decimal_run by assumption. exact Hcat1.
  - intros Hlen.
    replace (Z.to_nat (b - a + 1)) with (S (Z.to_nat (b - a))) by lia.
    rewrite seq_S, map_app. cbn [List.map Nat.add]. rewrite last_snoc.
    f_equal. unfold serialAt.
    replace (Nat.max (strlen (numStr sp)) (strlen (numStr ep)))
      with (strlen (numStr ep)) by lia.
    replace (a + Z.of_nat (Z.to_nat (b - a))) with b by lia.
    unfold b. rewrite padStart_decimal_run by assumption.
    rewrite Hp, Hs. exact Hcat2.
Qed.

Lemma expandRange_fixed_width_endpoints_witness :
  exists sp ep,
    parseSerial (lit "M-098/x") = Some sp /\ parseSerial (lit "M-101/x") = Some ep /\
    (forall x, x ∈ [lit "M-098/x"; lit "M-099/x"; lit "M-100/x"; lit "M-101/x"] ->
       strlen x = (strlen (prefix sp)
                   + Nat.max (strlen (numStr sp)) (strlen (numStr ep))
                   + strlen (suffix sp))%nat) /\
    ((strlen (numStr ep) <= strlen (numStr sp))%nat ->
     head [lit "M-098/x"; lit "M-099/x"; lit "M-100/x"; lit "M-101/x"]
     = Some (lit "M-098/x")) /\
    ((strlen (numStr sp) <= strlen (numStr ep))%nat ->
     last [lit "M-098/x"; lit "M-099/x"; lit "M-100/x"; lit "M-101/x"]
     = Some (lit "M-101/x")).
Proof.
  exact (expandRange_fixed_width_endpoints MAX_ARRAY_LENGTH 5 (lit "M-098/x") (lit "M-101/x")
           [lit "M-098/x"; lit "M-099/x"; lit "M-100/x"; lit "M-101/x"] eq_refl).
Defined.

(** X4: a range whose end, as a number, is 2^53 or more and above the start
    never yields a sequence, whatever the fuel and the room in the array;
    when the start is below 2^53 the expansion passes its checks and then
    returns nothing at all: the loop counter stops advancing at 2^53,
    every test passes, and the loop runs until the push onto the full
    array ends it by the RangeError. *)
Theorem expandRange_stuck_across_2_53 start end_ sp ep :
  parseSerial start = Some sp -> parseSerial end_ = Some ep ->
  prefix sp = prefix ep -> suffix sp = suffix ep ->
  digitsValue (numStr sp) < digitsValue (numStr ep) ->
  2 ^ 53 <= digitsValue (numStr ep) ->
  (forall capacity fuel results,
     expandRange capacity fuel start end_ <> Some (Normal (Result results))) /\
  (digitsValue (numStr sp) < 2 ^ 53 ->
   forall capacity fuel,
     expandRange capacity fuel start end_ =
     if arrayLimit capacity <? Z.of_nat fuel then Some RangeError else None).
Proof.
  intros Es Ee Hp Hs Hab Hb. split.
  - intros capacity fuel results H.
    destruct (expandRange_Result _ _ _ _ _ H)
      as (sp' & ep' & Es' & Ee' & _ & _ & _ & _ & _ & Hx & _).
    rewrite Es in Es'. rewrite Ee in Ee'. injection Es' as <-. injection Ee' as <-.
    destruct Hx as [Hlt|(Heq & _)]; lia.
  - intros Ha capacity fuel.
    now apply (expandRange_across_2_53 capacity fuel start end_ sp ep).
Qed.

Lemma expandRange_stuck_across_2_53_witness :
  (forall capacity fuel results,
     expandRange capacity fuel (lit "SIM9007199254740990") (lit "SIM9007199254740995")
     <> Some (Normal (Result results))) /\
  (9007199254740990 < 2 ^ 53 ->
   forall capacity fuel,
     expandRange capacity fuel (lit "SIM9007199254740990") (lit "SIM9007199254740995") =
     if arrayLimit capacity <? Z.of_nat fuel then Some RangeError else None).
Proof.
  exact (expandRange_stuck_across_2_53
           (lit "SIM9007199254740990") (lit "SIM9007199254740995")
           {| prefix := lit "SIM"; numStr := lit "9007199254740990"; suffix := [] |}
           {| prefix := lit "SIM"; numStr := lit "9007199254740995"; suffix := [] |}
           eq_refl eq_refl eq_refl eq_refl eq_refl
           (proj1 (Z.leb_le (2 ^ 53) 9007199254740995) eq_refl)).
Defined.

(** ** Trimming *)

(** A string that does not start with white space. *)
Definition noSpaceAtStart (s : list N) : Prop :=
  match s with
  | c :: _ => isWhiteSpace c = false
  | [] => True
  end.

(** A string that does not end with white space. *)
Definition noSpaceAtEnd (s : list N) : Prop := noSpaceAtStart (rev s).

Lemma trimStart_noSpace s : noSpaceAtStart (trimStart s).
Proof.
  induction s as [|c s IH]; cbn [trimStart]; [exact I|].
  destruct (isWhiteSpace c) eqn:E; [exact IH|exact E].
Qed.

Lemma trimStart_fixed s : noSpaceAtStart s -> trimStart s = s.
Proof. destruct s as [|c s]; cbn; [reflexivity|]. now intros ->. Qed.

Lemma trimStart_snoc s c :
  isWhiteSpace c = false -> trimStart (s ++ [c]) = trimStart s ++ [c].
Proof.
  intros Hc. induction s as [|x s IH]; cbn [trimStart app].
  - now rewrite Hc.
  - destruct (isWhiteSpace x); [exact IH|reflexivity].
Qed.

Lemma trimEnd_cons c s :
  isWhiteSpace c = false -> trimEnd (c :: s) = c :: trimEnd s.
Proof.
  intros Hc. unfold trimEnd. cbn [rev].
  rewrite trimStart_snoc by exact Hc. rewrite rev_app_distr. reflexivity.
Qed.

Lemma trimEnd_keeps_start s : noSpaceAtStart s -> noSpaceAtStart (trimEnd s).
Proof.
  destruct s as [|c s]; [intros _; exact I|]. cbn [noSpaceAtStart]. intros Hc.
  rewrite trimEnd_cons by exact Hc. exact Hc.
Qed.

Lemma trimEnd_noSpace s : noSpaceAtEnd (trimEnd s).
Proof.
  unfold noSpaceAtEnd, trimEnd. rewrite rev_involutive. apply trimStart_noSpace.
Qed.

Lemma trimEnd_fixed s : noSpaceAtEnd s -> trimEnd s = s.
Proof.
  unfold noSpaceAtEnd, trimEnd. intros H. rewrite trimStart_fixed by exact H.
  apply rev_involutive.
Qed.

Lemma trim_noSpace s : noSpaceAtStart (trim s) /\ noSpaceAtEnd (trim s).
Proof.
  unfold trim. split; [|apply trimEnd_noSpace].
  apply trimEnd_keeps_start, trimStart_noSpace.
Qed.

Lemma trim_fixed s : noSpaceAtStart s -> noSpaceAtEnd s -> trim s = s.
Proof.
  intros H1 H2. unfold trim. rewrite (trimStart_fixed _ H1). now apply trimEnd_fixed.
Qed.

Lemma trim_idempotent s : trim (trim s) = trim s.
Proof. destruct (trim_noSpace s). now apply trim_fixed. Qed.

Lemma trimStart_suffix s : exists ws, s = ws ++ trimStart s.
Proof.
  induction s as [|c s [ws IH]]; cbn [trimStart]; [now exists []|].
  destruct (isWhiteSpace c); [|now exists []].
  exists (c :: ws). cbn [app]. now f_equal.
Qed.

(** The trimmed string is a segment of the string. *)
Lemma trim_segment s : exists l r, s = l ++ trim s ++ r.
Proof.
  destruct (trimStart_suffix s) as [l Hl].
  destruct (trimStart_suffix (rev (trimStart s))) as [r Hr].
  exists l, (rev r). unfold trim, trimEnd. rewrite <- rev_app_distr, <- Hr.
  now rewrite rev_involutive.
Qed.

(** ** Splitting *)

Lemma split_nonempty sep s : split sep s <> [].
Proof.
  destruct s as [|c s]; cbn [split]; [discriminate|].
  destruct (c =? sep)%N; [discriminate|]. destruct (split sep s); discriminate.
Qed.

(** No piece of a split holds the separator. *)
Lemma split_no_separator sep s :
  Forall (fun piece => sep ∉ piece) (split sep s).
Proof.
  induction s as [|c s IH]; cbn [split].
  - constructor; [apply not_elem_of_nil|constructor].
  - destruct (c =? sep)%N eqn:E.
    + constructor; [apply not_elem_of_nil|exact IH].
    + apply N.eqb_neq in E. destruct (split sep s) as [|l ls].
      * constructor; [|constructor]. intros H.
        apply list_elem_of_singleton in H. congruence.
      * apply Forall_cons in IH as [Hl Hls]. constructor; [|exact Hls].
        intros H. apply elem_of_cons in H as [H|H]; [congruence|contradiction].
Qed.

(** ** What the intake computations return *)

(** The lines of the list branch. *)
Definition listLines (text : list N) : list (list N) :=
  List.filter truthy (List.map trim (split 10%N text)).

Lemma listLines_normal text x :
  x ∈ listLines text -> x <> [] /\ trim x = x /\ 10%N ∉ x.
Proof.
  unfold listLines. intros H. apply list_elem_of_In, filter_In in H as [Hin Ht].
  apply in_map_iff in Hin as (piece & <- & Hpiece).
  split; [|split].
  - intros E. rewrite E in Ht. discriminate.
  - apply trim_idempotent.
  - pose proof (split_no_separator 10%N text) as Hsep.
    apply (proj1 (Forall_forall _ _)) with (x := piece) in Hsep;
      [|now apply list_elem_of_In].
    destruct (trim_segment piece) as (l & r & Hseg). intros Hx. apply Hsep.
    rewrite Hseg. apply elem_of_app. right. apply elem_of_app. now left.
Qed.

Lemma processList_cases text :
  processList text = {| serials := []; error := error (processList text) |} \/
  (processList text = {| serials := listLines text; error := None |} /\
   NoDup (listLines text) /\ (strlen (listLines text) <= 1000)%nat).
Proof.
  unfold processList. fold (listLines text).
  destruct (negb (truthy (trim text))); [now left|].
  destruct (1000 <? strlen (listLines text))%nat eqn:E; [now left|].
  destruct (size (list_to_set (listLines text) : gset (list N))
            =? strlen (listLines text))%nat eqn:E2; [|now left].
  right. apply Nat.ltb_ge in E. apply Nat.eqb_eq in E2.
  split; [reflexivity|]. split; [|exact E]. now apply size_list_to_set_NoDup.
Qed.

(** X5: every serial that list mode returns is a trimmed, non-empty line of
    the text, without a line feed in it; the serials are pairwise
    distinct and at most 1000. *)
Theorem processList_serials_normalized text :
  (forall x, x ∈ serials (processList text) ->
     x <> [] /\ trim x = x /\ (10%N ∉ x) /\
     exists piece, piece ∈ split 10%N text /\ x = trim piece) /\
  NoDup (serials (processList text)) /\
  (strlen (serials (processList text)) <= 1000)%nat.
Proof.
  destruct (processList_cases text) as [H|(H & Hnd & Hlen)]; rewrite H;
    cbn [serials].
  - split; [|split; [constructor|cbn; lia]]. intros x Hx.
    now apply not_elem_of_nil in Hx.
  - split; [|split; assumption]. intros x Hx.
    destruct (listLines_normal text x Hx) as (H1 & H2 & H3).
    repeat split; try assumption.
    unfold listLines in Hx. apply list_elem_of_In, filter_In in Hx as [Hin _].
    apply in_map_iff in Hin as (piece & <- & Hpiece).
    exists piece. split; [now apply list_elem_of_In|reflexivity].
Qed.

Lemma processList_serials_normalized_witness :
  serials (processList (lit "  X7 " ++ [10%N; 10%N] ++ lit "x7")) =
    [lit "X7"; lit "x7"] /\
  (lit "X7" <> [] /\ trim (lit "X7") = lit "X7" /\ (10%N ∉ lit "X7") /\
   exists piece,
     piece ∈ split 10%N (lit "  X7 " ++ [10%N; 10%N] ++ lit "x7") /\
     lit "X7" = trim piece).
Proof.
  assert (serials (processList (lit "  X7 " ++ [10%N; 10%N] ++ lit "x7")) =
          [lit "X7"; lit "x7"]) as E by (vm_compute; reflexivity).
  split; [exact E|].
  apply (proj1 (processList_serials_normalized
                  (lit "  X7 " ++ [10%N; 10%N] ++ lit "x7"))).
  rewrite E. apply list_elem_of_here.
Defined.

(** X6: the range branch reads its two fields trimmed: white space around
    either serial never changes what it returns. *)
Theorem processRange_ignores_surrounding_space capacity fuel first last :
  processRange capacity fuel first last = processRange capacity fuel (trim first) (trim last).
Proof. unfold processRange. now rewrite !trim_idempotent. Qed.

Lemma intake_invariant :
  (forall capacity fuel addMode newItem p,
     serialsProcessingResult capacity fuel addMode newItem = Some (Normal p) ->
     (error p <> None -> serials p = []) /\
     NoDup (serials p) /\ (strlen (serials p) <= 1000)%nat) /\
  (forall capacity fuel itemTypes details p,
     scannedSerialsProcessingResult capacity fuel itemTypes details = Some (Normal p) ->
     (error p <> None -> serials p = []) /\
     NoDup (serials p) /\ (strlen (serials p) <= 1000)%nat).
Proof.
  assert (forall capacity fuel first last p,
            processRange capacity fuel first last = Some (Normal p) ->
            (error p <> None -> serials p = []) /\
            NoDup (serials p) /\ (strlen (serials p) <= 1000)%nat) as Hrange.
  { intros capacity fuel first last p H.
    pose proof (processRange_capped _ _ _ _ _ H) as Hcap.
    split; [|split; [|exact Hcap]]; revert H; unfold processRange;
      destruct (_ || _)%bool; try (intros [= <-]; cbn; (congruence || constructor));
      destruct (expandRange capacity fuel (trim first) (trim last))
        as [[[expanded|e]|]|] eqn:E;
      try discriminate;
      try (intros [= <-]; cbn; (congruence || constructor));
      destruct (1000 <? strlen expanded)%nat;
      intros [= <-]; cbn; try congruence; try constructor.
    eapply expandRange_NoDup. exact E. }
  assert (forall p : processing,
            p = {| serials := []; error := None |} ->
            (error p <> None -> serials p = []) /\
            NoDup (serials p) /\ (strlen (serials p) <= 1000)%nat) as Hempty.
  { intros p ->. cbn. repeat split; [constructor|lia]. }
  split.
  - intros capacity fuel addMode newItem p. unfold serialsProcessingResult.
    destruct (bool_decide _); [apply Hrange|]. intros [= <-].
    destruct (processList_cases (barcodes newItem)) as [H|(H & Hnd & Hlen)];
      rewrite H; cbn [serials error].
    + repeat split; [constructor|cbn; lia].
    + repeat split; [congruence|assumption|assumption].
  - intros capacity fuel itemTypes details p. unfold scannedSerialsProcessingResult.
    destruct (findItemType _ _) as [t|]; [|intros [= <-]; now apply Hempty].
    destruct (str_neq _ _); [intros [= <-]; now apply Hempty|apply Hrange].
Qed.


(** X7: whatever serialsProcessingResult and scannedSerialsProcessingResult
    return is either an error with no serial at all, or no error and a
    batch of pairwise distinct serials, at most 1000 of them. *)
Theorem intake_result_exclusive :
  (forall capacity fuel addMode newItem p,
     serialsProcessingResult capacity fuel addMode newItem = Some (Normal p) ->
     (error p <> None -> serials p = []) /\
     NoDup (serials p) /\ (strlen (serials p) <= 1000)%nat) /\
  (forall capacity fuel itemTypes details p,
     scannedSerialsProcessingResult capacity fuel itemTypes details = Some (Normal p) ->
     (error p <> None -> serials p = []) /\
     NoDup (serials p) /\ (strlen (serials p) <= 1000)%nat).
Proof. exact intake_invariant. Qed.

Lemma intake_result_exclusive_witness :
  (error {| serials := [lit "Q7"; lit "Q8"; lit "Q9"]; error := None |} <> None ->
   serials {| serials := [lit "Q7"; lit "Q8"; lit "Q9"]; error := None |} = []) /\
  NoDup [lit "Q7"; lit "Q8"; lit "Q9"] /\
  (strlen [lit "Q7"; lit "Q8"; lit "Q9"] <= 1000)%nat.
Proof.
  exact (proj1 intake_result_exclusive MAX_ARRAY_LENGTH 4%nat (lit "range")
           {| barcodes := []; firstSerial := lit " Q7"; lastSerial := lit "Q9 " |}
           {| serials := [lit "Q7"; lit "Q8"; lit "Q9"]; error := None |} eq_refl).
Defined.

(** * The stock hook: fetchStock *)

(** [fetchStock] asks the backend for the user's items page by page,
    [pageSize] rows at a time.  The backend is the function [request]:
    its answer to the request for page [page], rows [page * pageSize] to
    [(page + 1) * pageSize - 1], is the rows it sends ([data], where
    [null] and the empty array are treated alike by the code) or [None]
    for an [error].  The loop runs as long as the backend sends full
    pages, so it carries fuel, one unit per request. *)
Section FetchStock.
Context {row : Type}.

Definition pageSize : nat := 1000.

(** How the [while (hasMore)] loop ends: with the items gathered, or by
    throwing the backend's error. *)
Inductive fetched : Type :=
  | Gathered (allItems : list row)
  | Thrown.

Fixpoint fetchLoop (fuel : nat) (request : nat -> option (list row))
    (page : nat) (allItems : list row) : option fetched :=
  match fuel with
  | O => None
  | S fuel' =>
      match request page with
      | None => Some Thrown
      | Some data =>
          if (0 <? strlen data)%nat then
            if (strlen data <? pageSize)%nat
            then Some (Gathered (allItems ++ data))
            else fetchLoop fuel' request (S page) (allItems ++ data)
          else Some (Gathered allItems)
      end
  end.

(** The stock that [fetchStock] sets: the gathered items, or the empty
    array from the [catch] when a request failed. *)
Definition fetchStock (fuel : nat) (request : nat -> option (list row))
    : option (list row) :=
  match fetchLoop fuel request 0 [] with
  | Some (Gathered allItems) => Some allItems
  | Some Thrown => Some []
  | None => None
  end.



Lemma fetchLoop_requests fuel request page allItems p :
  (forall q, (page <= q < p)%nat ->
     exists data, request q = Some data /\ strlen data = pageSize) ->
  request p = None -> (page <= p)%nat -> (p - page < fuel)%nat ->
  fetchLoop fuel request page allItems = Some Thrown.
Proof.
  revert page allItems. induction fuel as [|fuel IH];
    intros page allItems Hfull Herr Hle Hfuel; [lia|].
  cbn [fetchLoop]. destruct (decide (page = p)) as [->|Hne].
  - now rewrite Herr.
  - destruct (Hfull page ltac:(lia)) as (data & -> & Hlen). rewrite Hlen.
    cbn. apply IH; try assumption; try lia.
    intros q Hq. apply Hfull. lia.
Qed.
End FetchStock.



(** X9: when the backend sends full pages and then fails on a request, the
    stock that fetchStock sets is empty: the pages already gathered are
    dropped. *)
Theorem fetchStock_error_drops_all {row : Type} fuel (request : nat -> option (list row)) p :
  (forall q, (q < p)%nat ->
     exists data, request q = Some data /\ strlen data = pageSize) ->
  request p = None -> (p < fuel)%nat ->
  fetchStock fuel request = Some [].
Proof.
  intros Hfull Herr Hfuel. unfold fetchStock.
  rewrite (fetchLoop_requests fuel request 0 [] p); try assumption; try lia.
  - reflexivity.
  - intros q Hq. apply Hfull. lia.
Qed.

Lemma fetchStock_error_drops_all_witness :
  fetchStock 2 (fun p => if (p =? 0)%nat then Some (seq 0 1000) else None)
  = Some ([] : list nat).
Proof.
  apply (fetchStock_error_drops_all 2
           (fun p => if (p =? 0)%nat then Some (seq 0 1000) else None) 1).
  - intros q Hq. exists (seq 0 1000). destruct q; [split; reflexivity|lia].
  - reflexivity.
  - lia.
Defined.

(** * The dashboard's derived data *)

(** A row of [stock], as far as the computations below read it; a
    [barcode] that is [null] is the empty string here (both are falsy and
    only truthy barcodes are ever used). *)
Record stockItem : Type := mkStockItem {
  item_name : list N;
  item_barcode : list N;
  item_location : list N;
  item_assigned_to : list N
}.

Definition Team_UNASSIGNED : list N := lit "Unassigned".
Definition Location_UNASSIGNED : list N := lit "Unassigned".

(** [currentStock]: the items assigned to nobody, in the order of
    [stock]. *)
Definition currentStock (stock : list stockItem) : list stockItem :=
  List.filter (fun item => bool_decide (item_assigned_to item = Team_UNASSIGNED))
              stock.

(** [assignedStock] before it is sorted by date; the sort permutes it,
    so its length is the length of this list. *)
Definition assignedUnsorted (stock : list stockItem) : list stockItem :=
  List.filter (fun item => negb (bool_decide (item_assigned_to item = Team_UNASSIGNED)))
              stock.

(** [filteredStock] for the location filter of the dashboard. *)
Definition filteredStock (stock : list stockItem) (location : list N)
    : list stockItem :=
  List.filter (fun item => (bool_decide (location = lit "All")
                            || bool_decide (item_location item = location))%bool)
              (currentStock stock).

Record summary : Type := mkSummary {
  totalItems : nat;
  itemTypesCount : nat;
  itemsAssigned : nat;
  itemsInStore : nat
}.

Definition stockSummary (stock : list stockItem) : summary :=
  {| totalItems := strlen (currentStock stock);
     itemTypesCount :=
       size (list_to_set (List.map item_name (currentStock stock)) : gset (list N));
     itemsAssigned := strlen (assignedUnsorted stock);
     itemsInStore :=
       strlen (List.filter
                 (fun item => str_neq (item_location item) Location_UNASSIGNED)
                 (currentStock stock)) |}.

(** The property names every object inherits from [Object.prototype]:
    [acc[name]] is truthy for them on an empty object, and is no array. *)
Definition objectPrototypeKeys : list (list N) :=
  List.map lit
    ["constructor"; "__defineGetter__"; "__defineSetter__"; "hasOwnProperty";
     "__lookupGetter__"; "__lookupSetter__"; "isPrototypeOf";
     "propertyIsEnumerable"; "toString"; "valueOf"; "__proto__";
     "toLocaleString"]%string.

(** One step of the [reduce] of [groupedStock] on the own properties
    [acc]: [acc[name] = acc[name] || []] keeps an own group, takes the
    inherited value for an inherited name and makes an empty group
    otherwise; [acc[name].push(item)] then throws a TypeError on the
    inherited value ([None]). *)
Definition groupStep (acc : gmap (list N) (list stockItem)) (item : stockItem)
    : option (gmap (list N) (list stockItem)) :=
  match acc !! item_name item with
  | Some group => Some (<[item_name item := group ++ [item]]> acc)
  | None =>
      if bool_decide (item_name item ∈ objectPrototypeKeys) then None
      else Some (<[item_name item := [item]]> acc)
  end.

Fixpoint groupFrom (acc : gmap (list N) (list stockItem)) (items : list stockItem)
    : option (gmap (list N) (list stockItem)) :=
  match items with
  | [] => Some acc
  | item :: items' =>
      match groupStep acc item with
      | Some acc' => groupFrom acc' items'
      | None => None
      end
  end.

(** [groupedStock]: the items by name, [None] when the reduce throws. *)
Definition groupedStock (items : list stockItem)
    : option (gmap (list N) (list stockItem)) :=
  groupFrom ∅ items.

(** The items of [items] named [n], in order. *)
Definition named (n : list N) (items : list stockItem) : list stockItem :=
  List.filter (fun item => bool_decide (item_name item = n)) items.

Lemma named_cons n item items :
  named n (item :: items) =
  if bool_decide (item_name item = n) then item :: named n items
  else named n items.
Proof. reflexivity. Qed.

Lemma groupFrom_lookup acc items g :
  groupFrom acc items = Some g ->
  forall n,
    g !! n =
    match acc !! n with
    | Some group => Some (group ++ named n items)
    | None => match named n items with
              | [] => None
              | first :: more => Some (first :: more)
              end
    end.
Proof.
  revert acc. induction items as [|item items IH]; intros acc H n.
  - injection H as <-. cbn. destruct (acc !! n); [now rewrite app_nil_r|reflexivity].
  - cbn [groupFrom] in H. destruct (groupStep acc item) as [acc'|] eqn:Es;
      [|discriminate].
    rewrite (IH _ H n). rewrite named_cons. unfold groupStep in Es.
    destruct (acc !! item_name item) as [group|] eqn:Eg.
    + injection Es as <-. destruct (decide (item_name item = n)) as [<-|Hne].
      * rewrite lookup_insert_eq, Eg, bool_decide_eq_true_2 by reflexivity.
        now rewrite <- app_assoc.
      * rewrite lookup_insert_ne, bool_decide_eq_false_2 by assumption.
        reflexivity.
    + destruct (bool_decide (item_name item ∈ objectPrototypeKeys)); [discriminate|].
      injection Es as <-. destruct (decide (item_name item = n)) as [<-|Hne].
      * rewrite lookup_insert_eq, Eg, bool_decide_eq_true_2 by reflexivity.
        reflexivity.
      * rewrite lookup_insert_ne, bool_decide_eq_false_2 by assumption.
        reflexivity.
Qed.

Lemma groupFrom_throws acc items :
  groupFrom acc items = None ->
  exists item, item ∈ items /\ item_name item ∈ objectPrototypeKeys.
Proof.
  revert acc. induction items as [|item items IH]; intros acc H; [discriminate|].
  cbn [groupFrom] in H. destruct (groupStep acc item) as [acc'|] eqn:Es.
  - destruct (IH _ H) as (x & Hx & Hk). exists x. split; [now right|exact Hk].
  - exists item. split; [now left|]. unfold groupStep in Es.
    destruct (acc !! item_name item); [discriminate|].
    destruct (bool_decide (item_name item ∈ objectPrototypeKeys)) eqn:E;
      [|discriminate].
    now apply bool_decide_eq_true in E.
Qed.

Lemma groupFrom_own_only acc items g :
  groupFrom acc items = Some g ->
  (forall n, n ∈ objectPrototypeKeys -> acc !! n = None) ->
  forall item, item ∈ items -> item_name item ∉ objectPrototypeKeys.
Proof.
  revert acc. induction items as [|item items IH]; intros acc H Hacc x Hx;
    [now apply not_elem_of_nil in Hx|].
  cbn [groupFrom] in H. destruct (groupStep acc item) as [acc'|] eqn:Es;
    [|discriminate].
  assert (item_name item ∉ objectPrototypeKeys) as Hitem.
  { intros Hk. unfold groupStep in Es. rewrite (Hacc _ Hk) in Es.
    now rewrite bool_decide_eq_true_2 in Es. }
  apply elem_of_cons in Hx as [->|Hx]; [exact Hitem|].
  apply (IH acc' H); [|exact Hx]. intros n Hn. unfold groupStep in Es.
  destruct (acc !! item_name item) as [group|];
    [|destruct (bool_decide _); [discriminate|]]; injection Es as <-;
    (rewrite lookup_insert_ne; [now apply Hacc|congruence]).
Qed.

Lemma named_nil_iff n items : named n items = [] <-> n ∉ List.map item_name items.
Proof.
  induction items as [|item items IH]; [split; [intros _; apply not_elem_of_nil|reflexivity]|].
  rewrite named_cons. cbn [List.map]. rewrite not_elem_of_cons.
  destruct (decide (item_name item = n)) as [Heq|Hne].
  - rewrite bool_decide_eq_true_2 by exact Heq. split; [discriminate|].
    intros [H _]. congruence.
  - rewrite bool_decide_eq_false_2 by exact Hne. rewrite IH.
    split; [intros H; split; [congruence|exact H]|now intros [_ H]].
Qed.

Lemma groupedStock_spec items :
  (groupedStock items = None <->
   exists item, item ∈ items /\ item_name item ∈ objectPrototypeKeys) /\
  (forall g, groupedStock items = Some g ->
     (forall n, g !! n = match named n items with
                         | [] => None
                         | first :: more => Some (first :: more)
                         end) /\
     size g = size (list_to_set (List.map item_name items) : gset (list N))).
Proof.
  unfold groupedStock. split; [split|].
  - apply groupFrom_throws.
  - intros (item & Hin & Hk). destruct (groupFrom ∅ items) as [g|] eqn:E;
      [|reflexivity].
    exfalso. now apply (groupFrom_own_only ∅ items g E (fun n _ => lookup_empty n) item).
  - intros g H.
    assert (forall n, g !! n = match named n items with
                               | [] => None
                               | first :: more => Some (first :: more)
                               end) as Hlook.
    { intros n. rewrite (groupFrom_lookup _ _ _ H n), lookup_empty. reflexivity. }
    split; [exact Hlook|]. rewrite <- size_dom. f_equal.
    apply set_eq. intros n. rewrite elem_of_dom, elem_of_list_to_set, Hlook.
    destruct (named n items) as [|first more] eqn:E.
    + apply named_nil_iff in E. split; [intros [? ?]; discriminate|contradiction].
    + split; [|eauto]. intros _.
      destruct (decide (n ∈ List.map item_name items)) as [Hin|Hnin]; [exact Hin|].
      apply named_nil_iff in Hnin. congruence.
Qed.


(** X10: the grouping of the dashboard: it throws exactly when some item is
    named like a property of Object.prototype; otherwise the group of a
    name is the list of the items of that name, in their order, names
    without an item have no group, and the groups are as many as the
    distinct names. *)
Theorem groupedStock_groups_by_name items :
  (groupedStock items = None <->
   exists item, item ∈ items /\ item_name item ∈ objectPrototypeKeys) /\
  (forall g, groupedStock items = Some g ->
     (forall n, g !! n = match named n items with
                         | [] => None
                         | first :: more => Some (first :: more)
                         end) /\
     size g = size (list_to_set (List.map item_name items) : gset (list N))).
Proof. exact (groupedStock_spec items). Qed.

Lemma groupedStock_groups_by_name_witness :
  groupedStock [mkStockItem (lit "toString") [] [] []] = None.
Proof.
  apply (proj1 (groupedStock_groups_by_name [mkStockItem (lit "toString") [] [] []])).
  exists (mkStockItem (lit "toString") [] [] []).
  split; [now left|]. vm_compute. do 8 right. now left.
Defined.

(** X11: the dashboard's summary: every item of the stock is counted either
    as current or as assigned; the distinct names and the items in a
    store are at most the current items, and there is no name without
    an item. *)
Theorem stockSummary_counts stock :
  (totalItems (stockSummary stock) + itemsAssigned (stockSummary stock)
   = strlen stock)%nat /\
  (itemTypesCount (stockSummary stock) <= totalItems (stockSummary stock))%nat /\
  (itemsInStore (stockSummary stock) <= totalItems (stockSummary stock))%nat /\
  (itemTypesCount (stockSummary stock) = 0%nat <->
   totalItems (stockSummary stock) = 0%nat).
Proof.
  unfold stockSummary. cbn [totalItems itemTypesCount itemsAssigned itemsInStore].
  split; [|split; [|split]].
  - unfold currentStock, assignedUnsorted, strlen.
    induction stock as [|item stock IH]; [reflexivity|]. cbn [List.filter].
    destruct (bool_decide _); cbn [negb length]; lia.
  - pose proof (size_list_to_set_le (List.map item_name (currentStock stock))) as H.
    unfold strlen. now rewrite length_map in H.
  - unfold strlen. generalize (currentStock stock). intros l.
    induction l as [|item l IH]; [reflexivity|]. cbn [List.filter].
    destruct (str_neq _ _); cbn [length]; lia.
  - unfold strlen. destruct (currentStock stock) as [|item l].
    + split; reflexivity.
    + split; [|discriminate]. cbn [List.map]. rewrite list_to_set_cons. intros H.
      apply size_empty_inv in H.
      assert (item_name item ∈ ({[item_name item]} ∪ list_to_set (List.map item_name l)
                                : gset (list N))) as Hin by set_solver.
      rewrite H in Hin. now apply not_elem_of_empty in Hin.
Qed.

(** X12: with no location filter the dashboard shows as many groups as the
    summary counts item types. *)
Theorem groupedStock_matches_summary stock g :
  groupedStock (filteredStock stock (lit "All")) = Some g ->
  size g = itemTypesCount (stockSummary stock).
Proof.
  intros H. assert (filteredStock stock (lit "All") = currentStock stock) as Hall.
  { unfold filteredStock. generalize (currentStock stock). intros l.
    induction l as [|item l IH]; [reflexivity|]. cbn [List.filter].
    rewrite bool_decide_eq_true_2 by reflexivity. cbn [orb]. now f_equal. }
  rewrite Hall in H.
  exact (proj2 (proj2 (groupedStock_spec (currentStock stock)) g H)).
Qed.

Lemma groupedStock_matches_summary_witness :
  size ({[lit "Valve" :=
            [mkStockItem (lit "Valve") (lit "V1") (lit "Leading Stores") (lit "Unassigned");
             mkStockItem (lit "Valve") (lit "V2") (lit "Secondary Store") (lit "Unassigned")]]}
        : gmap (list N) (list stockItem)) =
  itemTypesCount
    (stockSummary
       [mkStockItem (lit "Valve") (lit "V1") (lit "Leading Stores") (lit "Unassigned");
        mkStockItem (lit "Meter") (lit "M1") (lit "Leading Stores") (lit "Team A");
        mkStockItem (lit "Valve") (lit "V2") (lit "Secondary Store") (lit "Unassigned")]).
Proof.
  apply (groupedStock_matches_summary
           [mkStockItem (lit "Valve") (lit "V1") (lit "Leading Stores") (lit "Unassigned");
            mkStockItem (lit "Meter") (lit "M1") (lit "Leading Stores") (lit "Team A");
            mkStockItem (lit "Valve") (lit "V2") (lit "Secondary Store") (lit "Unassigned")]).
  vm_compute. reflexivity.
Defined.

(** * Sorted lists of names and barcodes *)

(** [x < y] on strings: by code units, a proper prefix first.  It is the
    order of [sort()] without a comparator. *)
Fixpoint str_lt (a b : list N) : bool :=
  match a, b with
  | _, [] => false
  | [], _ :: _ => true
  | x :: a', y :: b' => ((x <? y) || ((x =? y) && str_lt a' b'))%N%bool
  end.

(** [[...new Set(l)]]: the members in the order of their first
    occurrence. *)
Definition setArray (l : list (list N)) : list (list N) :=
  fold_left (fun acc x => if bool_decide (x ∈ acc) then acc else acc ++ [x]) l [].

(** [sort()] is stable and its default order on strings is total, so its
    result is the one that inserting the elements from the last to the
    first, each before the elements that are not below it, builds. *)
Fixpoint insertSorted (x : list N) (l : list (list N)) : list (list N) :=
  match l with
  | [] => [x]
  | y :: l' => if str_lt y x then y :: insertSorted x l' else x :: l
  end.

Definition sortStrings (l : list (list N)) : list (list N) :=
  foldr insertSorted [] l.

(** [uniqueItemNames] of the reporting page. *)
Definition uniqueItemNames (stock : list stockItem) : list (list N) :=
  lit "All" :: sortStrings (setArray (List.map item_name stock)).

(** The selected item type, as [existingBarcodesForItemType] reads it. *)
Record selectedType : Type := mkSelectedType {
  sel_name : list N;
  sel_is_unique : bool
}.

Definition existingBarcodesForItemType (selectedItemType : option selectedType)
    (stock : list stockItem) : list (list N) :=
  match selectedItemType with
  | None => []
  | Some t =>
      if sel_is_unique t then []
      else
        let barcodes :=
          List.map item_barcode
            (List.filter
               (fun item => (bool_decide (item_name item = sel_name t)
                             && truthy (item_barcode item))%bool)
               stock) in
        sortStrings (setArray barcodes)
  end.

Lemma str_lt_irrefl a : str_lt a a = false.
Proof.
  induction a as [|x a IH]; [reflexivity|]. cbn [str_lt].
  rewrite N.ltb_irrefl, N.eqb_refl, IH. reflexivity.
Qed.

Lemma str_lt_trans a b c : str_lt a b = true -> str_lt b c = true -> str_lt a c = true.
Proof.
  revert b c. induction a as [|x a IH]; intros [|y b] [|z c]; cbn [str_lt];
    try discriminate; try reflexivity.
  rewrite !orb_true_iff, !andb_true_iff, !N.ltb_lt, !N.eqb_eq.
  intros [H1|[-> H1]] [H2|[-> H2]].
  - left. lia.
  - now left.
  - now left.
  - right. split; [reflexivity|]. now apply (IH b).
Qed.

Lemma str_lt_total a b : str_lt a b = false -> str_lt b a = false -> a = b.
Proof.
  revert b. induction a as [|x a IH]; intros [|y b]; cbn [str_lt];
    try discriminate; try reflexivity.
  rewrite !orb_false_iff, !andb_false_iff, !N.ltb_ge, !N.eqb_neq.
  intros [H1 H1'] [H2 H2']. assert (x = y) as -> by lia. f_equal.
  apply IH; [destruct H1'|destruct H2']; congruence.
Qed.

Lemma setArray_spec l :
  NoDup (setArray l) /\ forall x, x ∈ setArray l <-> x ∈ l.
Proof.
  unfold setArray.
  assert (forall acc, NoDup acc ->
            NoDup (fold_left (fun acc x => if bool_decide (x ∈ acc) then acc
                                           else acc ++ [x]) l acc) /\
            forall x, x ∈ fold_left (fun acc x => if bool_decide (x ∈ acc) then acc
                                                  else acc ++ [x]) l acc
                      <-> x ∈ acc \/ x ∈ l) as H.
  { induction l as [|y l IH]; intros acc Hacc; cbn [fold_left].
    - split; [exact Hacc|]. intros x. rewrite elem_of_nil. tauto.
    - destruct (bool_decide (y ∈ acc)) eqn:E.
      + apply bool_decide_eq_true in E. destruct (IH acc Hacc) as [Hnd Hin].
        split; [exact Hnd|]. intros x. rewrite Hin, elem_of_cons.
        split; [tauto|]. intros [H|[->|H]]; tauto.
      + apply bool_decide_eq_false in E.
        assert (NoDup (acc ++ [y])) as Hacc'.
        { apply NoDup_app. split; [exact Hacc|]. split; [|apply NoDup_singleton].
          intros x Hx Hy. apply list_elem_of_singleton in Hy. congruence. }
        destruct (IH _ Hacc') as [Hnd Hin]. split; [exact Hnd|].
        intros x. rewrite Hin, elem_of_app, list_elem_of_singleton, elem_of_cons.
        tauto. }
  destruct (H [] (NoDup_nil_2)) as [Hnd Hin]. split; [exact Hnd|].
  intros x. rewrite Hin, elem_of_nil. tauto.
Qed.

Lemma insertSorted_elem x l y : y ∈ insertSorted x l <-> y = x \/ y ∈ l.
Proof.
  induction l as [|z l IH]; cbn [insertSorted].
  - rewrite list_elem_of_singleton, elem_of_nil. tauto.
  - destruct (str_lt z x); rewrite !elem_of_cons, ?IH; tauto.
Qed.

Lemma insertSorted_sorted x l :
  StronglySorted (fun a b => str_lt a b = true) l -> x ∉ l ->
  StronglySorted (fun a b => str_lt a b = true) (insertSorted x l).
Proof.
  induction l as [|z l IH]; intros Hs Hx; cbn [insertSorted].
  - repeat constructor.
  - apply StronglySorted_inv in Hs as [Hs Hz]. apply not_elem_of_cons in Hx as [Hxz Hx].
    destruct (str_lt z x) eqn:E.
    + constructor; [now apply IH|]. apply Forall_forall. intros y Hy.
      apply insertSorted_elem in Hy as [->|Hy]; [exact E|].
      exact (proj1 (Forall_forall _ _) Hz y Hy).
    + assert (str_lt x z = true) as Hxz'.
      { destruct (str_lt x z) eqn:E'; [reflexivity|].
        exfalso. apply Hxz. now apply str_lt_total. }
      constructor; [constructor; assumption|]. constructor; [exact Hxz'|].
      apply Forall_forall. intros y Hy. apply (str_lt_trans x z y Hxz').
      exact (proj1 (Forall_forall _ _) Hz y Hy).
Qed.

Lemma sortStrings_spec l :
  (forall x, x ∈ sortStrings l <-> x ∈ l) /\
  (NoDup l -> StronglySorted (fun a b => str_lt a b = true) (sortStrings l)).
Proof.
  induction l as [|y l [IHin IHs]]; cbn [sortStrings foldr].
  - split; [tauto|constructor].
  - fold (sortStrings l). split.
    + intros x. rewrite insertSorted_elem, elem_of_cons, IHin. tauto.
    + intros Hnd. apply NoDup_cons in Hnd as [Hy Hnd].
      apply insertSorted_sorted; [now apply IHs|]. now rewrite IHin.
Qed.

(** X13: the barcodes offered for a non-unique item type are the non-empty
    barcodes of the stock items of that name, each once, in strictly
    ascending order of their code units; for a unique type, or with no
    type selected, none is offered. *)
Theorem existingBarcodesForItemType_sorted_distinct stock :
  (forall t, sel_is_unique t = false ->
     StronglySorted (fun a b => str_lt a b = true)
                    (existingBarcodesForItemType (Some t) stock) /\
     forall x, x ∈ existingBarcodesForItemType (Some t) stock <->
               x <> [] /\
               exists item, item ∈ stock /\ item_name item = sel_name t /\
                            item_barcode item = x) /\
  (forall t, sel_is_unique t = true ->
     existingBarcodesForItemType (Some t) stock = []) /\
  existingBarcodesForItemType None stock = [].
Proof.
  split; [|split; [intros t Ht; cbn; now rewrite Ht|reflexivity]].
  intros t Ht. unfold existingBarcodesForItemType. rewrite Ht.
  set (barcodes := List.map item_barcode _).
  destruct (setArray_spec barcodes) as [Hnd Hin].
  destruct (sortStrings_spec (setArray barcodes)) as [Hsin Hss].
  split; [now apply Hss|]. intros x. rewrite Hsin, Hin. unfold barcodes.
  rewrite list_elem_of_In, in_map_iff. split.
  - intros (item & <- & Hitem). apply filter_In in Hitem as [Hitem Hb].
    apply andb_true_iff in Hb as [Hn Hb]. apply bool_decide_eq_true in Hn.
    split; [intros E; rewrite E in Hb; discriminate|].
    exists item. split; [now apply list_elem_of_In|]. now split.
  - intros (Hne & item & Hitem & Hn & <-). exists item. split; [reflexivity|].
    apply filter_In. split; [now apply list_elem_of_In|].
    apply andb_true_iff. split; [now apply bool_decide_eq_true|].
    destruct (item_barcode item); [congruence|reflexivity].
Qed.

Lemma existingBarcodesForItemType_sorted_distinct_witness :
  StronglySorted (fun a b => str_lt a b = true) [lit "B10"; lit "B9"; lit "b1"] /\
  forall x, x ∈ [lit "B10"; lit "B9"; lit "b1"] <->
            x <> [] /\
            exists item,
              item ∈ [mkStockItem (lit "Tee") (lit "b1") [] [];
                      mkStockItem (lit "Tee") (lit "B9") [] [];
                      mkStockItem (lit "Cap") (lit "C3") [] [];
                      mkStockItem (lit "Tee") [] [] [];
                      mkStockItem (lit "Tee") (lit "B10") [] [];
                      mkStockItem (lit "Tee") (lit "B9") [] []] /\
              item_name item = lit "Tee" /\ item_barcode item = x.
Proof.
  exact (proj1 (existingBarcodesForItemType_sorted_distinct
                  [mkStockItem (lit "Tee") (lit "b1") [] [];
                   mkStockItem (lit "Tee") (lit "B9") [] [];
                   mkStockItem (lit "Cap") (lit "C3") [] [];
                   mkStockItem (lit "Tee") [] [] [];
                   mkStockItem (lit "Tee") (lit "B10") [] [];
                   mkStockItem (lit "Tee") (lit "B9") [] []])
               (mkSelectedType (lit "Tee") false) eq_refl).
Defined.

(** X14: the item names offered by the reporting page: "All" first, then the
    names of the stock items, each once, in strictly ascending order.  An
    item that is itself named "All" makes "All" occur twice. *)
Theorem uniqueItemNames_sorted stock :
  exists names,
    uniqueItemNames stock = lit "All" :: names /\
    StronglySorted (fun a b => str_lt a b = true) names /\
    (forall n, n ∈ names <-> exists item, item ∈ stock /\ item_name item = n) /\
    (NoDup (uniqueItemNames stock) <->
     ~ exists item, item ∈ stock /\ item_name item = lit "All").
Proof.
  unfold uniqueItemNames. eexists. split; [reflexivity|].
  destruct (setArray_spec (List.map item_name stock)) as [Hnd Hin].
  destruct (sortStrings_spec (setArray (List.map item_name stock))) as [Hsin Hss].
  assert (forall n, n ∈ sortStrings (setArray (List.map item_name stock)) <->
                    exists item, item ∈ stock /\ item_name item = n) as Hmem.
  { intros n. rewrite Hsin, Hin.
    change (List.map item_name stock) with (item_name <$> stock).
    rewrite list_elem_of_fmap. split; intros (item & H1 & H2); exists item;
      [now split|]. now split. }
  split; [now apply Hss|]. split; [exact Hmem|].
  rewrite NoDup_cons, Hmem. split; [tauto|]. intros H. split; [exact H|].
  assert (NoDup (sortStrings (setArray (List.map item_name stock)))) as Hnds.
  { specialize (Hss Hnd). clear -Hss.
    induction Hss as [|a l Hs IH Ha]; [constructor|].
    apply NoDup_cons. split; [|exact IH]. intros Hin.
    pose proof (proj1 (Forall_forall _ _) Ha a Hin) as Hlt.
    cbn beta in Hlt. now rewrite str_lt_irrefl in Hlt. }
  exact Hnds.
Qed.

(** * The movement report *)

(** A row of [reportData], as far as the summary reads it. *)
Record movement : Type := mkMovement {
  movement_type : list N
}.

Record reportTotals : Type := mkReportTotals {
  totalIn : Z;
  totalOut : Z;
  netChange : Z
}.

(** One step of the [reduce]: a counter goes up by one for an 'IN' and
    for an 'OUT' move. *)
Definition countMove (acc : Z * Z) (move : movement) : Z * Z :=
  let acc1 := if bool_decide (movement_type move = lit "IN")
              then (fst acc + 1, snd acc) else acc in
  if bool_decide (movement_type move = lit "OUT")
  then (fst acc1, snd acc1 + 1) else acc1.

(** [reportSummary]; the counters stay far below 2^53 on any array, so
    they are exact. *)
Definition reportSummary (reportData : option (list movement)) : reportTotals :=
  match reportData with
  | None => {| totalIn := 0; totalOut := 0; netChange := 0 |}
  | Some data =>
      let summary := fold_left countMove data (0, 0) in
      {| totalIn := fst summary; totalOut := snd summary;
         netChange := fst summary - snd summary |}
  end.

Definition movesOfType (t : list N) (data : list movement) : list movement :=
  List.filter (fun move => bool_decide (movement_type move = t)) data.

Lemma fold_countMove data acc :
  fold_left countMove data acc =
  (fst acc + Z.of_nat (strlen (movesOfType (lit "IN") data)),
   snd acc + Z.of_nat (strlen (movesOfType (lit "OUT") data))).
Proof.
  revert acc. induction data as [|move data IH]; intros [i o].
  - cbn. f_equal; lia.
  - cbn [fold_left]. rewrite IH. unfold countMove, movesOfType, strlen.
    cbn [List.filter fst snd].
    destruct (decide (movement_type move = lit "IN")) as [E|E].
    + rewrite (bool_decide_eq_true_2 _ E).
      rewrite bool_decide_eq_false_2 by (rewrite E; discriminate).
      cbn [fst snd length]. f_equal; lia.
    + rewrite (bool_decide_eq_false_2 _ E).
      destruct (bool_decide (movement_type move = lit "OUT"));
        cbn [fst snd length]; f_equal; lia.
Qed.

(** X15: the report counts the 'IN' moves and the 'OUT' moves, each move at
    most once and moves of any other type not at all; the net change is
    their difference, so it lies between minus and plus the number of
    rows. *)
Theorem reportSummary_counts data :
  totalIn (reportSummary (Some data)) =
    Z.of_nat (strlen (movesOfType (lit "IN") data)) /\
  totalOut (reportSummary (Some data)) =
    Z.of_nat (strlen (movesOfType (lit "OUT") data)) /\
  netChange (reportSummary (Some data)) =
    totalIn (reportSummary (Some data)) - totalOut (reportSummary (Some data)) /\
  totalIn (reportSummary (Some data)) + totalOut (reportSummary (Some data))
    <= Z.of_nat (strlen data) /\
  - Z.of_nat (strlen data) <= netChange (reportSummary (Some data))
    <= Z.of_nat (strlen data).
Proof.
  unfold reportSummary. rewrite fold_countMove. cbn [totalIn totalOut netChange fst snd].
  assert (strlen (movesOfType (lit "IN") data) + strlen (movesOfType (lit "OUT") data)
          <= strlen data)%nat as H.
  { unfold movesOfType, strlen. induction data as [|move data IH]; [reflexivity|].
    cbn [List.filter].
    destruct (decide (movement_type move = lit "IN")) as [E|E].
    - rewrite (bool_decide_eq_true_2 _ E).
      rewrite bool_decide_eq_false_2 by (rewrite E; discriminate).
      cbn [length]. lia.
    - rewrite (bool_decide_eq_false_2 _ E).
      destruct (bool_decide (movement_type move = lit "OUT")); cbn [length]; lia. }
  lia.
Qed.

(** * Submitting the add-stock forms *)

(** [parseInt(s, 10)] on any string: leading white space is dropped, one
    sign is read, then the leading digits.  The minus sign is kept apart
    from the magnitude, so that [-0] and [-Infinity] are told from [0]
    and [Infinity]. *)
Inductive signedNumber : Type :=
  | Plus (x : number)
  | Minus (x : number).

Definition parseInt (s : list N) : signedNumber :=
  match trimStart s with
  | 45%N :: rest => Minus (parseInt10 rest)
  | 43%N :: rest => Plus (parseInt10 rest)
  | rest => Plus (parseInt10 rest)
  end.

Definition magnitude (q : signedNumber) : number :=
  match q with Plus x => x | Minus x => x end.

(** [isNaN(q)], [q < 1], [q > 0], [q > 1] and the truthiness of [q]. *)
Definition sn_isNaN (q : signedNumber) : bool := isNaN (magnitude q).

Definition sn_lt1 (q : signedNumber) : bool :=
  match q with
  | Plus (Fin z) => z <? 1
  | Minus (Fin z) => - z <? 1
  | Minus Infinity => true
  | _ => false
  end.

Definition sn_gt (q : signedNumber) (bound : Z) : bool :=
  match q with
  | Plus (Fin z) => bound <? z
  | Minus (Fin z) => bound <? - z
  | Plus Infinity => true
  | _ => false
  end.

Definition sn_truthy (q : signedNumber) : bool :=
  match magnitude q with
  | Fin z => negb (z =? 0)
  | Infinity => true
  | NaN => false
  end.


(** The length that [Array.from({ length: q }, ...)] reads: [q] as an
    integer, at least 0 and at most 2^53 - 1. *)
Definition toLength (q : signedNumber) : Z :=
  match q with
  | Plus (Fin z) => Z.max 0 (Z.min z (2 ^ 53 - 1))
  | Plus Infinity => 2 ^ 53 - 1
  | _ => 0
  end.

(** An object handed to [bulkAddStockItems]. *)
Record newStockItem : Type := mkNewStockItem {
  new_name : list N;
  new_description : list N;
  new_barcode : list N
}.

(** How a submission ends: with the message of a thrown [Error] (the one
    [setError] then shows), with the RangeError of an array of 2^32
    entries or more (its message is the engine's), or with the items
    passed on ([bulkAddStockItems] is called when there is at least
    one). *)
Inductive submission : Type :=
  | Rejected (message : list N)
  | ArrayTooLong
  | Added (itemsToAdd : list newStockItem).

(** [Array.from({ length: q }, () => item)] *)
Definition arrayOf (q : signedNumber) (item : newStockItem) : option (list newStockItem) :=
  if toLength q <? 2 ^ 32 then Some (repeat item (Z.to_nat (toLength q)))
  else None.

(** [list.join(sep)] *)
Fixpoint join (sep : list N) (l : list (list N)) : list N :=
  match l with
  | [] => []
  | [x] => x
  | x :: more => x ++ sep ++ join sep more
  end.

Definition duplicatesMessage (duplicates : list (list N)) : list N :=
  lit "The following serial numbers already exist: "
  ++ join (lit ", ") (take 5 duplicates)
  ++ (if (5 <? strlen duplicates)%nat then lit "..." else [])
  ++ lit ". No items were added.".

Definition MSG_SELECT_TYPE : list N :=
  lit "Please select an item type from the dropdown.".
Definition MSG_NO_SERIAL : list N :=
  lit "Please provide at least one serial number for this unique item type.".
Definition MSG_NO_BARCODE : list N :=
  lit "Please provide a serial number / barcode.".
Definition MSG_BAD_QUANTITY : list N := lit "Please enter a valid quantity.".

(** [handleAddItem], from the form state, the memoised intake result of
    the render and the backend's answer [existingBarcodes] to
    [getExistingBarcodes] (asked only on the way that reaches it); the
    backend calls are taken to succeed. *)
Definition handleAddItem (selectedItemType : option selectedType)
    (name description barcode quantityStr : list N)
    (result : processing) (existingBarcodes : list (list N)) : submission :=
  match selectedItemType with
  | None => Rejected MSG_SELECT_TYPE
  | Some t =>
      if sel_is_unique t then
        if (strlen (serials result) =? 0)%nat then Rejected MSG_NO_SERIAL
        else
          match error result with
          | Some currentProcessingError =>
              if truthy currentProcessingError
              then Rejected currentProcessingError
              else if (0 <? strlen existingBarcodes)%nat
                   then Rejected (duplicatesMessage existingBarcodes)
                   else Added (List.map (mkNewStockItem name description)
                                        (serials result))
          | None =>
              if (0 <? strlen existingBarcodes)%nat
              then Rejected (duplicatesMessage existingBarcodes)
              else Added (List.map (mkNewStockItem name description)
                                   (serials result))
          end
      else
        let quantity := parseInt quantityStr in
        if negb (truthy (trim barcode)) then Rejected MSG_NO_BARCODE
        else if (sn_isNaN quantity || sn_lt1 quantity)%bool
             then Rejected MSG_BAD_QUANTITY
             else match arrayOf quantity
                          (mkNewStockItem name description (trim barcode)) with
                  | Some itemsToAdd => Added itemsToAdd
                  | None => ArrayTooLong
                  end
  end.


Lemma readDigits_app d rest acc n :
  allDigits d ->
  match rest with c :: _ => isDecimalDigit c = false | [] => True end ->
  readDigits (d ++ rest) acc n =
  (fold_left (fun a c => 10 * a + (Z.of_N c - 48)) d acc, (n + strlen d)%nat).
Proof.
  intros Hd Hrest. revert acc n.
  induction Hd as [|c d Hc Hd IH]; intros acc n; cbn [app fold_left].
  - unfold strlen. cbn [length]. rewrite Nat.add_0_r.
    destruct rest as [|c rest]; [reflexivity|]. cbn [readDigits].
    now rewrite digitValue_digit, Hrest.
  - cbn [readDigits]. rewrite digitValue_digit, Hc, IH. f_equal.
    unfold strlen. cbn [length]. lia.
Qed.

Lemma trimStart_spaces ws s :
  Forall (fun c => isWhiteSpace c = true) ws -> noSpaceAtStart s ->
  trimStart (ws ++ s) = s.
Proof.
  intros Hws Hs. induction Hws as [|c ws Hc Hws IH]; cbn [app trimStart].
  - now apply trimStart_fixed.
  - now rewrite Hc.
Qed.

Lemma digit_not_space c : isDecimalDigit c = true -> isWhiteSpace c = false.
Proof.
  unfold isDecimalDigit. intros H. apply andb_true_iff in H as [H1 H2].
  apply N.leb_le in H1, H2.
  assert (c = 48 \/ c = 49 \/ c = 50 \/ c = 51 \/ c = 52 \/ c = 53 \/ c = 54
          \/ c = 55 \/ c = 56 \/ c = 57)%N as Hc by lia.
  repeat (destruct Hc as [->|Hc]; [reflexivity|]). now subst.
Qed.

Lemma parseInt_leading ws d rest :
  Forall (fun c => isWhiteSpace c = true) ws ->
  allDigits d -> d <> [] ->
  match rest with c :: _ => isDecimalDigit c = false | [] => True end ->
  parseInt (ws ++ d ++ rest) = Plus (roundF64 (digitsValue d)).
Proof.
  intros Hws Hd Hne Hrest. unfold parseInt.
  destruct d as [|c d']; [congruence|].
  pose proof (Forall_inv Hd) as Hc. cbn beta in Hc.
  rewrite trimStart_spaces;
    [|exact Hws|cbn [app noSpaceAtStart]; now apply digit_not_space].
  assert (parseInt10 ((c :: d') ++ rest) = roundF64 (digitsValue (c :: d'))) as Hp.
  { unfold parseInt10. rewrite readDigits_app by assumption. reflexivity. }
  cbn [app] in *. unfold isDecimalDigit in Hc.
  apply andb_true_iff in Hc as [H1 H2]. apply N.leb_le in H1, H2.
  destruct (N.eq_dec c 45%N) as [->|H45]; [lia|].
  destruct (N.eq_dec c 43%N) as [->|H43]; [lia|].
  rewrite <- Hp. destruct c as [|p]; [reflexivity|].
  do 6 (destruct p as [p|p|]; try reflexivity); congruence.
Qed.

(** X16: parseInt(s, 10) is the value of the leading digits of [s], after
    any white space: text after the digits that does not start with a
    digit is ignored, so "12e3" and "12.9" both read as 12. *)
Theorem parseInt_reads_leading_digits ws d rest :
  Forall (fun c => isWhiteSpace c = true) ws ->
  allDigits d -> d <> [] ->
  match rest with c :: _ => isDecimalDigit c = false | [] => True end ->
  parseInt (ws ++ d ++ rest) = Plus (roundF64 (digitsValue d)).
Proof. exact (parseInt_leading ws d rest). Qed.

Lemma parseInt_reads_leading_digits_witness :
  parseInt (lit "  12e3") = Plus (roundF64 12).
Proof.
  apply (parseInt_reads_leading_digits (lit "  ") (lit "12") (lit "e3")).
  - repeat constructor.
  - repeat constructor.
  - discriminate.
  - reflexivity.
Defined.




(** X17: for a unique item type, on any result of serialsProcessingResult:
    an intake error always ends the submission with the message that
    asks for at least one serial number (the intake error itself is
    never the message shown, since a result with an error holds no
    serial); the items are passed on only when the intake result has
    serials and the backend knows none of them, and then they are one
    item per serial, between 1 and 1000, with pairwise distinct
    barcodes. *)
Theorem handleAddItem_unique capacity fuel addMode newItem p t name description barcode
    quantityStr existingBarcodes :
  serialsProcessingResult capacity fuel addMode newItem = Some (Normal p) ->
  sel_is_unique t = true ->
  (error p <> None ->
   handleAddItem (Some t) name description barcode quantityStr p existingBarcodes
   = Rejected MSG_NO_SERIAL) /\
  (serials p <> [] -> existingBarcodes <> [] ->
   handleAddItem (Some t) name description barcode quantityStr p existingBarcodes
   = Rejected (duplicatesMessage existingBarcodes)) /\
  (forall itemsToAdd,
     handleAddItem (Some t) name description barcode quantityStr p existingBarcodes
     = Added itemsToAdd ->
     existingBarcodes = [] /\ error p = None /\
     itemsToAdd = List.map (mkNewStockItem name description) (serials p) /\
     (1 <= strlen itemsToAdd <= 1000)%nat /\
     NoDup (List.map new_barcode itemsToAdd)).
Proof.
  intros Hp Ht. destruct (proj1 intake_invariant _ _ _ _ _ Hp) as (Hex & Hnd & Hcap).
  unfold handleAddItem. rewrite Ht. split; [|split].
  - intros He. now rewrite (Hex He).
  - intros Hs He. destruct (serials p) as [|s l] eqn:Es; [congruence|].
    cbn [strlen length Nat.eqb].
    destruct (error p) as [e|] eqn:Ee; [specialize (Hex ltac:(discriminate)); discriminate|].
    destruct existingBarcodes; [congruence|reflexivity].
  - intros items. destruct (strlen (serials p) =? 0)%nat eqn:E0; [discriminate|].
    apply Nat.eqb_neq in E0.
    destruct (error p) as [e|] eqn:Ee.
    { specialize (Hex ltac:(discriminate)). rewrite Hex in E0. now cbn in E0. }
    destruct (0 <? strlen existingBarcodes)%nat eqn:E1; [discriminate|].
    intros [= <-]. apply Nat.ltb_ge in E1.
    split; [destruct existingBarcodes; [reflexivity|cbn in E1; lia]|].
    split; [reflexivity|]. split; [reflexivity|].
    unfold strlen in *. rewrite length_map, List.map_map. cbn [new_barcode].
    rewrite List.map_id. split; [lia|exact Hnd].
Qed.

Lemma handleAddItem_unique_witness :
  handleAddItem (Some (mkSelectedType (lit "Meter") true)) (lit "Meter") [] [] (lit "1")
    {| serials := [];
       error := Some (lit "The start number cannot be greater than the end number.") |}
    []
  = Rejected MSG_NO_SERIAL.
Proof.
  refine (proj1 (handleAddItem_unique MAX_ARRAY_LENGTH 0 (lit "range")
                   {| barcodes := []; firstSerial := lit "G9"; lastSerial := lit "G2" |}
                   {| serials := [];
                      error := Some (lit "The start number cannot be greater than the end number.") |}
                   (mkSelectedType (lit "Meter") true) (lit "Meter") [] [] (lit "1") []
                   eq_refl eq_refl) _).
  discriminate.
Defined.





(** [handleAddScannedItem], from the details of the scanned item, what
    [itemTypes.find] gave for its name ([isMeterType]: found with the
    category Meters; [isUnique]: found and unique), the memoised result
    of scannedSerialsProcessingResult and the backend's answers: the
    barcodes it already knows among the serials and the number of items
    it holds with the scanned barcode. *)
Definition FAILED_SCANNED : list N := lit "Failed to add scanned item: ".

Definition handleAddScannedItem (name description barcode quantityStr : list N)
    (isMeterType isUnique : bool) (result : processing)
    (existingBarcodes : list (list N)) (existingWithBarcode : nat) : submission :=
  if negb (truthy name) then Rejected (lit "Please select an item type.")
  else if isMeterType then
    let thrown :=
      match error result with
      | Some processingError =>
          if truthy processingError
          then Some (Rejected (FAILED_SCANNED ++ processingError)) else None
      | None => None
      end in
      match thrown with
      | Some outcome => outcome
      | None =>
          if (strlen (serials result) =? 0)%nat
          then Rejected (FAILED_SCANNED
                         ++ lit "Please provide a valid serial number range.")
          else if (isUnique && (0 <? strlen existingBarcodes)%nat)%bool
               then Rejected (FAILED_SCANNED ++ duplicatesMessage existingBarcodes)
               else Added (List.map (mkNewStockItem name description)
                                    (serials result))
      end
  else
    let quantity :=
      if sn_truthy (parseInt quantityStr) then parseInt quantityStr
      else Plus (Fin 1) in
    if (isUnique && sn_gt quantity 1)%bool
    then Rejected (FAILED_SCANNED
                   ++ lit "Cannot add multiple unique items with the same serial number.")
    else if (isUnique && (0 <? existingWithBarcode)%nat)%bool
         then Rejected (FAILED_SCANNED ++ lit "An item with serial number " ++ [34%N]
                        ++ barcode ++ [34%N] ++ lit " already exists.")
         else match arrayOf quantity (mkNewStockItem name description barcode) with
              | Some itemsToAdd => Added itemsToAdd
              | None => ArrayTooLong
              end.

Lemma expandRange_error_truthy capacity fuel start end_ e :
  expandRange capacity fuel start end_ = Some (Normal (Error e)) -> truthy e = true.
Proof.
  unfold expandRange.
  destruct (parseSerial start) as [sp|]; [|intros [= <-]; reflexivity].
  destruct (parseSerial end_) as [ep|]; [|intros [= <-]; reflexivity].
  destruct (_ || _)%bool; [intros [= <-]; reflexivity|].
  destruct (num_gt _ _); [intros [= <-]; reflexivity|].
  destruct (forLoop _ _ _ _ _ _ _ _) as [[|]|]; discriminate.
Qed.

(** X20: for a meter type, the scanned-item form reports the intake error of
    scannedSerialsProcessingResult as it is, after its own prefix; and
    when it passes items on they are one per serial of the result,
    between 1 and 1000, with pairwise distinct barcodes. *)
Theorem handleAddScannedItem_meters capacity fuel itemTypes details p name description
    barcode quantityStr isUnique existingBarcodes existingWithBarcode :
  scannedSerialsProcessingResult capacity fuel itemTypes details = Some (Normal p) ->
  name <> [] ->
  (forall e, error p = Some e ->
     handleAddScannedItem name description barcode quantityStr true isUnique p
                          existingBarcodes existingWithBarcode
     = Rejected (FAILED_SCANNED ++ e)) /\
  (forall itemsToAdd,
     handleAddScannedItem name description barcode quantityStr true isUnique p
                          existingBarcodes existingWithBarcode
     = Added itemsToAdd ->
     itemsToAdd = List.map (mkNewStockItem name description) (serials p) /\
     (1 <= strlen itemsToAdd <= 1000)%nat /\
     NoDup (List.map new_barcode itemsToAdd) /\
     (isUnique = true -> existingBarcodes = [])).
Proof.
  intros Hp Hname. destruct (proj2 intake_invariant _ _ _ _ _ Hp) as (Hex & Hnd & Hcap).
  assert (truthy name = true) as Ht by (destruct name; [congruence|reflexivity]).
  assert (forall e, error p = Some e -> truthy e = true) as Herr.
  { intros e He. revert Hp. unfold scannedSerialsProcessingResult.
    destruct (findItemType _ _) as [t|]; [|intros [= <-]; discriminate].
    destruct (str_neq _ _); [intros [= <-]; discriminate|].
    unfold processRange. destruct (_ || _)%bool; [intros [= <-]; discriminate|].
    destruct (expandRange _ _ _ _) as [[[expanded|msg]|]|] eqn:E;
      [| |discriminate|discriminate].
    - destruct (1000 <? strlen expanded)%nat; intros [= <-]; [|discriminate].
      cbn [error] in He. injection He as <-. reflexivity.
    - intros [= <-]. cbn [error] in He. injection He as <-.
      exact (expandRange_error_truthy _ _ _ _ _ E). }
  unfold handleAddScannedItem. rewrite Ht. cbn [negb]. split.
  - intros e He. now rewrite He, (Herr e He).
  - intros items. destruct (error p) as [e|] eqn:Ee.
    { rewrite (Herr e eq_refl). discriminate. }
    destruct (strlen (serials p) =? 0)%nat eqn:E0; [discriminate|].
    apply Nat.eqb_neq in E0.
    destruct (isUnique && (0 <? strlen existingBarcodes)%nat)%bool eqn:E1;
      [discriminate|].
    intros [= <-]. split; [reflexivity|].
    unfold strlen in *. rewrite length_map, List.map_map. cbn [new_barcode].
    rewrite List.map_id. split; [lia|]. split; [exact Hnd|].
    intros ->. cbn [andb] in E1. apply Nat.ltb_ge in E1.
    destruct existingBarcodes; [reflexivity|cbn in E1; lia].
Qed.

Lemma handleAddScannedItem_meters_witness :
  handleAddScannedItem (lit "Gas meter") [] (lit "G9") (lit "1") true true
    {| serials := [];
       error := Some (lit "The start number cannot be greater than the end number.") |}
    [] 0
  = Rejected (FAILED_SCANNED
              ++ lit "The start number cannot be greater than the end number.").
Proof.
  refine (proj1 (handleAddScannedItem_meters MAX_ARRAY_LENGTH 0
                   [mkItemType (lit "Gas meter") (lit "Meters")]
                   (mkScanned (lit "Gas meter") (lit "G9") (lit "G2"))
                   {| serials := [];
                      error := Some (lit "The start number cannot be greater than the end number.") |}
                   (lit "Gas meter") [] (lit "G9") (lit "1") true [] 0%nat
                   eq_refl _) _ eq_refl).
  discriminate.
Defined.

Lemma parseInt_minus ws d rest :
  Forall (fun c => isWhiteSpace c = true) ws ->
  allDigits d -> d <> [] ->
  match rest with c :: _ => isDecimalDigit c = false | [] => True end ->
  parseInt (ws ++ 45%N :: d ++ rest) = Minus (roundF64 (digitsValue d)).
Proof.
  intros Hws Hd Hne Hrest. unfold parseInt.
  rewrite trimStart_spaces; [|exact Hws|reflexivity].
  f_equal. unfold parseInt10. rewrite readDigits_app by assumption.
  destruct d; [congruence|reflexivity].
Qed.

(** X21: for a scanned item whose type is neither a meter nor unique: a
    quantity text whose leading number is zero, or the empty text, counts
    as 1, so exactly one item is passed on; a quantity text that reads as
    a negative number passes on no item at all, and no error is shown. *)
Theorem handleAddScannedItem_quantity_fallback name description barcode ws d rest
    result existingBarcodes existingWithBarcode :
  name <> [] ->
  Forall (fun c => isWhiteSpace c = true) ws ->
  allDigits d -> d <> [] ->
  match rest with c :: _ => isDecimalDigit c = false | [] => True end ->
  (digitsValue d = 0 ->
   handleAddScannedItem name description barcode (ws ++ d ++ rest) false false result
                        existingBarcodes existingWithBarcode
   = Added [mkNewStockItem name description barcode]) /\
  handleAddScannedItem name description barcode [] false false result
                       existingBarcodes existingWithBarcode
  = Added [mkNewStockItem name description barcode] /\
  (1 <= digitsValue d ->
   handleAddScannedItem name description barcode (ws ++ 45%N :: d ++ rest) false false
                        result existingBarcodes existingWithBarcode
   = Added []).
Proof.
  intros Hname Hws Hd Hne Hrest.
  assert (truthy name = true) as Ht by (destruct name; [congruence|reflexivity]).
  unfold handleAddScannedItem. rewrite Ht. cbn [negb andb]. split; [|split].
  - intros H0. rewrite (parseInt_leading ws d rest Hws Hd Hne Hrest), H0. reflexivity.
  - reflexivity.
  - intros H1. rewrite (parseInt_minus ws d rest Hws Hd Hne Hrest).
    destruct (roundF64 (digitsValue d)) as [z| |] eqn:Er.
    + assert (z <> 0) as Hz.
      { intros ->. destruct (Z.lt_ge_cases (digitsValue d) (2 ^ 53)) as [Hlt|Hge].
        - rewrite roundF64_small in Er by exact Hlt. injection Er. lia.
        - apply roundF64_dbl, dbl_ge in Er; [|exact Hge].
          change (2 ^ 53) with 9007199254740992 in Er. lia. }
      cbn [sn_truthy magnitude]. apply Z.eqb_neq in Hz. rewrite Hz. reflexivity.
    + reflexivity.
    + exfalso. exact (roundF64_not_NaN _ Er).
Qed.

Lemma handleAddScannedItem_quantity_fallback_witness :
  handleAddScannedItem (lit "Tee") [] (lit "T1") (lit " -4 pcs") false false
                       {| serials := []; error := None |} [] 0
  = Added [].
Proof.
  refine (proj2 (proj2 (handleAddScannedItem_quantity_fallback (lit "Tee") []
                          (lit "T1") (lit " ") (lit "4") (lit " pcs")
                          {| serials := []; error := None |} [] 0%nat _ _ _ _ _)) _).
  - discriminate.
  - repeat constructor.
  - repeat constructor.
  - discriminate.
  - reflexivity.
  - apply Z.leb_le. reflexivity.
Defined.

(** * The movement log of one item *)

(** The movement that [updateStockItemAssignment] logs for an item
    assigned to [oldAssignedTo] when it becomes assigned to
    [assigned_to]: an 'OUT' when it leaves the store for a team, an 'IN'
    when it comes back, none otherwise. *)
Definition assignmentMovement (oldAssignedTo assigned_to : list N)
    : option movement :=
  if (bool_decide (oldAssignedTo = Team_UNASSIGNED)
      && str_neq assigned_to Team_UNASSIGNED)%bool
  then Some (mkMovement (lit "OUT"))
  else if (str_neq oldAssignedTo Team_UNASSIGNED
           && bool_decide (assigned_to = Team_UNASSIGNED))%bool
       then Some (mkMovement (lit "IN"))
       else None.

(** The item's assignment and its movement log after one call of
    [updateStockItemAssignment] (the backend calls taken to succeed). *)
Definition updateStockItemAssignment (state : list N * list movement)
    (assigned_to : list N) : list N * list movement :=
  (assigned_to,
   match assignmentMovement (fst state) assigned_to with
   | Some move => snd state ++ [move]
   | None => snd state
   end).

(** [addStockItem] stores the item unassigned and logs an 'IN'. *)
Definition addStockItem : list N * list movement :=
  (Team_UNASSIGNED, [mkMovement (lit "IN")]).

(** [deleteStockItem] logs an 'OUT', wherever the item is. *)
Definition deleteStockItem (state : list N * list movement) : list movement :=
  snd state ++ [mkMovement (lit "OUT")].

(** The item after it was added and then assigned in turn to each of
    [assignments]. *)
Definition itemHistory (assignments : list (list N)) : list N * list movement :=
  fold_left updateStockItemAssignment assignments addStockItem.

Lemma reportSummary_snoc data move :
  netChange (reportSummary (Some (data ++ [move]))) =
  netChange (reportSummary (Some data))
  + (if bool_decide (movement_type move = lit "IN") then 1 else 0)
  - (if bool_decide (movement_type move = lit "OUT") then 1 else 0).
Proof.
  unfold reportSummary. cbn [netChange]. rewrite fold_left_app. cbn [fold_left].
  destruct (fold_left countMove data (0, 0)) as [i o]. unfold countMove.
  cbn [fst snd].
  destruct (bool_decide (movement_type move = lit "IN"));
    destruct (bool_decide (movement_type move = lit "OUT")); cbn [fst snd]; lia.
Qed.

Lemma itemHistory_net assignments state :
  netChange (reportSummary (Some (snd state))) =
    (if bool_decide (fst state = Team_UNASSIGNED) then 1 else 0) ->
  netChange (reportSummary
               (Some (snd (fold_left updateStockItemAssignment assignments state)))) =
    (if bool_decide (fst (fold_left updateStockItemAssignment assignments state)
                     = Team_UNASSIGNED) then 1 else 0).
Proof.
  revert state. induction assignments as [|a assignments IH]; intros [cur log] H;
    [exact H|].
  cbn [fold_left]. apply IH. cbn [fst snd] in *.
  unfold updateStockItemAssignment, assignmentMovement, str_neq. cbn [fst snd].
  destruct (bool_decide (cur = Team_UNASSIGNED));
    destruct (bool_decide (a = Team_UNASSIGNED)); cbn [negb andb];
    rewrite ?reportSummary_snoc, ?H; reflexivity.
Qed.

(** X22: over the whole movement log of one item, from its creation through
    any sequence of assignments, the report's net change is 1 while the
    item is unassigned and 0 while it is assigned to a team.  Deleting
    the item then logs one more 'OUT': the net change of its log ends at
    0 when it was unassigned and at -1 when it was assigned. *)
Theorem movement_log_net_change assignments :
  netChange (reportSummary (Some (snd (itemHistory assignments)))) =
    (if bool_decide (fst (itemHistory assignments) = Team_UNASSIGNED)
     then 1 else 0) /\
  netChange (reportSummary (Some (deleteStockItem (itemHistory assignments)))) =
    (if bool_decide (fst (itemHistory assignments) = Team_UNASSIGNED)
     then 0 else -1).
Proof.
  assert (netChange (reportSummary (Some (snd (itemHistory assignments)))) =
          (if bool_decide (fst (itemHistory assignments) = Team_UNASSIGNED)
           then 1 else 0)) as H.
  { unfold itemHistory. apply itemHistory_net. reflexivity. }
  split; [exact H|]. unfold deleteStockItem. rewrite reportSummary_snoc, H.
  cbn [movement_type].
  rewrite (bool_decide_eq_false_2 (lit "OUT" = lit "IN")) by (vm_compute; congruence).
  rewrite (bool_decide_eq_true_2 (lit "OUT" = lit "OUT")) by reflexivity.
  destruct (bool_decide _); reflexivity.
Qed.
